(** * hunter_ros: the base driver core (scout_base.cpp)

    A shallow embedding of [wescore::ScoutBase]: transport selection
    ([Connect], [Disconnect]), the command setters, the control loop with
    the stopwatch that paces it, the CAN receive path, the status reducer
    [UpdateScoutState] and the destructor.

    Conventions.
    - A [double] is a primitive binary64 float ([PrimFloat.float]), so the
      arithmetic of the reducer and of the setter is the IEEE arithmetic
      the program runs.
    - A [uint8_t] field of a message is a [byte]; wider integers are [Z]
      with the wrap-around of each cast written out.
    - The object's fields are a record ([ScoutBase]); a member function
      is a computation in the monad [M] that threads the object, may be
      undefined (a null transport handle, an out-of-range conversion) and
      logs what it does to the transports and to [std::cerr].
    - Threads interleave. In a schedule ([Call]) and in a run of a driver
      ([Event]) a setter or a receive callback is one step, and the
      command thread takes its loop one action at a time (motion send,
      test of the requested flag, light send), so that calls may fall
      between the test and the light send.
    - A [Driver] is the object together with its command thread, which
      exists from [StartCmdThread] on; a run of a driver is a sequence of
      calls from outside and of actions of that thread.
    - A send releases its lock before it hands the message off, and
      [SetMotionCommand] starts the thread before it stores. The finer
      steps ([FineCall]) cut each send and the motion setter in two
      there; what is said of the contents of the frames that follow a
      setter call is said of these. *)

From Stdlib Require Import ZArith Floats QArith Qround Lia String.
From Stdlib.Strings Require Import Byte.
From stdpp Require Import base option list.

(* A decimal literal such as 36.8 denotes the nearest double, as it does
   in the C++ sources. *)
#[local] Set Warnings "-inexact-float".

#[local] Open Scope Z_scope.

(** ** Integer casts *)

(** The value of a [uint8_t]; widening it ([static_cast<uint16_t>(b)], the
    promotion to [int]) keeps the value. *)
Definition Z_of_byte (b : byte) : Z := Z.of_N (Byte.to_N b).

(** [static_cast<int16_t>(z)]: reduction modulo 2^16 into [-32768, 32767]. *)
Definition static_cast_int16 (z : Z) : Z := (z + 32768) mod 65536 - 32768.

(** The conversion to [uint16_t]: reduction modulo 2^16 into [0, 65535]. *)
Definition static_cast_uint16 (z : Z) : Z := z mod 65536.

(** [static_cast<int8_t>(z)]: reduction modulo 2^8 into [-128, 127]. *)
Definition static_cast_int8 (z : Z) : Z := (z + 128) mod 256 - 128.

(** A two-byte field of a status message, [struct { high_byte; low_byte }]. *)
Record Bytes16 := { high_byte : byte; low_byte : byte }.

(** [static_cast<uint16_t>(f.low_byte) | static_cast<uint16_t>(f.high_byte) << 8]
    ([<<] binds tighter than [|]; both operands are promoted to [int]). *)
Definition assemble16 (f : Bytes16) : Z :=
  Z.lor (Z_of_byte (low_byte f)) (Z.shiftl (Z_of_byte (high_byte f)) 8).

(** The unsigned value the two bytes denote, little end first. *)
Definition unsigned16 (f : Bytes16) : Z :=
  Z_of_byte (low_byte f) + 256 * Z_of_byte (high_byte f).

(** The same sixteen bits read as a two's complement number. *)
Definition signed16 (f : Bytes16) : Z :=
  if unsigned16 f <? 32768 then unsigned16 f else unsigned16 f - 65536.

(** ** Doubles *)

(** The conversion of an [int] to [double]; exact below 2^53. *)
Definition double_of_Z (z : Z) : float :=
  if z <? 0 then PrimFloat.opp (PrimFloat.of_uint63 (Uint63.of_Z (- z)))
  else PrimFloat.of_uint63 (Uint63.of_Z z).

(** The integer part of a finite double, towards zero. *)
Definition SFtrunc (x : spec_float) : option Z :=
  match x with
  | S754_zero _ => Some 0
  | S754_finite s m e =>
      let a := if 0 <=? e then Z.shiftl (Z.pos m) e else Z.shiftr (Z.pos m) (- e) in
      Some (if s then - a else a)
  | S754_infinity _ | S754_nan => None
  end.

(** [static_cast<uint8_t>(x)] for a [double] x: the fractional part is
    discarded; the conversion is undefined ([None]) when the truncated
    value is not one of 0..255, and for an infinity or a NaN. *)
Definition static_cast_uint8 (x : float) : option Z :=
  match SFtrunc (Prim2SF x) with
  | Some n => if (0 <=? n) && (n <=? 255) then Some n else None
  | None => None
  end.

(** The value a mantissa with its rounding location is at most, in units
    of the last place: the mantissa itself when the location is exact, the
    next one otherwise. *)
Definition upper_mantissa (m : Z) (l : location) : Z :=
  match l with loc_Exact => m | loc_Inexact _ => m + 1 end.

(** The rational a finite double denotes. *)
Definition SF2Q (x : spec_float) : option Q :=
  match x with
  | S754_zero _ => Some 0%Q
  | S754_finite s m e =>
      let a := if s then Z.neg m else Z.pos m in
      Some (if 0 <=? e then inject_Z (a * 2 ^ e) else (a # Z.to_pos (2 ^ (- e)))%Q)
  | S754_infinity _ | S754_nan => None
  end.

(** The integer part of a rational, towards zero. *)
Definition Qtruncate (q : Q) : Z := Z.quot (Qnum q) (Z.pos (Qden q)).

(** The nearest integer, halves away from zero ([std::round]). *)
Definition Qround_nearest (q : Q) : Z :=
  if Qle_bool 0 q then Qfloor (q + (1 # 2)) else - Qfloor ((1 # 2) - q).

(** The integer a double rounds to, if it is finite. *)
Definition round_double (x : float) : option Z := option_map Qround_nearest (SF2Q (Prim2SF x)).

(** The integer part of a double towards zero, if it is finite. *)
Definition truncate_double (x : float) : option Z := option_map Qtruncate (SF2Q (Prim2SF x)).

(** ** Robot state *)

(** Modelled from the spec: the header declaring [ScoutState] is not among
    the sources; the fields and their types follow the spec's data model
    (velocities, battery voltage and motor current in physical units, the
    rpm signed, the temperature and the light values verbatim bytes, the
    fault code a 16-bit field, four motor slots). *)
Record MotorState := {
  current : float;
  rpm : Z;
  temperature : byte
}.

Record LightState := {
  mode : byte;
  custom_value : byte
}.

Record ScoutState := {
  base_state : byte;
  control_mode : byte;
  fault_code : Z;
  battery_voltage : float;
  motor_states : list MotorState;
  light_control_enabled : bool;
  front_light_state : LightState;
  rear_light_state : LightState;
  linear_velocity : float;
  angular_velocity : float
}.

(** The state at construction: every field zero, four motor slots. *)
Definition zero_MotorState : MotorState :=
  {| current := 0%float; rpm := 0; temperature := x00 |}.

Definition zero_ScoutState : ScoutState :=
  {| base_state := x00; control_mode := x00; fault_code := 0;
     battery_voltage := 0%float;
     motor_states := replicate 4 zero_MotorState;
     light_control_enabled := false;
     front_light_state := {| mode := x00; custom_value := x00 |};
     rear_light_state := {| mode := x00; custom_value := x00 |};
     linear_velocity := 0%float; angular_velocity := 0%float |}.

(** ** Status messages *)

(** The tag of a decoded status message. The reducer names seven
    enumerators; [ScoutStatusOther] stands for every other value the
    enumeration type can hold. *)
Inductive ScoutStatusMsgType :=
| ScoutMotionStatusMsg
| ScoutLightStatusMsg
| ScoutSystemStatusMsg
| ScoutMotor1DriverStatusMsg
| ScoutMotor2DriverStatusMsg
| ScoutMotor3DriverStatusMsg
| ScoutMotor4DriverStatusMsg
| ScoutStatusOther (tag : Z).

(** The payloads, with the fields the reducer reads ([msg.msg.status.f]). *)
Module MotionStatus.
Record t := { linear_velocity : Bytes16; angular_velocity : Bytes16 }.
End MotionStatus.

Module LightStatus.
Record t := {
  light_ctrl_enable : byte;
  front_light_mode : byte;
  front_light_custom : byte;
  rear_light_mode : byte;
  rear_light_custom : byte
}.
End LightStatus.

Module SystemStatus.
Record t := {
  base_state : byte;
  control_mode : byte;
  battery_voltage : Bytes16;
  fault_code : Bytes16
}.
End SystemStatus.

Module MotorDriverStatus.
Record t := { current : Bytes16; rpm : Bytes16; temperature : byte }.
End MotorDriverStatus.

Record ScoutStatusMessage := {
  updated_msg_type : ScoutStatusMsgType;
  motion_status_msg : MotionStatus.t;
  light_status_msg : LightStatus.t;
  system_status_msg : SystemStatus.t;
  motor_driver_status_msg : MotorDriverStatus.t
}.

(** A received CAN frame: identifier, length code and the eight data bytes. *)
Record can_frame := {
  can_id : Z;
  can_dlc : Z;
  data : list byte
}.

(** [rx_frame->data[i]]. *)
Definition data_at (f : can_frame) (i : nat) : byte := default x00 (data f !! i).

(** ** Commands *)

(** [ScoutMotionCmd::FaultClearFlag] and [ScoutLightCmd::LightMode] are
    enumerations the code converts with [static_cast<uint8_t>]; a value is
    kept as the byte it converts to. *)
Definition FaultClearFlag := byte.
Definition LightMode := byte.

(** Modelled from the spec: [ScoutMotionCmd] (its header is not among the
    sources) stores each velocity as a percentage-scaled signed integer. *)
Module ScoutMotionCmd.
Record t := {
  linear_velocity : Z;
  angular_velocity : Z;
  fault_clear_flag : FaultClearFlag
}.
End ScoutMotionCmd.

Module ScoutLightCmd.
Record t := {
  front_mode : LightMode;
  front_custom_value : byte;
  rear_mode : LightMode;
  rear_custom_value : byte
}.
End ScoutLightCmd.

(** The command messages the control loop fills in ([m_msg], [l_msg]). A
    field the code leaves unassigned on some path is [None] there. *)
Module MotionControl.
Record t := {
  id : option Z;
  control_mode : option byte;
  fault_clear_flag : byte;
  linear_velocity_cmd : Z;
  angular_velocity_cmd : Z;
  reserved0 : byte;
  reserved1 : byte;
  count : Z;
  checksum : option byte
}.
End MotionControl.

Module LightControl.
Record t := {
  id : option Z;
  light_ctrl_enable : byte;
  front_light_mode : byte;
  front_light_custom : byte;
  rear_light_mode : byte;
  rear_light_custom : byte;
  reserved0 : byte;
  count : Z;
  checksum : option byte
}.
End LightControl.

(** ** What the sources leave to their collaborators *)

(** The wire codec: message identifiers, protocol constants, the checksum
    and the frame decoder, and the byte view ([msg.raw], [len]) of a
    command under which its checksum is taken. *)
Class ScoutProtocol := {
  CAN_MSG_MOTION_CONTROL_CMD_ID : Z;
  CAN_MSG_LIGHT_CONTROL_CMD_ID : Z;
  FRAME_MOTION_CONTROL_CMD_ID : Z;
  FRAME_LIGHT_CONTROL_CMD_ID : Z;
  CTRL_MODE_CMD_CAN : byte;
  CTRL_MODE_CMD_UART : byte;
  LIGHT_ENABLE_CTRL : byte;
  LIGHT_DISABLE_CTRL : byte;
  LIGHT_MODE_CONST_OFF : byte;
  Agilex_CANMsgChecksum : Z -> list byte -> Z -> byte;
  UnpackScoutCANFrameToMsg : can_frame -> ScoutStatusMessage;
  motion_raw : MotionControl.t -> list byte;
  motion_len : Z;
  light_raw : LightControl.t -> list byte;
  light_len : Z
}.

(** The velocity limits, constants of [ScoutMotionCmd]. *)
Class ScoutLimits := {
  min_linear_velocity : float;
  max_linear_velocity : float;
  min_angular_velocity : float;
  max_angular_velocity : float
}.

(** Each maximum is positive and finite, each minimum at most its
    maximum. *)
Definition limits_in_order `{limits : ScoutLimits} : Prop :=
  (0 <? max_linear_velocity)%float = true
  /\ (max_linear_velocity <? infinity)%float = true
  /\ (min_linear_velocity <=? max_linear_velocity)%float = true
  /\ (0 <? max_angular_velocity)%float = true
  /\ (max_angular_velocity <? infinity)%float = true
  /\ (min_angular_velocity <=? max_angular_velocity)%float = true.

(** The machine: whether opening a serial device at a baud rate succeeds. *)
Class SerialPorts := {
  port_opens : string -> Z -> bool
}.

(** ** The status reducer *)

Definition set_motor (i : nat) (m : MotorState) (state : ScoutState) : ScoutState :=
  {| base_state := base_state state;
     control_mode := control_mode state;
     fault_code := fault_code state;
     battery_voltage := battery_voltage state;
     motor_states := <[i := m]> (motor_states state);
     light_control_enabled := light_control_enabled state;
     front_light_state := front_light_state state;
     rear_light_state := rear_light_state state;
     linear_velocity := linear_velocity state;
     angular_velocity := angular_velocity state |}.

(** The three assignments to [state.motor_states[i]]. *)
Definition motor_of_status (msg : MotorDriverStatus.t) : MotorState :=
  {| current := (double_of_Z (assemble16 (MotorDriverStatus.current msg)) / 10)%float;
     rpm := static_cast_int16 (assemble16 (MotorDriverStatus.rpm msg));
     temperature := MotorDriverStatus.temperature msg |}.

Definition UpdateScoutState `{proto : ScoutProtocol}
    (status_msg : ScoutStatusMessage) (state : ScoutState) : ScoutState :=
  match updated_msg_type status_msg with
  | ScoutMotionStatusMsg =>
      let msg := motion_status_msg status_msg in
      {| base_state := base_state state;
         control_mode := control_mode state;
         fault_code := fault_code state;
         battery_voltage := battery_voltage state;
         motor_states := motor_states state;
         light_control_enabled := light_control_enabled state;
         front_light_state := front_light_state state;
         rear_light_state := rear_light_state state;
         linear_velocity :=
           (double_of_Z (static_cast_int16 (assemble16 (MotionStatus.linear_velocity msg)))
            / 1000)%float;
         angular_velocity :=
           (double_of_Z (static_cast_int16 (assemble16 (MotionStatus.angular_velocity msg)))
            / 1000)%float |}
  | ScoutLightStatusMsg =>
      let msg := light_status_msg status_msg in
      {| base_state := base_state state;
         control_mode := control_mode state;
         fault_code := fault_code state;
         battery_voltage := battery_voltage state;
         motor_states := motor_states state;
         light_control_enabled :=
           if Byte.eqb (LightStatus.light_ctrl_enable msg) LIGHT_DISABLE_CTRL
           then false else true;
         front_light_state :=
           {| mode := LightStatus.front_light_mode msg;
              custom_value := LightStatus.front_light_custom msg |};
         rear_light_state :=
           {| mode := LightStatus.rear_light_mode msg;
              custom_value := LightStatus.rear_light_custom msg |};
         linear_velocity := linear_velocity state;
         angular_velocity := angular_velocity state |}
  | ScoutSystemStatusMsg =>
      let msg := system_status_msg status_msg in
      {| base_state := SystemStatus.base_state msg;
         control_mode := SystemStatus.control_mode msg;
         fault_code := static_cast_uint16 (assemble16 (SystemStatus.fault_code msg));
         battery_voltage :=
           (double_of_Z (assemble16 (SystemStatus.battery_voltage msg)) / 10)%float;
         motor_states := motor_states state;
         light_control_enabled := light_control_enabled state;
         front_light_state := front_light_state state;
         rear_light_state := rear_light_state state;
         linear_velocity := linear_velocity state;
         angular_velocity := angular_velocity state |}
  | ScoutMotor1DriverStatusMsg =>
      set_motor 0 (motor_of_status (motor_driver_status_msg status_msg)) state
  | ScoutMotor2DriverStatusMsg =>
      set_motor 1 (motor_of_status (motor_driver_status_msg status_msg)) state
  | ScoutMotor3DriverStatusMsg =>
      set_motor 2 (motor_of_status (motor_driver_status_msg status_msg)) state
  | ScoutMotor4DriverStatusMsg =>
      set_motor 3 (motor_of_status (motor_driver_status_msg status_msg)) state
  | ScoutStatusOther _ => state
  end.

(** ** The driver object *)

(** The transports, as far as the driver can tell them apart: a CAN
    interface by its name, a serial port by its name, baud rate and
    whether it is open. *)
Record ASyncCAN := { can_name : string }.

Record ASyncSerial := {
  port_name : string;
  port_baud : Z;
  is_open : bool
}.

(** What the driver does to the world, in order: calls on the two
    transports, the start of the command thread, lines on [std::cerr]. A
    frame or buffer handed to a transport is recorded as the message the
    codec packs into it. *)
Inductive Action :=
| CanCreate (name : string)
| CanSetReceiveCallback
| CanSendMotion (m : MotionControl.t)
| CanSendLight (l : LightControl.t)
| SerialCreate (name : string) (baud : Z)
| SerialOpen
| SerialClose
| SerialSetReceiveCallback
| ParserSetReceiveCallback
| SerialSendMotion (m : MotionControl.t)
| SerialSendLight (l : LightControl.t)
| ThreadStart (period_ms : Z)
| CerrSerialConnectFailed
| CerrChecksumMismatch (id : Z).

(** The fields of [ScoutBase]; a [shared_ptr] is [None] while null. *)
Record ScoutBase := {
  can_if_ : option ASyncCAN;
  serial_if_ : option ASyncSerial;
  can_connected_ : bool;
  serial_connected_ : bool;
  cmd_thread_started_ : bool;
  cmd_thread_period_ms_ : Z;
  current_motion_cmd_ : ScoutMotionCmd.t;
  current_light_cmd_ : ScoutLightCmd.t;
  light_ctrl_enabled_ : bool;
  light_ctrl_requested_ : bool;
  scout_state_ : ScoutState
}.

Definition with_can (c : option ASyncCAN) (connected : bool) (b : ScoutBase) : ScoutBase :=
  {| can_if_ := c; serial_if_ := serial_if_ b;
     can_connected_ := connected; serial_connected_ := serial_connected_ b;
     cmd_thread_started_ := cmd_thread_started_ b;
     cmd_thread_period_ms_ := cmd_thread_period_ms_ b;
     current_motion_cmd_ := current_motion_cmd_ b;
     current_light_cmd_ := current_light_cmd_ b;
     light_ctrl_enabled_ := light_ctrl_enabled_ b;
     light_ctrl_requested_ := light_ctrl_requested_ b;
     scout_state_ := scout_state_ b |}.

Definition with_serial_if (p : option ASyncSerial) (b : ScoutBase) : ScoutBase :=
  {| can_if_ := can_if_ b; serial_if_ := p;
     can_connected_ := can_connected_ b; serial_connected_ := serial_connected_ b;
     cmd_thread_started_ := cmd_thread_started_ b;
     cmd_thread_period_ms_ := cmd_thread_period_ms_ b;
     current_motion_cmd_ := current_motion_cmd_ b;
     current_light_cmd_ := current_light_cmd_ b;
     light_ctrl_enabled_ := light_ctrl_enabled_ b;
     light_ctrl_requested_ := light_ctrl_requested_ b;
     scout_state_ := scout_state_ b |}.

Definition with_serial_connected (connected : bool) (b : ScoutBase) : ScoutBase :=
  {| can_if_ := can_if_ b; serial_if_ := serial_if_ b;
     can_connected_ := can_connected_ b; serial_connected_ := connected;
     cmd_thread_started_ := cmd_thread_started_ b;
     cmd_thread_period_ms_ := cmd_thread_period_ms_ b;
     current_motion_cmd_ := current_motion_cmd_ b;
     current_light_cmd_ := current_light_cmd_ b;
     light_ctrl_enabled_ := light_ctrl_enabled_ b;
     light_ctrl_requested_ := light_ctrl_requested_ b;
     scout_state_ := scout_state_ b |}.

Definition with_cmd_thread_started (started : bool) (b : ScoutBase) : ScoutBase :=
  {| can_if_ := can_if_ b; serial_if_ := serial_if_ b;
     can_connected_ := can_connected_ b; serial_connected_ := serial_connected_ b;
     cmd_thread_started_ := started;
     cmd_thread_period_ms_ := cmd_thread_period_ms_ b;
     current_motion_cmd_ := current_motion_cmd_ b;
     current_light_cmd_ := current_light_cmd_ b;
     light_ctrl_enabled_ := light_ctrl_enabled_ b;
     light_ctrl_requested_ := light_ctrl_requested_ b;
     scout_state_ := scout_state_ b |}.

Definition with_motion_cmd (c : ScoutMotionCmd.t) (b : ScoutBase) : ScoutBase :=
  {| can_if_ := can_if_ b; serial_if_ := serial_if_ b;
     can_connected_ := can_connected_ b; serial_connected_ := serial_connected_ b;
     cmd_thread_started_ := cmd_thread_started_ b;
     cmd_thread_period_ms_ := cmd_thread_period_ms_ b;
     current_motion_cmd_ := c;
     current_light_cmd_ := current_light_cmd_ b;
     light_ctrl_enabled_ := light_ctrl_enabled_ b;
     light_ctrl_requested_ := light_ctrl_requested_ b;
     scout_state_ := scout_state_ b |}.

Definition with_light (c : ScoutLightCmd.t) (enabled requested : bool) (b : ScoutBase) : ScoutBase :=
  {| can_if_ := can_if_ b; serial_if_ := serial_if_ b;
     can_connected_ := can_connected_ b; serial_connected_ := serial_connected_ b;
     cmd_thread_started_ := cmd_thread_started_ b;
     cmd_thread_period_ms_ := cmd_thread_period_ms_ b;
     current_motion_cmd_ := current_motion_cmd_ b;
     current_light_cmd_ := c;
     light_ctrl_enabled_ := enabled;
     light_ctrl_requested_ := requested;
     scout_state_ := scout_state_ b |}.

Definition with_scout_state (st : ScoutState) (b : ScoutBase) : ScoutBase :=
  {| can_if_ := can_if_ b; serial_if_ := serial_if_ b;
     can_connected_ := can_connected_ b; serial_connected_ := serial_connected_ b;
     cmd_thread_started_ := cmd_thread_started_ b;
     cmd_thread_period_ms_ := cmd_thread_period_ms_ b;
     current_motion_cmd_ := current_motion_cmd_ b;
     current_light_cmd_ := current_light_cmd_ b;
     light_ctrl_enabled_ := light_ctrl_enabled_ b;
     light_ctrl_requested_ := light_ctrl_requested_ b;
     scout_state_ := st |}.

(** ** Member functions as computations *)

(** A member function reads and writes the object, logs its actions, and
    has no result at all ([None]) where the C++ behaviour is undefined. *)
Definition M (A : Type) : Type := ScoutBase -> option (A * ScoutBase * list Action).

#[global] Instance M_ret : MRet M := fun A a b => Some (a, b, []).

#[global] Instance M_bind : MBind M := fun A B k m b =>
  match m b with
  | Some (a, b1, t1) =>
      match k a b1 with
      | Some (r, b2, t2) => Some (r, b2, t1 ++ t2)
      | None => None
      end
  | None => None
  end.

Definition this : M ScoutBase := fun b => Some (b, b, []).
Definition update (f : ScoutBase -> ScoutBase) : M unit := fun b => Some (tt, f b, []).
Definition act (a : Action) : M unit := fun b => Some (tt, b, [a]).
Definition undefined {A : Type} : M A := fun _ => None.

(** The object after a computation. *)
Definition object_after {A : Type} (m : M A) (b : ScoutBase) : option ScoutBase :=
  match m b with Some (_, b', _) => Some b' | None => None end.


(** A call through [can_if_] or [serial_if_]: undefined on a null pointer. *)
Definition via_can {A : Type} (k : ASyncCAN -> M A) : M A :=
  b ← this; match can_if_ b with Some c => k c | None => undefined end.

Definition via_serial {A : Type} (k : ASyncSerial -> M A) : M A :=
  b ← this; match serial_if_ b with Some p => k p | None => undefined end.

Definition set_port_open (o : bool) (p : ASyncSerial) : ASyncSerial :=
  {| port_name := port_name p; port_baud := port_baud p; is_open := o |}.

(** [serial_if_->open()] and [serial_if_->close()]. *)
Definition serial_open `{ports : SerialPorts} : M unit :=
  via_serial (fun p =>
    act SerialOpen ;;
    update (with_serial_if (Some (set_port_open (port_opens (port_name p) (port_baud p)) p)))).

Definition serial_close : M unit :=
  via_serial (fun p =>
    act SerialClose ;;
    update (with_serial_if (Some (set_port_open false p)))).

Section Driver.
Context `{proto : ScoutProtocol} `{limits : ScoutLimits} `{ports : SerialPorts}.

(** *** Connection *)

Definition ConfigureCANBus (can_if_name : string) : M unit :=
  act (CanCreate can_if_name) ;;
  update (fun b => with_can (Some {| can_name := can_if_name |}) (can_connected_ b) b) ;;
  via_can (fun _ => act CanSetReceiveCallback) ;;
  update (fun b => with_can (can_if_ b) true b).

Definition ConfigureSerial (uart_name : string) (baud_rate : Z) : M unit :=
  act (SerialCreate uart_name baud_rate) ;;
  update (with_serial_if
            (Some {| port_name := uart_name; port_baud := baud_rate; is_open := false |})) ;;
  serial_open ;;
  via_serial (fun p => if is_open p then update (with_serial_connected true) else mret tt) ;;
  via_serial (fun _ => act SerialSetReceiveCallback) ;;
  act ParserSetReceiveCallback.

Definition Connect (dev_name : string) (baud_rate : Z) : M unit :=
  if baud_rate =? 0 then ConfigureCANBus dev_name
  else
    ConfigureSerial dev_name baud_rate ;;
    b ← this;
    if negb (serial_connected_ b) then act CerrSerialConnectFailed else mret tt.

Definition Disconnect : M unit :=
  b ← this;
  if serial_connected_ b
  then via_serial (fun p => if is_open p then serial_close else mret tt)
  else mret tt.

(** *** The command thread *)

Definition StartCmdThread : M unit :=
  b ← this;
  act (ThreadStart (cmd_thread_period_ms_ b)) ;;
  update (with_cmd_thread_started true).

Definition SendMotionCmd (count : Z) : M unit :=
  b ← this;
  let id :=
    if can_connected_ b then Some CAN_MSG_MOTION_CONTROL_CMD_ID
    else if serial_connected_ b then Some FRAME_MOTION_CONTROL_CMD_ID
    else None in
  let control_mode :=
    if can_connected_ b then Some CTRL_MODE_CMD_CAN
    else if serial_connected_ b then Some CTRL_MODE_CMD_UART
    else None in
  let cmd := current_motion_cmd_ b in
  let m_msg (checksum : option byte) :=
    {| MotionControl.id := id;
       MotionControl.control_mode := control_mode;
       MotionControl.fault_clear_flag := ScoutMotionCmd.fault_clear_flag cmd;
       MotionControl.linear_velocity_cmd := ScoutMotionCmd.linear_velocity cmd;
       MotionControl.angular_velocity_cmd := ScoutMotionCmd.angular_velocity cmd;
       MotionControl.reserved0 := x00;
       MotionControl.reserved1 := x00;
       MotionControl.count := count;
       MotionControl.checksum := checksum |} in
  if can_connected_ b
  then
    let checksum :=
      Agilex_CANMsgChecksum CAN_MSG_MOTION_CONTROL_CMD_ID (motion_raw (m_msg None)) motion_len in
    via_can (fun _ => act (CanSendMotion (m_msg (Some checksum))))
  else
    via_serial (fun _ => act (SerialSendMotion (m_msg None))).

Definition SendLightCmd (count : Z) : M unit :=
  b ← this;
  let id :=
    if can_connected_ b then Some CAN_MSG_LIGHT_CONTROL_CMD_ID
    else if serial_connected_ b then Some FRAME_LIGHT_CONTROL_CMD_ID
    else None in
  let cmd := current_light_cmd_ b in
  let l_msg (checksum : option byte) :=
    if light_ctrl_enabled_ b
    then
      {| LightControl.id := id;
         LightControl.light_ctrl_enable := LIGHT_ENABLE_CTRL;
         LightControl.front_light_mode := ScoutLightCmd.front_mode cmd;
         LightControl.front_light_custom := ScoutLightCmd.front_custom_value cmd;
         LightControl.rear_light_mode := ScoutLightCmd.rear_mode cmd;
         LightControl.rear_light_custom := ScoutLightCmd.rear_custom_value cmd;
         LightControl.reserved0 := x00;
         LightControl.count := count;
         LightControl.checksum := checksum |}
    else
      {| LightControl.id := id;
         LightControl.light_ctrl_enable := LIGHT_DISABLE_CTRL;
         LightControl.front_light_mode := LIGHT_MODE_CONST_OFF;
         LightControl.front_light_custom := x00;
         LightControl.rear_light_mode := LIGHT_MODE_CONST_OFF;
         LightControl.rear_light_custom := x00;
         LightControl.reserved0 := x00;
         LightControl.count := count;
         LightControl.checksum := checksum |} in
  update (with_light cmd (light_ctrl_enabled_ b) false) ;;
  if can_connected_ b
  then
    let checksum :=
      Agilex_CANMsgChecksum CAN_MSG_LIGHT_CONTROL_CMD_ID (light_raw (l_msg None)) light_len in
    via_can (fun _ => act (CanSendLight (l_msg (Some checksum))))
  else
    via_serial (fun _ => act (SerialSendLight (l_msg None))).

(** The two [uint8_t] counters local to [ControlLoop]. *)
Record LoopCounters := {
  cmd_count : Z;
  light_cmd_count : Z
}.

(** [c++] on a [uint8_t]. *)
Definition incr_uint8 (c : Z) : Z := (c + 1) mod 256.

(** One pass through the body of [while (true)] in [ControlLoop]; the
    stopwatch only paces the passes. *)
Definition ControlLoop_body (c : LoopCounters) : M LoopCounters :=
  SendMotionCmd (cmd_count c) ;;
  let c := {| cmd_count := incr_uint8 (cmd_count c); light_cmd_count := light_cmd_count c |} in
  b ← this;
  if light_ctrl_requested_ b
  then
    SendLightCmd (light_cmd_count c) ;;
    mret {| cmd_count := cmd_count c; light_cmd_count := incr_uint8 (light_cmd_count c) |}
  else mret c.

(** The command thread between two of its actions: about to send
    the motion command, about to test [light_ctrl_requested_] (read
    outside the lock), or about to send the light command, with its two
    counters. *)
Inductive LoopPoint :=
| AtSendMotion
| AtTestRequested
| AtSendLight.

Record LoopThread := {
  at_point : LoopPoint;
  counters : LoopCounters
}.

(** One action of the command thread. Calls of other threads may come
    between any two. *)
Definition ControlLoop_step (l : LoopThread) : M LoopThread :=
  let c := counters l in
  match at_point l with
  | AtSendMotion =>
      SendMotionCmd (cmd_count c) ;;
      mret {| at_point := AtTestRequested;
              counters := {| cmd_count := incr_uint8 (cmd_count c);
                             light_cmd_count := light_cmd_count c |} |}
  | AtTestRequested =>
      b ← this;
      mret {| at_point := if light_ctrl_requested_ b then AtSendLight else AtSendMotion;
              counters := c |}
  | AtSendLight =>
      SendLightCmd (light_cmd_count c) ;;
      mret {| at_point := AtSendMotion;
              counters := {| cmd_count := cmd_count c;
                             light_cmd_count := incr_uint8 (light_cmd_count c) |} |}
  end.

(** The first [n] passes of the loop, which has no exit of its own. *)
Fixpoint ControlLoop_passes (n : nat) (c : LoopCounters) : M LoopCounters :=
  match n with
  | O => mret c
  | S n => c' ← ControlLoop_body c; ControlLoop_passes n c'
  end.

(** *** Setters *)

(** The two saturating comparisons on one velocity ([x > hi] is [hi < x]). *)
Definition clamp (lo hi x : float) : float :=
  let x := if (x <? lo)%float then lo else x in
  if (hi <? x)%float then hi else x.

(** The percentage a velocity is stored as, before its conversion to an
    integer: [x / max * 100.0] on the clamped velocity. *)
Definition percent (lo hi max x : float) : float := (clamp lo hi x / max * 100)%float.

(** The conversion of a [double] to [uint8_t], undefined out of range. *)
Definition to_uint8 (x : float) : M Z :=
  match static_cast_uint8 x with Some n => mret n | None => undefined end.

Definition SetMotionCommand (linear_vel angular_vel : float)
    (fault_clr_flag : FaultClearFlag) : M unit :=
  b ← this;
  (if negb (cmd_thread_started_ b) then StartCmdThread else mret tt) ;;
  let linear_vel := clamp min_linear_velocity max_linear_velocity linear_vel in
  let angular_vel := clamp min_angular_velocity max_angular_velocity angular_vel in
  l ← to_uint8 (linear_vel / max_linear_velocity * 100)%float;
  a ← to_uint8 (angular_vel / max_angular_velocity * 100)%float;
  update (with_motion_cmd
            {| ScoutMotionCmd.linear_velocity := static_cast_int8 l;
               ScoutMotionCmd.angular_velocity := static_cast_int8 a;
               ScoutMotionCmd.fault_clear_flag := fault_clr_flag |}).

Definition SetLightCommand (cmd : ScoutLightCmd.t) : M unit :=
  update (with_light cmd true true).

Definition DisableLightCmdControl : M unit :=
  update (fun b => with_light (current_light_cmd_ b) false true b).

(** *** The receive path *)

Definition NewStatusMsgReceivedCallback (msg : ScoutStatusMessage) : M unit :=
  update (fun b => with_scout_state (UpdateScoutState msg (scout_state_ b)) b).

(** [!rx_frame->data[7]]: the negation applies to the byte alone, and
    gives 1 for a zero byte and 0 for any other. *)
Definition not_byte (x : byte) : Z := Z.b2z (Byte.eqb x x00).

Definition ParseCANFrame (rx_frame : can_frame) : M unit :=
  if not_byte (data_at rx_frame 7)
       =? Z_of_byte
            (Agilex_CANMsgChecksum (can_id rx_frame) (data rx_frame) (can_dlc rx_frame))
  then act (CerrChecksumMismatch (can_id rx_frame))
  else NewStatusMsgReceivedCallback (UnpackScoutCANFrameToMsg rx_frame).

(** The checksum the frame carries, and the one recomputed over it. *)
Definition carried_checksum (f : can_frame) : byte := data_at f 7.
Definition computed_checksum (f : can_frame) : byte :=
  Agilex_CANMsgChecksum (can_id f) (data f) (can_dlc f).

Definition GetScoutState : M ScoutState :=
  b ← this; mret (scout_state_ b).

End Driver.

(** ** Interleavings *)

(** What can happen to a running driver, one step each: a caller
    completes a setter, the CAN transport delivers a frame, or the command
    thread takes one action of its loop. A call and a send are taken whole
    here; what can come between the two halves of a send, or between the
    start of the thread and the store in [SetMotionCommand], is taken up
    with [FineCall] further down. *)
Inductive Call :=
| CallSetMotionCommand (linear_vel angular_vel : float) (fault_clr_flag : FaultClearFlag)
| CallSetLightCommand (cmd : ScoutLightCmd.t)
| CallDisableLightCmdControl
| CallParseCANFrame (rx_frame : can_frame)
| LoopStep.

(** A step taken: the call, where the command thread stood before it,
    and what the step logged. *)
Record Taken := {
  call : Call;
  thread_before : LoopThread;
  log : list Action
}.

Section Schedules.
Context `{proto : ScoutProtocol} `{limits : ScoutLimits}.

Definition step (e : Call) (l : LoopThread) : M LoopThread :=
  match e with
  | CallSetMotionCommand v w f => SetMotionCommand v w f ;; mret l
  | CallSetLightCommand cmd => SetLightCommand cmd ;; mret l
  | CallDisableLightCmdControl => DisableLightCmdControl ;; mret l
  | CallParseCANFrame f => ParseCANFrame f ;; mret l
  | LoopStep => ControlLoop_step l
  end.

(** A schedule run from a state of the command thread and the object:
    the steps taken, oldest first, and the state reached; nothing when a
    step is undefined. *)
Fixpoint run (es : list Call) (l : LoopThread) (b : ScoutBase)
    : option (list Taken * LoopThread * ScoutBase) :=
  match es with
  | [] => Some ([], l, b)
  | e :: es =>
      match step e l b with
      | Some (l', b', t) =>
          match run es l' b' with
          | Some (h, l'', b'') =>
              Some ({| call := e; thread_before := l; log := t |} :: h, l'', b'')
          | None => None
          end
      | None => None
      end
  end.

(** The conversions of [SetMotionCommand] are defined for the arguments. *)
Definition conversions_defined (linear_vel angular_vel : float) : Prop :=
  is_Some (static_cast_uint8
             (clamp min_linear_velocity max_linear_velocity linear_vel
              / max_linear_velocity * 100)%float)
  /\ is_Some (static_cast_uint8
                (clamp min_angular_velocity max_angular_velocity angular_vel
                 / max_angular_velocity * 100)%float).

Definition call_defined (e : Call) : Prop :=
  match e with
  | CallSetMotionCommand v w _ => conversions_defined v w
  | _ => True
  end.

End Schedules.

(** The [count] fields of the motion frames in a log, oldest first, and
    the number of light frames in it. *)
Definition motion_count_of (a : Action) : option Z :=
  match a with
  | CanSendMotion m | SerialSendMotion m => Some (MotionControl.count m)
  | _ => None
  end.

Definition motion_counts (t : list Action) : list Z := omap motion_count_of t.

Definition is_light_send (a : Action) : bool :=
  match a with
  | CanSendLight _ | SerialSendLight _ => true
  | _ => false
  end.

Definition light_sends (t : list Action) : nat :=
  length (filter (fun a => is_light_send a = true) t).

(** The step is the command thread's, taken where a pass of the loop
    begins, at its test of the flag, or at its light send. *)
Definition loop_step_at (p : LoopPoint) (e : Call) (l : LoopThread) : bool :=
  match e, at_point l, p with
  | LoopStep, AtSendMotion, AtSendMotion
  | LoopStep, AtTestRequested, AtTestRequested
  | LoopStep, AtSendLight, AtSendLight => true
  | _, _, _ => false
  end.

Definition begins_pass (k : Taken) : bool := loop_step_at AtSendMotion (call k) (thread_before k).

Definition is_setter_call (e : Call) : bool :=
  match e with
  | CallSetLightCommand _ | CallDisableLightCmdControl => true
  | _ => false
  end.

(** The number of passes of the loop begun in a history. *)
Fixpoint passes (h : list Taken) : nat :=
  match h with
  | [] => O
  | k :: h => if begins_pass k then S (passes h) else passes h
  end.

(** The counts of [n] successive motion frames from the count [c], each
    the [uint8_t] increment of the one before. *)
Fixpoint successive_counts (c : Z) (n : nat) : list Z :=
  match n with
  | O => []
  | S n => c :: successive_counts (incr_uint8 c) n
  end.

(** Everything logged in a history, oldest first. *)
Definition logged (h : list Taken) : list Action := concat (map log h).

(** Whether a setter call has occurred since the last light frame was
    sent, at the end of a history ([owed0]: whether one was owed at its
    start). *)
Fixpoint light_owed (owed0 : bool) (h : list Taken) : bool :=
  match h with
  | [] => owed0
  | k :: h =>
      light_owed (if is_setter_call (call k) then true
                  else if (0 <? light_sends (log k))%nat then false
                  else owed0) h
  end.

(** The command thread stands at its light send only with the flag
    raised: it got there by finding the flag raised, and nothing but its
    own light send lowers the flag. *)
Definition light_send_pending (l : LoopThread) (b : ScoutBase) : Prop :=
  at_point l = AtSendLight -> light_ctrl_requested_ b = true.

(** A transport the sends can go through: the CAN handle when the CAN
    flag is set, the serial handle otherwise. *)
Definition transport_ready (b : ScoutBase) : Prop :=
  if can_connected_ b then is_Some (can_if_ b) else is_Some (serial_if_ b).

(** The actions of the command thread among the calls of a schedule. *)
Definition is_thread_action (e : Call) : bool :=
  match e with LoopStep => true | _ => false end.

Definition thread_actions (es : list Call) : nat := length (List.filter is_thread_action es).

(** A pass takes the command thread two actions, the motion send and the
    test, and a third when it sends a light frame. [test_to_come] is 1
    while the thread has sent its motion frame and not yet tested the
    flag; [left_in_pass] is the most actions the pass it is in can still
    take. *)
Definition test_to_come (l : LoopThread) : nat :=
  match at_point l with AtTestRequested => 1 | _ => 0 end.

Definition left_in_pass (l : LoopThread) : nat :=
  match at_point l with
  | AtSendMotion => 0
  | AtTestRequested => 2
  | AtSendLight => 1
  end.

(** ** Fields of the state and the message kind that owns each *)

Inductive StateField :=
| F_linear_velocity
| F_angular_velocity
| F_light_control_enabled
| F_front_light_state
| F_rear_light_state
| F_control_mode
| F_base_state
| F_battery_voltage
| F_fault_code
| F_motor_state (slot : nat).

Definition motor_slot (k : ScoutStatusMsgType) : option nat :=
  match k with
  | ScoutMotor1DriverStatusMsg => Some 0%nat
  | ScoutMotor2DriverStatusMsg => Some 1%nat
  | ScoutMotor3DriverStatusMsg => Some 2%nat
  | ScoutMotor4DriverStatusMsg => Some 3%nat
  | _ => None
  end.

Definition owns (k : ScoutStatusMsgType) (f : StateField) : bool :=
  match f with
  | F_linear_velocity | F_angular_velocity =>
      match k with ScoutMotionStatusMsg => true | _ => false end
  | F_light_control_enabled | F_front_light_state | F_rear_light_state =>
      match k with ScoutLightStatusMsg => true | _ => false end
  | F_control_mode | F_base_state | F_battery_voltage | F_fault_code =>
      match k with ScoutSystemStatusMsg => true | _ => false end
  | F_motor_state i =>
      match motor_slot k with Some j => Nat.eqb i j | None => false end
  end.

(** The field [f] has the same value in both states. *)
Definition same_field (f : StateField) (s s' : ScoutState) : Prop :=
  match f with
  | F_linear_velocity => linear_velocity s' = linear_velocity s
  | F_angular_velocity => angular_velocity s' = angular_velocity s
  | F_light_control_enabled => light_control_enabled s' = light_control_enabled s
  | F_front_light_state => front_light_state s' = front_light_state s
  | F_rear_light_state => rear_light_state s' = rear_light_state s
  | F_control_mode => control_mode s' = control_mode s
  | F_base_state => base_state s' = base_state s
  | F_battery_voltage => battery_voltage s' = battery_voltage s
  | F_fault_code => fault_code s' = fault_code s
  | F_motor_state i => motor_states s' !! i = motor_states s !! i
  end.

(** Whether the reducer has a case for the kind. *)
Definition handled (k : ScoutStatusMsgType) : bool :=
  match k with ScoutStatusOther _ => false | _ => true end.

(** ** Concrete collaborators

    One choice of everything the driver takes from outside, to run the
    functions on: message identifiers and protocol constants, a byte-sum
    checksum over the identifier, the length and the payload before its
    last byte, a decoder for motion and system status frames, and a
    symmetric velocity range. *)

Definition byte_of_Z (z : Z) : byte := default x00 (Byte.of_N (Z.to_N (z mod 256))).

Definition sum_bytes (l : list byte) : Z := foldr (fun b acc => Z_of_byte b + acc) 0 l.

Definition byte_sum_checksum (id : Z) (payload : list byte) (dlc : Z) : byte :=
  byte_of_Z (id mod 256 + id / 256 + dlc + sum_bytes (take (Z.to_nat (dlc - 1)) payload)).

Definition bytes_at (f : can_frame) (hi lo : nat) : Bytes16 :=
  {| high_byte := data_at f hi; low_byte := data_at f lo |}.

Definition decode_status (f : can_frame) : ScoutStatusMessage :=
  {| updated_msg_type :=
       if can_id f =? 305 then ScoutMotionStatusMsg
       else if can_id f =? 337 then ScoutSystemStatusMsg
       else ScoutStatusOther (can_id f);
     motion_status_msg :=
       {| MotionStatus.linear_velocity := bytes_at f 0 1;
          MotionStatus.angular_velocity := bytes_at f 2 3 |};
     light_status_msg :=
       {| LightStatus.light_ctrl_enable := data_at f 0;
          LightStatus.front_light_mode := data_at f 1;
          LightStatus.front_light_custom := data_at f 2;
          LightStatus.rear_light_mode := data_at f 3;
          LightStatus.rear_light_custom := data_at f 4 |};
     system_status_msg :=
       {| SystemStatus.base_state := data_at f 0;
          SystemStatus.control_mode := data_at f 1;
          SystemStatus.battery_voltage := bytes_at f 2 3;
          SystemStatus.fault_code := bytes_at f 4 5 |};
     motor_driver_status_msg :=
       {| MotorDriverStatus.current := bytes_at f 0 1;
          MotorDriverStatus.rpm := bytes_at f 2 3;
          MotorDriverStatus.temperature := data_at f 4 |} |}.

Definition scout_protocol : ScoutProtocol :=
  {| CAN_MSG_MOTION_CONTROL_CMD_ID := 304;
     CAN_MSG_LIGHT_CONTROL_CMD_ID := 320;
     FRAME_MOTION_CONTROL_CMD_ID := 1;
     FRAME_LIGHT_CONTROL_CMD_ID := 2;
     CTRL_MODE_CMD_CAN := x01;
     CTRL_MODE_CMD_UART := x02;
     LIGHT_ENABLE_CTRL := x01;
     LIGHT_DISABLE_CTRL := x00;
     LIGHT_MODE_CONST_OFF := x00;
     Agilex_CANMsgChecksum := byte_sum_checksum;
     UnpackScoutCANFrameToMsg := decode_status;
     motion_raw := fun m =>
       [default x00 (MotionControl.control_mode m); MotionControl.fault_clear_flag m;
        byte_of_Z (MotionControl.linear_velocity_cmd m);
        byte_of_Z (MotionControl.angular_velocity_cmd m);
        MotionControl.reserved0 m; MotionControl.reserved1 m;
        byte_of_Z (MotionControl.count m); default x00 (MotionControl.checksum m)];
     motion_len := 8;
     light_raw := fun l =>
       [LightControl.light_ctrl_enable l; LightControl.front_light_mode l;
        LightControl.front_light_custom l; LightControl.rear_light_mode l;
        LightControl.rear_light_custom l; LightControl.reserved0 l;
        byte_of_Z (LightControl.count l); default x00 (LightControl.checksum l)];
     light_len := 8 |}.

Definition scout_limits : ScoutLimits :=
  {| min_linear_velocity := (-1.5)%float;
     max_linear_velocity := 1.5%float;
     min_angular_velocity := (-0.5)%float;
     max_angular_velocity := 0.5%float |}.

Definition every_port_opens : SerialPorts := {| port_opens := fun _ _ => true |}.
Definition no_port_opens : SerialPorts := {| port_opens := fun _ _ => false |}.

(** A driver object as constructed: no transport, nothing requested,
    the state all zero. *)
Definition fresh_ScoutBase : ScoutBase :=
  {| can_if_ := None; serial_if_ := None;
     can_connected_ := false; serial_connected_ := false;
     cmd_thread_started_ := false;
     cmd_thread_period_ms_ := 10;
     current_motion_cmd_ :=
       {| ScoutMotionCmd.linear_velocity := 0; ScoutMotionCmd.angular_velocity := 0;
          ScoutMotionCmd.fault_clear_flag := x00 |};
     current_light_cmd_ :=
       {| ScoutLightCmd.front_mode := x00; ScoutLightCmd.front_custom_value := x00;
          ScoutLightCmd.rear_mode := x00; ScoutLightCmd.rear_custom_value := x00 |};
     light_ctrl_enabled_ := false;
     light_ctrl_requested_ := false;
     scout_state_ := zero_ScoutState |}.

(** The same object after [Connect("can0", 0)]. *)
Definition can_ScoutBase : ScoutBase :=
  with_can (Some {| can_name := "can0" |}) true fresh_ScoutBase.

(** A motion status frame reporting 1000 mm/s and 0 mrad/s, with its
    checksum (0x25) and with the checksum byte corrupted to 0x05. *)
Definition motion_frame (last : byte) : can_frame :=
  {| can_id := 305; can_dlc := 8;
     data := [x03; xe8; x00; x00; x00; x00; x00; last] |}.

Definition motion_status_1000 : ScoutStatusMessage := decode_status (motion_frame x25).

(** A system status message reporting 36.8 V. *)
Definition system_status_368 : ScoutStatusMessage :=
  decode_status {| can_id := 337; can_dlc := 8;
                   data := [x00; x01; x01; x70; x00; x00; x00; xcc] |}.

(** A schedule to run. The command thread makes a pass with nothing
    requested (two steps); on its next pass a light command arrives
    between the motion send and the test of the flag, and a second one
    and a motion command between the test and the light send; a third
    pass follows. The motion counter starts at its last value, 255. *)
Definition sample_light_cmd (m : LightMode) : ScoutLightCmd.t :=
  {| ScoutLightCmd.front_mode := m; ScoutLightCmd.front_custom_value := x00;
     ScoutLightCmd.rear_mode := m; ScoutLightCmd.rear_custom_value := x00 |}.

Definition sample_schedule : list Call :=
  [LoopStep; LoopStep;
   LoopStep; CallSetLightCommand (sample_light_cmd x01); LoopStep;
   CallSetLightCommand (sample_light_cmd x02); CallSetMotionCommand 1 0 x00; LoopStep;
   LoopStep; LoopStep].

Definition sample_thread : LoopThread :=
  {| at_point := AtSendMotion;
     counters := {| cmd_count := 255; light_cmd_count := 0 |} |}.

(** The stored command of [SetMotionCommand(linear, angular)] on a fresh
    object, if the call is defined. *)
Definition stored_percentages `{limits : ScoutLimits} (linear_vel angular_vel : float)
    : option (Z * Z) :=
  option_map
    (fun b => (ScoutMotionCmd.linear_velocity (current_motion_cmd_ b),
               ScoutMotionCmd.angular_velocity (current_motion_cmd_ b)))
    (object_after (SetMotionCommand linear_vel angular_vel x00) fresh_ScoutBase).

(** Calls on the serial port and on the CAN interface, among the actions. *)
Definition is_serial_action (a : Action) : bool :=
  match a with
  | SerialCreate _ _ | SerialOpen | SerialClose | SerialSetReceiveCallback
  | ParserSetReceiveCallback | SerialSendMotion _ | SerialSendLight _ => true
  | _ => false
  end.

Definition is_can_action (a : Action) : bool :=
  match a with
  | CanCreate _ | CanSetReceiveCallback | CanSendMotion _ | CanSendLight _ => true
  | _ => false
  end.

(** ** The stopwatch that paces the loop *)

(** A value that fits [int64_t]; an arithmetic result that does not is
    undefined. *)
Definition int64 (z : Z) : option Z :=
  if (- 2 ^ 63 <=? z) && (z <? 2 ^ 63) then Some z else None.

Module StopWatch.

(** A reading of [Clock::now()] is a count of ticks of the clock;
    [tic_point] is the reading [tic()] took. *)
Record t := { tic_point : Z }.

Definition tic (now : Z) : t := {| tic_point := now |}.

(** [duration_cast<milliseconds>(Clock::now() - tic_point).count()] on a
    clock of [ticks_per_ms] ticks to the millisecond: whole milliseconds,
    the fraction dropped towards zero. *)
Definition elapsed_ms (ticks_per_ms : Z) (sw : t) (now : Z) : Z :=
  Z.quot (now - tic_point sw) ticks_per_ms.

(** [sleep_until_ms(period_ms)] called at the reading [now]: the
    milliseconds it hands to [sleep_for], [Some None] when it does not
    sleep, nothing when the subtraction leaves [int64_t]. *)
Definition sleep_until_ms (ticks_per_ms : Z) (sw : t) (period_ms now : Z)
    : option (option Z) :=
  match int64 (period_ms - elapsed_ms ticks_per_ms sw now) with
  | Some duration => Some (if 0 <? duration then Some duration else None)
  | None => None
  end.

(** The reading at which [sleep_until_ms] returns when [sleep_for] sleeps
    exactly as long as asked. *)
Definition wakes_at (ticks_per_ms : Z) (sw : t) (period_ms now : Z) : option Z :=
  match sleep_until_ms ticks_per_ms sw period_ms now with
  | Some (Some duration) => Some (now + duration * ticks_per_ms)
  | Some None => Some now
  | None => None
  end.

End StopWatch.

(** ** The driver and its command thread *)

(** [ControlLoop] as [StartCmdThread] enters it: both counters 0, about
    to send its first motion command. *)
Definition ControlLoop_entry : LoopThread :=
  {| at_point := AtSendMotion;
     counters := {| cmd_count := 0; light_cmd_count := 0 |} |}.

(** A driver object together with its [cmd_thread_]: no thread until
    [StartCmdThread] has run, from then on the command thread where it
    stands in its loop. *)
Record Driver := {
  object : ScoutBase;
  cmd_thread_ : option LoopThread
}.

(** What happens to a driver, one step each: a call of [Connect] or
    [Disconnect], or one of the steps of a schedule, each taken whole. *)
Inductive Event :=
| EvConnect (dev_name : string) (baud_rate : Z)
| EvDisconnect
| EvCall (e : Call).

Definition is_thread_start (a : Action) : bool :=
  match a with ThreadStart _ => true | _ => false end.

(** How [~ScoutBase] ends: it returns, or it waits in
    [cmd_thread_.join()] for [ControlLoop], which has neither a [return]
    nor a [break]. *)
Inductive Completion :=
| Returns
| WaitsForCmdThread.

Section Drive.
Context `{proto : ScoutProtocol} `{limits : ScoutLimits} `{ports : SerialPorts}.

(** The driver after a member function called from outside the command
    thread. A call that ran [StartCmdThread] has assigned the new thread
    to [cmd_thread_]; assigning to a [std::thread] that is joinable ends
    the program, which leaves no result. *)
Definition after_call (d : Driver) (r : option (unit * ScoutBase * list Action))
    : option (Driver * list Action) :=
  match r with
  | Some (_, b, t) =>
      if existsb is_thread_start t
      then
        match cmd_thread_ d with
        | None => Some ({| object := b; cmd_thread_ := Some ControlLoop_entry |}, t)
        | Some _ => None
        end
      else Some ({| object := b; cmd_thread_ := cmd_thread_ d |}, t)
  | None => None
  end.

(** One event. The command thread takes an action of its loop if it has
    been started; until then there is nothing to take one. *)
Definition drive (ev : Event) (d : Driver) : option (Driver * list Action) :=
  match ev with
  | EvConnect dev_name baud_rate => after_call d (Connect dev_name baud_rate (object d))
  | EvDisconnect => after_call d (Disconnect (object d))
  | EvCall (CallSetMotionCommand v w f) => after_call d (SetMotionCommand v w f (object d))
  | EvCall (CallSetLightCommand cmd) => after_call d (SetLightCommand cmd (object d))
  | EvCall CallDisableLightCmdControl => after_call d (DisableLightCmdControl (object d))
  | EvCall (CallParseCANFrame f) => after_call d (ParseCANFrame f (object d))
  | EvCall LoopStep =>
      match cmd_thread_ d with
      | Some l =>
          match ControlLoop_step l (object d) with
          | Some (l', b, t) => Some ({| object := b; cmd_thread_ := Some l' |}, t)
          | None => None
          end
      | None => Some (d, [])
      end
  end.

(** A sequence of events from a driver: the driver reached and everything
    logged, oldest first; nothing when an event is undefined. *)
Fixpoint drive_all (evs : list Event) (d : Driver) : option (Driver * list Action) :=
  match evs with
  | [] => Some (d, [])
  | ev :: evs =>
      match drive ev d with
      | Some (d1, t1) =>
          match drive_all evs d1 with
          | Some (d2, t2) => Some (d2, t1 ++ t2)
          | None => None
          end
      | None => None
      end
  end.

(** [~ScoutBase]: the serial port is closed when the serial flag is set,
    without a look at whether it is open; then the command thread is
    joined if there is one. *)
Definition Destructor (d : Driver) : option (Completion * ScoutBase * list Action) :=
  match (b ← this; if serial_connected_ b then serial_close else mret tt) (object d) with
  | Some (_, b, t) =>
      Some (match cmd_thread_ d with Some _ => WaitsForCmdThread | None => Returns end, b, t)
  | None => None
  end.

Definition event_defined (ev : Event) : Prop :=
  match ev with
  | EvCall e => call_defined e
  | _ => True
  end.

(** The test of [ParseCANFrame], as written. *)
Definition discards (f : can_frame) : bool :=
  not_byte (data_at f 7)
  =? Z_of_byte (Agilex_CANMsgChecksum (can_id f) (data f) (can_dlc f)).

(** The state after an event, as far as the receive path goes: a frame
    that passes the test is decoded and reduced, every other event leaves
    the state. *)
Definition received (s : ScoutState) (ev : Event) : ScoutState :=
  match ev with
  | EvCall (CallParseCANFrame f) =>
      if discards f then s else UpdateScoutState (UnpackScoutCANFrameToMsg f) s
  | _ => s
  end.

(** The light request a light frame sent from this object carries: the
    stored command while light control is enabled, and the constant-off
    request otherwise. *)
Definition standing_light_request (b : ScoutBase) : byte * byte * byte * byte * byte :=
  if light_ctrl_enabled_ b
  then (LIGHT_ENABLE_CTRL,
        ScoutLightCmd.front_mode (current_light_cmd_ b),
        ScoutLightCmd.front_custom_value (current_light_cmd_ b),
        ScoutLightCmd.rear_mode (current_light_cmd_ b),
        ScoutLightCmd.rear_custom_value (current_light_cmd_ b))
  else (LIGHT_DISABLE_CTRL, LIGHT_MODE_CONST_OFF, x00, LIGHT_MODE_CONST_OFF, x00).

(** The command messages before their checksum is written. *)
Definition unsealed_motion (m : MotionControl.t) : MotionControl.t :=
  {| MotionControl.id := MotionControl.id m;
     MotionControl.control_mode := MotionControl.control_mode m;
     MotionControl.fault_clear_flag := MotionControl.fault_clear_flag m;
     MotionControl.linear_velocity_cmd := MotionControl.linear_velocity_cmd m;
     MotionControl.angular_velocity_cmd := MotionControl.angular_velocity_cmd m;
     MotionControl.reserved0 := MotionControl.reserved0 m;
     MotionControl.reserved1 := MotionControl.reserved1 m;
     MotionControl.count := MotionControl.count m;
     MotionControl.checksum := None |}.

Definition unsealed_light (l : LightControl.t) : LightControl.t :=
  {| LightControl.id := LightControl.id l;
     LightControl.light_ctrl_enable := LightControl.light_ctrl_enable l;
     LightControl.front_light_mode := LightControl.front_light_mode l;
     LightControl.front_light_custom := LightControl.front_light_custom l;
     LightControl.rear_light_mode := LightControl.rear_light_mode l;
     LightControl.rear_light_custom := LightControl.rear_light_custom l;
     LightControl.reserved0 := LightControl.reserved0 l;
     LightControl.count := LightControl.count l;
     LightControl.checksum := None |}.


End Drive.

(** ** Every value of a two-byte field *)

Definition all_bytes : list byte := omap Byte.of_N (map N.of_nat (seq 0 256)).

(** [P] holds of each of the 65536 values of a two-byte field. *)
Definition forall_Bytes16 (P : Bytes16 -> bool) : bool :=
  forallb (fun h => forallb (fun l => P {| high_byte := h; low_byte := l |}) all_bytes)
    all_bytes.

(** [lo <= x <= hi] on doubles; false of a NaN. *)
Definition in_range (lo hi x : float) : bool := ((lo <=? x) && (x <=? hi))%float.

(** A set flag has its handle: where [can_connected_] or
    [serial_connected_] is set the pointer is not null; and
    [cmd_thread_started_] is set exactly when there is a command thread. *)
Definition handle_present {A : Type} (connected : bool) (h : option A) : bool :=
  match h with Some _ => true | None => negb connected end.

Definition consistent (d : Driver) : bool :=
  handle_present (can_connected_ (object d)) (can_if_ (object d))
  && handle_present (serial_connected_ (object d)) (serial_if_ (object d))
  && Bool.eqb (cmd_thread_started_ (object d))
       (match cmd_thread_ d with Some _ => true | None => false end).

(** The frames in a log, oldest first. *)
Definition motion_frame_of (a : Action) : option MotionControl.t :=
  match a with
  | CanSendMotion m | SerialSendMotion m => Some m
  | _ => None
  end.

Definition motion_frames (t : list Action) : list MotionControl.t := omap motion_frame_of t.

Definition light_frame_of (a : Action) : option LightControl.t :=
  match a with
  | CanSendLight l | SerialSendLight l => Some l
  | _ => None
  end.

Definition light_frames (t : list Action) : list LightControl.t := omap light_frame_of t.

Definition is_send (a : Action) : bool :=
  match a with
  | CanSendMotion _ | CanSendLight _ | SerialSendMotion _ | SerialSendLight _ => true
  | _ => false
  end.

Definition is_serial_send (a : Action) : bool :=
  match a with
  | SerialSendMotion _ | SerialSendLight _ => true
  | _ => false
  end.

Definition is_motion_call (ev : Event) : bool :=
  match ev with
  | EvCall (CallSetMotionCommand _ _ _) => true
  | _ => false
  end.

(** A [Connect] with a baud rate, which configures a serial port. *)
Definition opens_serial (ev : Event) : bool :=
  match ev with
  | EvConnect _ baud_rate => negb (baud_rate =? 0)
  | _ => false
  end.

(** The five bytes of a light frame that say what the lights shall do. *)
Definition light_request (l : LightControl.t) : byte * byte * byte * byte * byte :=
  (LightControl.light_ctrl_enable l,
   LightControl.front_light_mode l, LightControl.front_light_custom l,
   LightControl.rear_light_mode l, LightControl.rear_light_custom l).

(** The event is an action of the command thread, taken at the point [p]
    of its loop. *)
Definition thread_acts_at (p : LoopPoint) (ev : Event) (d : Driver) : bool :=
  match ev, cmd_thread_ d with
  | EvCall LoopStep, Some l => loop_step_at p LoopStep l
  | _, _ => false
  end.

(** The counters of the command thread; of the thread to come, while
    there is none. *)
Definition counters_of (d : Driver) : LoopCounters :=
  match cmd_thread_ d with
  | Some l => counters l
  | None => counters ControlLoop_entry
  end.

(** How many times a log starts the command thread. *)
Definition thread_starts (t : list Action) : nat := length (List.filter is_thread_start t).

(** The frame carries the stored motion command. *)
Definition carries (cmd : ScoutMotionCmd.t) (m : MotionControl.t) : Prop :=
  MotionControl.linear_velocity_cmd m = ScoutMotionCmd.linear_velocity cmd
  /\ MotionControl.angular_velocity_cmd m = ScoutMotionCmd.angular_velocity cmd
  /\ MotionControl.fault_clear_flag m = ScoutMotionCmd.fault_clear_flag cmd
  /\ MotionControl.reserved0 m = x00
  /\ MotionControl.reserved1 m = x00.

(** Three actions of the command thread in a row. *)
Definition three_actions : list Event := [EvCall LoopStep; EvCall LoopStep; EvCall LoopStep].

(** A driver as constructed, with no command thread. *)
Definition fresh_Driver : Driver := {| object := fresh_ScoutBase; cmd_thread_ := None |}.

(** ** The command thread between its locks

    [SendMotionCmd] holds [motion_cmd_mutex_] only while it copies the
    stored command into its local message, and [SendLightCmd] holds
    [light_cmd_mutex_] only while it copies the light command and lowers
    the requested flag; the message is completed and handed to the
    transport after the unlock. [SetMotionCommand] starts the command
    thread before it clamps, locks and stores. A call of another thread
    can come in between. Here each send and the motion setter are cut in
    two where that can happen, and the command thread carries the message
    it has built from one half to the other. The transports are fixed
    before such a run: [Connect] and [Disconnect] are not among its
    calls. *)

Definition with_motion_checksum (c : byte) (m : MotionControl.t) : MotionControl.t :=
  {| MotionControl.id := MotionControl.id m;
     MotionControl.control_mode := MotionControl.control_mode m;
     MotionControl.fault_clear_flag := MotionControl.fault_clear_flag m;
     MotionControl.linear_velocity_cmd := MotionControl.linear_velocity_cmd m;
     MotionControl.angular_velocity_cmd := MotionControl.angular_velocity_cmd m;
     MotionControl.reserved0 := MotionControl.reserved0 m;
     MotionControl.reserved1 := MotionControl.reserved1 m;
     MotionControl.count := MotionControl.count m;
     MotionControl.checksum := Some c |}.

Definition with_light_checksum (c : byte) (l : LightControl.t) : LightControl.t :=
  {| LightControl.id := LightControl.id l;
     LightControl.light_ctrl_enable := LightControl.light_ctrl_enable l;
     LightControl.front_light_mode := LightControl.front_light_mode l;
     LightControl.front_light_custom := LightControl.front_light_custom l;
     LightControl.rear_light_mode := LightControl.rear_light_mode l;
     LightControl.rear_light_custom := LightControl.rear_light_custom l;
     LightControl.reserved0 := LightControl.reserved0 l;
     LightControl.count := LightControl.count l;
     LightControl.checksum := Some c |}.

Section Locks.
Context `{proto : ScoutProtocol} `{limits : ScoutLimits}.

(** [SendMotionCmd] down to the assignment of the count: the identifier
    and the control mode by the connection flags, the stored command
    copied under [motion_cmd_mutex_], the reserved bytes and the count,
    which are written to the local message after the unlock. The checksum
    is not yet written. *)
Definition SendMotionCmd_build (count : Z) : M MotionControl.t :=
  b ← this;
  let id :=
    if can_connected_ b then Some CAN_MSG_MOTION_CONTROL_CMD_ID
    else if serial_connected_ b then Some FRAME_MOTION_CONTROL_CMD_ID
    else None in
  let control_mode :=
    if can_connected_ b then Some CTRL_MODE_CMD_CAN
    else if serial_connected_ b then Some CTRL_MODE_CMD_UART
    else None in
  let cmd := current_motion_cmd_ b in
  mret {| MotionControl.id := id;
          MotionControl.control_mode := control_mode;
          MotionControl.fault_clear_flag := ScoutMotionCmd.fault_clear_flag cmd;
          MotionControl.linear_velocity_cmd := ScoutMotionCmd.linear_velocity cmd;
          MotionControl.angular_velocity_cmd := ScoutMotionCmd.angular_velocity cmd;
          MotionControl.reserved0 := x00;
          MotionControl.reserved1 := x00;
          MotionControl.count := count;
          MotionControl.checksum := None |}.

(** The rest of [SendMotionCmd]: with the CAN flag set, the checksum over
    the identifier the message holds and the message as built, and the
    frame to the CAN interface; otherwise the buffer to the serial port.
    The checksum reads [m_msg.id], which is undefined while the message
    has none. *)
Definition SendMotionCmd_hand_off (m_msg : MotionControl.t) : M unit :=
  b ← this;
  if can_connected_ b
  then
    match MotionControl.id m_msg with
    | Some id =>
        let checksum := Agilex_CANMsgChecksum id (motion_raw m_msg) motion_len in
        via_can (fun _ => act (CanSendMotion (with_motion_checksum checksum m_msg)))
    | None => undefined
    end
  else
    via_serial (fun _ => act (SerialSendMotion m_msg)).

(** [SendLightCmd] down to the assignment of the count: the identifier by
    the connection flags, and under [light_cmd_mutex_] the light command
    or the constant-off request copied into the local message and the
    requested flag lowered. *)
Definition SendLightCmd_take (count : Z) : M LightControl.t :=
  b ← this;
  let id :=
    if can_connected_ b then Some CAN_MSG_LIGHT_CONTROL_CMD_ID
    else if serial_connected_ b then Some FRAME_LIGHT_CONTROL_CMD_ID
    else None in
  let cmd := current_light_cmd_ b in
  let l_msg :=
    if light_ctrl_enabled_ b
    then
      {| LightControl.id := id;
         LightControl.light_ctrl_enable := LIGHT_ENABLE_CTRL;
         LightControl.front_light_mode := ScoutLightCmd.front_mode cmd;
         LightControl.front_light_custom := ScoutLightCmd.front_custom_value cmd;
         LightControl.rear_light_mode := ScoutLightCmd.rear_mode cmd;
         LightControl.rear_light_custom := ScoutLightCmd.rear_custom_value cmd;
         LightControl.reserved0 := x00;
         LightControl.count := count;
         LightControl.checksum := None |}
    else
      {| LightControl.id := id;
         LightControl.light_ctrl_enable := LIGHT_DISABLE_CTRL;
         LightControl.front_light_mode := LIGHT_MODE_CONST_OFF;
         LightControl.front_light_custom := x00;
         LightControl.rear_light_mode := LIGHT_MODE_CONST_OFF;
         LightControl.rear_light_custom := x00;
         LightControl.reserved0 := x00;
         LightControl.count := count;
         LightControl.checksum := None |} in
  update (with_light cmd (light_ctrl_enabled_ b) false) ;;
  mret l_msg.

(** The rest of [SendLightCmd]: the checksum on the CAN bus, and the
    hand-off. *)
Definition SendLightCmd_hand_off (l_msg : LightControl.t) : M unit :=
  b ← this;
  if can_connected_ b
  then
    match LightControl.id l_msg with
    | Some id =>
        let checksum := Agilex_CANMsgChecksum id (light_raw l_msg) light_len in
        via_can (fun _ => act (CanSendLight (with_light_checksum checksum l_msg)))
    | None => undefined
    end
  else
    via_serial (fun _ => act (SerialSendLight l_msg)).

(** [SetMotionCommand] down to the start of the command thread, and from
    the clamps on: the store under [motion_cmd_mutex_]. *)
Definition SetMotionCommand_start : M unit :=
  b ← this;
  if negb (cmd_thread_started_ b) then StartCmdThread else mret tt.

Definition SetMotionCommand_store (linear_vel angular_vel : float)
    (fault_clr_flag : FaultClearFlag) : M unit :=
  let linear_vel := clamp min_linear_velocity max_linear_velocity linear_vel in
  let angular_vel := clamp min_angular_velocity max_angular_velocity angular_vel in
  l ← to_uint8 (linear_vel / max_linear_velocity * 100)%float;
  a ← to_uint8 (angular_vel / max_angular_velocity * 100)%float;
  update (with_motion_cmd
            {| ScoutMotionCmd.linear_velocity := static_cast_int8 l;
               ScoutMotionCmd.angular_velocity := static_cast_int8 a;
               ScoutMotionCmd.fault_clear_flag := fault_clr_flag |}).

(** The command thread between two steps that nothing can interrupt:
    about to build its motion message; holding it, about to hand it off;
    about to test [light_ctrl_requested_]; about to take the light
    request; holding the light message, about to hand it off. *)
Inductive FinePoint :=
| AtBuildMotion
| AtHandOffMotion (m_msg : MotionControl.t)
| AtTest
| AtTakeLight
| AtHandOffLight (l_msg : LightControl.t).

Record FineThread := {
  fine_point : FinePoint;
  fine_counters : LoopCounters
}.

(** One such step. The counter is incremented as the argument of the send
    is evaluated, before the send begins. *)
Definition ControlLoop_fine_step (l : FineThread) : M FineThread :=
  let c := fine_counters l in
  match fine_point l with
  | AtBuildMotion =>
      m_msg ← SendMotionCmd_build (cmd_count c);
      mret {| fine_point := AtHandOffMotion m_msg;
              fine_counters := {| cmd_count := incr_uint8 (cmd_count c);
                                  light_cmd_count := light_cmd_count c |} |}
  | AtHandOffMotion m_msg =>
      SendMotionCmd_hand_off m_msg ;;
      mret {| fine_point := AtTest; fine_counters := c |}
  | AtTest =>
      b ← this;
      mret {| fine_point := if light_ctrl_requested_ b then AtTakeLight else AtBuildMotion;
              fine_counters := c |}
  | AtTakeLight =>
      l_msg ← SendLightCmd_take (light_cmd_count c);
      mret {| fine_point := AtHandOffLight l_msg;
              fine_counters := {| cmd_count := cmd_count c;
                                  light_cmd_count := incr_uint8 (light_cmd_count c) |} |}
  | AtHandOffLight l_msg =>
      SendLightCmd_hand_off l_msg ;;
      mret {| fine_point := AtBuildMotion; fine_counters := c |}
  end.

Definition ControlLoop_fine_entry : FineThread :=
  {| fine_point := AtBuildMotion;
     fine_counters := {| cmd_count := 0; light_cmd_count := 0 |} |}.

(** What can happen, one uninterruptible step each: the first half of
    [SetMotionCommand], its second half, a light setter, a received frame,
    or a step of the command thread. *)
Inductive FineCall :=
| FineStartCmdThread
| FineStoreMotionCommand (linear_vel angular_vel : float) (fault_clr_flag : FaultClearFlag)
| FineSetLightCommand (cmd : ScoutLightCmd.t)
| FineDisableLightCmdControl
| FineParseCANFrame (rx_frame : can_frame)
| FineThreadAction.

Record FineDriver := {
  fine_object : ScoutBase;
  fine_thread : option FineThread
}.

(** As [after_call]: a step that ran [StartCmdThread] has assigned the new
    thread to [cmd_thread_]. *)
Definition fine_after (d : FineDriver) (r : option (unit * ScoutBase * list Action))
    : option (FineDriver * list Action) :=
  match r with
  | Some (_, b, t) =>
      if existsb is_thread_start t
      then
        match fine_thread d with
        | None => Some ({| fine_object := b; fine_thread := Some ControlLoop_fine_entry |}, t)
        | Some _ => None
        end
      else Some ({| fine_object := b; fine_thread := fine_thread d |}, t)
  | None => None
  end.

Definition fine_drive (e : FineCall) (d : FineDriver) : option (FineDriver * list Action) :=
  match e with
  | FineStartCmdThread => fine_after d (SetMotionCommand_start (fine_object d))
  | FineStoreMotionCommand v w f => fine_after d (SetMotionCommand_store v w f (fine_object d))
  | FineSetLightCommand cmd => fine_after d (SetLightCommand cmd (fine_object d))
  | FineDisableLightCmdControl => fine_after d (DisableLightCmdControl (fine_object d))
  | FineParseCANFrame f => fine_after d (ParseCANFrame f (fine_object d))
  | FineThreadAction =>
      match fine_thread d with
      | Some l =>
          match ControlLoop_fine_step l (fine_object d) with
          | Some (l', b, t) => Some ({| fine_object := b; fine_thread := Some l' |}, t)
          | None => None
          end
      | None => Some (d, [])
      end
  end.

Fixpoint fine_drive_all (es : list FineCall) (d : FineDriver)
    : option (FineDriver * list Action) :=
  match es with
  | [] => Some (d, [])
  | e :: es =>
      match fine_drive e d with
      | Some (d1, t1) =>
          match fine_drive_all es d1 with
          | Some (d2, t2) => Some (d2, t1 ++ t2)
          | None => None
          end
      | None => None
      end
  end.

Definition fine_defined (e : FineCall) : Prop :=
  match e with
  | FineStoreMotionCommand v w _ => conversions_defined v w
  | _ => True
  end.

End Locks.

Definition is_store (e : FineCall) : bool :=
  match e with FineStoreMotionCommand _ _ _ => true | _ => false end.

Definition is_fine_light_setter (e : FineCall) : bool :=
  match e with FineSetLightCommand _ | FineDisableLightCmdControl => true | _ => false end.

(** The message the command thread holds, built and not yet handed off. *)
Definition held_motion (d : FineDriver) : option MotionControl.t :=
  match fine_thread d with
  | Some {| fine_point := AtHandOffMotion m_msg |} => Some m_msg
  | _ => None
  end.

Definition held_light (d : FineDriver) : option LightControl.t :=
  match fine_thread d with
  | Some {| fine_point := AtHandOffLight l_msg |} => Some l_msg
  | _ => None
  end.

(** As [consistent]; and a message the thread holds has its identifier
    where the CAN flag is set, as every message has that the thread built
    under that flag. *)
Definition has_id {A : Type} (connected : bool) (id : option A) : bool :=
  match id with Some _ => true | None => negb connected end.

Definition fine_consistent (d : FineDriver) : bool :=
  handle_present (can_connected_ (fine_object d)) (can_if_ (fine_object d))
  && handle_present (serial_connected_ (fine_object d)) (serial_if_ (fine_object d))
  && Bool.eqb (cmd_thread_started_ (fine_object d))
       (match fine_thread d with Some _ => true | None => false end)
  && match fine_thread d with
     | Some {| fine_point := AtHandOffMotion m_msg |} =>
         has_id (can_connected_ (fine_object d)) (MotionControl.id m_msg)
     | Some {| fine_point := AtHandOffLight l_msg |} =>
         has_id (can_connected_ (fine_object d)) (LightControl.id l_msg)
     | _ => true
     end.

(** How far the answer to a light request has come, [held] being the
    light message the thread held when the request was made and [sent] the
    light frames handed off since. While the flag is raised, the request
    is the standing one and nothing has been sent but, possibly, the
    message held; once the flag is lowered, the thread has taken the
    request, and either holds it or has handed it off. *)
Definition answering `{proto : ScoutProtocol} (request : byte * byte * byte * byte * byte)
    (held : option LightControl.t) (d : FineDriver) (sent : list LightControl.t) : Prop :=
  exists stale,
    (stale = []
     \/ exists l l', held = Some l /\ stale = [l'] /\ unsealed_light l' = unsealed_light l)
    /\ if light_ctrl_requested_ (fine_object d)
       then standing_light_request (fine_object d) = request
            /\ (held_light d = held /\ sent = [] \/ held_light d = None /\ sent = stale)
       else option_map fine_point (fine_thread d) <> Some AtTakeLight
            /\ ((exists l, held_light d = Some l /\ light_request l = request /\ sent = stale)
                \/ held_light d = None
                   /\ exists frame, sent = stale ++ [frame] /\ light_request frame = request).

(** Six steps of the command thread in a row: a pass takes three, and
    five when it sends a light frame. *)
Definition six_actions : list FineCall :=
  [FineThreadAction; FineThreadAction; FineThreadAction;
   FineThreadAction; FineThreadAction; FineThreadAction].

(** ** Sample drivers, messages and runs *)

(** The status message of motor driver 3: 12.3 A, -200 rpm, 40 degrees. *)
Definition motor3_status : ScoutStatusMessage :=
  {| updated_msg_type := ScoutMotor3DriverStatusMsg;
     motion_status_msg := motion_status_msg motion_status_1000;
     light_status_msg := light_status_msg motion_status_1000;
     system_status_msg := system_status_msg motion_status_1000;
     motor_driver_status_msg :=
       {| MotorDriverStatus.current := {| high_byte := x00; low_byte := x7b |};
          MotorDriverStatus.rpm := {| high_byte := xff; low_byte := x38 |};
          MotorDriverStatus.temperature := x28 |} |}.

(** A motion status message reporting -500 mm/s. *)
Definition reverse_motion_status : ScoutStatusMessage :=
  decode_status {| can_id := 305; can_dlc := 8;
                   data := [xfe; x0c; x00; x00; x00; x00; x00; x44] |}.

(** A driver after [Connect("can0", 0)], before any command; the same with
    its command thread running; and one on an open serial port with the
    thread running. *)
Definition can_Driver : Driver := {| object := can_ScoutBase; cmd_thread_ := None |}.

Definition running_Driver : Driver :=
  {| object := with_cmd_thread_started true can_ScoutBase;
     cmd_thread_ := Some sample_thread |}.

Definition serial_port : ASyncSerial :=
  {| port_name := "ttyUSB0"; port_baud := 115200; is_open := true |}.

Definition serial_Driver : Driver :=
  {| object :=
       with_cmd_thread_started true
         (with_serial_connected true (with_serial_if (Some serial_port) fresh_ScoutBase));
     cmd_thread_ := Some sample_thread |}.

(** A run: a light command and a motion command, a pass of the command
    thread, a motion status frame, a serial [Connect] on top,
    [Disconnect], and another pass. *)
Definition sample_events : list Event :=
  [EvCall (CallSetLightCommand (sample_light_cmd x01));
   EvCall (CallSetMotionCommand 1 0.25 x00);
   EvCall LoopStep; EvCall LoopStep; EvCall LoopStep;
   EvCall (CallParseCANFrame (motion_frame x25));
   EvConnect "ttyUSB0" 115200;
   EvDisconnect;
   EvCall LoopStep; EvCall LoopStep].

(** Calls that leave the motion setter out. *)
Definition idle_events : list Event :=
  [EvCall (CallSetLightCommand (sample_light_cmd x01));
   EvConnect "can0" 0;
   EvCall LoopStep;
   EvCall CallDisableLightCmdControl;
   EvCall (CallParseCANFrame (motion_frame x25));
   EvDisconnect].

(** A run on the CAN bus alone: a motion status frame, a motion command, a
    pass of the command thread, a frame that is discarded, [Disconnect],
    and another action of the thread. *)
Definition can_events : list Event :=
  [EvCall (CallParseCANFrame (motion_frame x25));
   EvCall (CallSetMotionCommand 1 0.25 x00);
   EvCall LoopStep; EvCall LoopStep;
   EvCall (CallParseCANFrame
             {| can_id := 0; can_dlc := 1;
                data := [x00; x00; x00; x00; x00; x00; x00; x00] |});
   EvDisconnect;
   EvCall LoopStep].

(** The running CAN driver with its command thread between the two halves
    of a send: holding the motion message it built from the zero command,
    count 255, or the light message it took while light control was
    disabled, count 7. *)
Definition built_motion : MotionControl.t :=
  {| MotionControl.id := Some 304;
     MotionControl.control_mode := Some x01;
     MotionControl.fault_clear_flag := x00;
     MotionControl.linear_velocity_cmd := 0;
     MotionControl.angular_velocity_cmd := 0;
     MotionControl.reserved0 := x00;
     MotionControl.reserved1 := x00;
     MotionControl.count := 255;
     MotionControl.checksum := None |}.

Definition taken_light : LightControl.t :=
  {| LightControl.id := Some 320;
     LightControl.light_ctrl_enable := x00;
     LightControl.front_light_mode := x00;
     LightControl.front_light_custom := x00;
     LightControl.rear_light_mode := x00;
     LightControl.rear_light_custom := x00;
     LightControl.reserved0 := x00;
     LightControl.count := 7;
     LightControl.checksum := None |}.

Definition fine_Driver_at (p : FinePoint) : FineDriver :=
  {| fine_object := object running_Driver;
     fine_thread :=
       Some {| fine_point := p;
               fine_counters := {| cmd_count := 0; light_cmd_count := 8 |} |} |}.

(** A CAN driver whose command thread has not been started. *)
Definition fine_can_Driver : FineDriver :=
  {| fine_object := can_ScoutBase; fine_thread := None |}.

(** [SetMotionCommand(1, 0.25)] on it, with the new thread quick enough
    to build and hand off its first frame between the start and the
    store; two more frames follow. *)
Definition early_thread_calls : list FineCall :=
  [FineStartCmdThread; FineThreadAction; FineThreadAction;
   FineStoreMotionCommand 1 0.25 x00;
   FineThreadAction; FineThreadAction; FineThreadAction;
   FineThreadAction; FineThreadAction; FineThreadAction].

(** * Properties *)

(** ** Bytes and sixteen-bit fields *)

Lemma Z_of_byte_range (b : byte) : 0 <= Z_of_byte b < 256.
Proof.
  unfold Z_of_byte. pose proof (Byte.to_N_bounded b). lia.
Qed.

Lemma lor_shiftl_8 (lo hi : Z) :
  0 <= lo < 256 -> 0 <= hi -> Z.lor lo (Z.shiftl hi 8) = lo + 256 * hi.
Proof.
  intros Hlo Hhi. rewrite Z.shiftl_mul_pow2 by lia.
  rewrite <- Z.add_nocarry_lor; [change (2 ^ 8) with 256; lia |].
  apply Z.bits_inj'. intros n Hn.
  rewrite Z.land_spec, Z.bits_0.
  destruct (Z.lt_ge_cases n 8) as [Hlt | Hge].
  - rewrite Z.mul_pow2_bits_low by lia. apply andb_false_r.
  - destruct (Z.eq_dec lo 0) as [-> | Hne].
    + now rewrite Z.bits_0.
    + rewrite Z.bits_above_log2; [reflexivity | lia |].
      apply Z.log2_lt_pow2; [lia |].
      apply Z.lt_le_trans with (2 ^ 8); [change (2 ^ 8) with 256; lia |].
      apply Z.pow_le_mono_r; lia.
Qed.

Lemma unsigned16_range (f : Bytes16) : 0 <= unsigned16 f < 65536.
Proof.
  unfold unsigned16.
  pose proof (Z_of_byte_range (low_byte f)). pose proof (Z_of_byte_range (high_byte f)).
  lia.
Qed.

Lemma assemble16_unsigned (f : Bytes16) : assemble16 f = unsigned16 f.
Proof.
  unfold assemble16, unsigned16.
  pose proof (Z_of_byte_range (low_byte f)). pose proof (Z_of_byte_range (high_byte f)).
  apply lor_shiftl_8; lia.
Qed.

Lemma assemble16_signed (f : Bytes16) : static_cast_int16 (assemble16 f) = signed16 f.
Proof.
  rewrite assemble16_unsigned. unfold static_cast_int16, signed16.
  pose proof (unsigned16_range f).
  destruct (Z.ltb_spec (unsigned16 f) 32768).
  - rewrite Z.mod_small; lia.
  - replace (unsigned16 f + 32768) with (unsigned16 f - 32768 + 1 * 65536) by lia.
    rewrite Z.mod_add by lia. rewrite Z.mod_small; lia.
Qed.

Lemma assemble16_uint16 (f : Bytes16) : static_cast_uint16 (assemble16 f) = unsigned16 f.
Proof.
  rewrite assemble16_unsigned. unfold static_cast_uint16.
  apply Z.mod_small, unsigned16_range.
Qed.

Lemma signed16_range (f : Bytes16) : -32768 <= signed16 f <= 32767.
Proof.
  unfold signed16. pose proof (unsigned16_range f).
  destruct (Z.ltb_spec (unsigned16 f) 32768); lia.
Qed.

(** ** The reducer *)

Section Reducer.
Context `{proto : ScoutProtocol}.

Lemma UpdateScoutState_motors_length (msg : ScoutStatusMessage) (state : ScoutState) :
  length (motor_states (UpdateScoutState msg state)) = length (motor_states state).
Proof.
  unfold UpdateScoutState.
  destruct (updated_msg_type msg); simpl; try reflexivity; apply length_insert.
Qed.

(** C3. A motion status message sets both velocities to the two bytes read
    as a signed 16-bit number (low byte plus 256 times high byte, two's
    complement) converted to double and divided by 1000; low byte 0xE8 and
    high byte 0x03 give a linear velocity of exactly 1.0. *)
Theorem motion_status_sets_velocities (msg : ScoutStatusMessage) (state : ScoutState) :
  updated_msg_type msg = ScoutMotionStatusMsg ->
  linear_velocity (UpdateScoutState msg state)
  = (double_of_Z (signed16 (MotionStatus.linear_velocity (motion_status_msg msg))) / 1000)%float
  /\ angular_velocity (UpdateScoutState msg state)
     = (double_of_Z (signed16 (MotionStatus.angular_velocity (motion_status_msg msg))) / 1000)%float
  /\ (MotionStatus.linear_velocity (motion_status_msg msg)
      = {| high_byte := x03; low_byte := xe8 |} ->
      linear_velocity (UpdateScoutState msg state) = 1%float).
Proof.
  intros Hk. unfold UpdateScoutState. rewrite Hk. cbn [linear_velocity angular_velocity].
  rewrite !assemble16_signed. repeat split.
  intros ->. reflexivity.
Qed.

(** C4. A system status message sets the battery voltage to the unsigned
    16-bit number of its two bytes converted to double and divided by 10,
    and the fault code to the unsigned 16-bit number of its two bytes as
    it is; battery bytes low 0x70, high 0x01 give exactly 36.8. *)
Theorem system_status_sets_battery_and_fault (msg : ScoutStatusMessage) (state : ScoutState) :
  updated_msg_type msg = ScoutSystemStatusMsg ->
  battery_voltage (UpdateScoutState msg state)
  = (double_of_Z (unsigned16 (SystemStatus.battery_voltage (system_status_msg msg))) / 10)%float
  /\ fault_code (UpdateScoutState msg state)
     = unsigned16 (SystemStatus.fault_code (system_status_msg msg))
  /\ (SystemStatus.battery_voltage (system_status_msg msg)
      = {| high_byte := x01; low_byte := x70 |} ->
      battery_voltage (UpdateScoutState msg state) = 36.8%float).
Proof.
  intros Hk. unfold UpdateScoutState. rewrite Hk. cbn [battery_voltage fault_code].
  rewrite assemble16_uint16, assemble16_unsigned. repeat split.
  intros ->. reflexivity.
Qed.

(** C5. The reducer leaves every field the message kind does not own as
    it was: a motion message owns the two velocities, a light message the
    light-enabled flag and the two light states, a system message control
    mode, base state, battery voltage and fault code, and the message of
    motor N the motor slot N. *)
Theorem reducer_changes_only_owned_fields
    (msg : ScoutStatusMessage) (state : ScoutState) (f : StateField) :
  owns (updated_msg_type msg) f = false ->
  same_field f state (UpdateScoutState msg state).
Proof.
  unfold UpdateScoutState.
  destruct (updated_msg_type msg); destruct f; cbn; intros Hown;
    try discriminate Hown; try reflexivity;
    apply list_lookup_insert_ne; apply Nat.eqb_neq in Hown; congruence.
Qed.

(** C10. A message whose kind is none of the seven the reducer handles
    leaves the whole state as it was. *)
Theorem unhandled_kind_leaves_state (msg : ScoutStatusMessage) (state : ScoutState) :
  handled (updated_msg_type msg) = false ->
  UpdateScoutState msg state = state.
Proof.
  unfold UpdateScoutState. destruct (updated_msg_type msg); cbn; intros Hh;
    try discriminate Hh; reflexivity.
Qed.

End Reducer.

(** The reducer at the two messages of the specification. *)
Lemma motion_status_sets_velocities_witness :
  linear_velocity (UpdateScoutState (proto := scout_protocol) motion_status_1000 zero_ScoutState)
  = 1%float.
Proof.
  exact (proj2 (proj2 (motion_status_sets_velocities (proto := scout_protocol)
                         motion_status_1000 zero_ScoutState eq_refl)) eq_refl).
Defined.

Lemma system_status_sets_battery_and_fault_witness :
  battery_voltage (UpdateScoutState (proto := scout_protocol) system_status_368 zero_ScoutState)
  = 36.8%float.
Proof.
  exact (proj2 (proj2 (system_status_sets_battery_and_fault (proto := scout_protocol)
                         system_status_368 zero_ScoutState eq_refl)) eq_refl).
Defined.

(** A motion message leaves the battery voltage and the third motor slot. *)
Lemma reducer_changes_only_owned_fields_witness :
  same_field F_battery_voltage zero_ScoutState
    (UpdateScoutState (proto := scout_protocol) motion_status_1000 zero_ScoutState)
  /\ same_field (F_motor_state 2) zero_ScoutState
       (UpdateScoutState (proto := scout_protocol) motion_status_1000 zero_ScoutState).
Proof.
  split.
  - exact (reducer_changes_only_owned_fields (proto := scout_protocol)
             motion_status_1000 zero_ScoutState F_battery_voltage eq_refl).
  - exact (reducer_changes_only_owned_fields (proto := scout_protocol)
             motion_status_1000 zero_ScoutState (F_motor_state 2) eq_refl).
Defined.

(** A frame with an identifier the decoder does not know. *)
Lemma unhandled_kind_leaves_state_witness :
  UpdateScoutState (proto := scout_protocol)
    (decode_status {| can_id := 0; can_dlc := 8; data := replicate 8 x07 |}) zero_ScoutState
  = zero_ScoutState.
Proof.
  exact (unhandled_kind_leaves_state (proto := scout_protocol)
           (decode_status {| can_id := 0; can_dlc := 8; data := replicate 8 x07 |})
           zero_ScoutState eq_refl).
Defined.

(** ** Transport selection *)

Section Connection.
Context `{proto : ScoutProtocol} `{ports : SerialPorts}.

Lemma Connect_can (dev_name : string) (b : ScoutBase) :
  Connect dev_name 0 b
  = Some (tt, with_can (Some {| can_name := dev_name |}) true b,
          [CanCreate dev_name; CanSetReceiveCallback]).
Proof. destruct b; reflexivity. Qed.

Lemma Connect_serial (dev_name : string) (baud_rate : Z) (b : ScoutBase) :
  baud_rate <> 0 ->
  Connect dev_name baud_rate b
  = Some (tt,
          with_serial_connected (port_opens dev_name baud_rate || serial_connected_ b)
            (with_serial_if
               (Some {| port_name := dev_name; port_baud := baud_rate;
                        is_open := port_opens dev_name baud_rate |}) b),
          [SerialCreate dev_name baud_rate; SerialOpen; SerialSetReceiveCallback;
           ParserSetReceiveCallback]
          ++ (if port_opens dev_name baud_rate || serial_connected_ b then []
              else [CerrSerialConnectFailed])).
Proof.
  intros Hb. unfold Connect. apply Z.eqb_neq in Hb. rewrite Hb.
  destruct b as [ci si cc sc ts tp mc lc le lr st].
  unfold ConfigureSerial, serial_open, via_serial, mbind, M_bind, mret, M_ret, this,
    update, act; cbn.
  destruct (port_opens dev_name baud_rate); cbn; [reflexivity |].
  destruct sc; reflexivity.
Qed.

(** C6. [Connect] with baud rate 0 creates and registers the CAN
    interface, sets the CAN flag, and touches neither the serial handle
    nor the serial flag, and makes no call on a serial port; with any
    other baud rate it creates and opens the serial port on the device,
    leaves the CAN handle and the CAN flag as they were, and makes no
    call on a CAN interface. *)
Theorem Connect_configures_one_transport
    (dev_name : string) (baud_rate : Z) (b : ScoutBase) :
  exists b' t,
    Connect dev_name baud_rate b = Some (tt, b', t)
    /\ (baud_rate = 0 ->
        can_if_ b' = Some {| can_name := dev_name |}
        /\ can_connected_ b' = true
        /\ serial_if_ b' = serial_if_ b
        /\ serial_connected_ b' = serial_connected_ b
        /\ CanCreate dev_name ∈ t
        /\ Forall (fun a => is_serial_action a = false) t)
    /\ (baud_rate <> 0 ->
        serial_if_ b'
        = Some {| port_name := dev_name; port_baud := baud_rate;
                  is_open := port_opens dev_name baud_rate |}
        /\ serial_connected_ b' = port_opens dev_name baud_rate || serial_connected_ b
        /\ can_if_ b' = can_if_ b
        /\ can_connected_ b' = can_connected_ b
        /\ SerialCreate dev_name baud_rate ∈ t
        /\ SerialOpen ∈ t
        /\ Forall (fun a => is_can_action a = false) t).
Proof.
  destruct (Z.eq_dec baud_rate 0) as [-> | Hb].
  - eexists _, _. split; [apply Connect_can |]. split; [| congruence].
    intros _. cbn. repeat split; try reflexivity.
    + apply list_elem_of_here.
    + repeat constructor.
  - eexists _, _. split; [apply (Connect_serial _ _ _ Hb) |]. split; [congruence |].
    intros _. cbn. repeat split; try reflexivity.
    + apply list_elem_of_here.
    + apply list_elem_of_further, list_elem_of_here.
    + destruct (port_opens dev_name baud_rate || serial_connected_ b);
        cbn; repeat constructor.
Qed.

(** C9. [Disconnect] with the serial flag clear (so with CAN as the
    active transport) does nothing at all; in every case it leaves the CAN
    handle and both connection flags as they were, and it closes the
    serial port exactly when the serial flag is set and the port is
    open. *)
Theorem Disconnect_closes_only_open_serial (b : ScoutBase) :
  (serial_connected_ b = false -> Disconnect b = Some (tt, b, []))
  /\ (forall b' t,
        Disconnect b = Some (tt, b', t) ->
        can_if_ b' = can_if_ b
        /\ can_connected_ b' = can_connected_ b
        /\ serial_connected_ b' = serial_connected_ b
        /\ (SerialClose ∈ t <->
            serial_connected_ b = true
            /\ exists p, serial_if_ b = Some p /\ is_open p = true)
        /\ (SerialClose ∉ t -> b' = b))
  /\ (is_Some (serial_if_ b) -> is_Some (Disconnect b)).
Proof.
  destruct b as [ci si cc sc ts tp mc lc le lr st].
  unfold Disconnect, serial_close, via_serial, mbind, M_bind, mret, M_ret, this,
    update, act; cbn.
  split; [intros ->; reflexivity |]. split.
  - intros b' t. destruct sc; cbn.
    + destruct si as [p |]; cbn; [| discriminate].
      destruct (is_open p) eqn:Ho; cbn; intros [= <- <-]; cbn;
        (split; [reflexivity |]); (split; [reflexivity |]); (split; [reflexivity |]); split.
      * split.
        -- intros _. split; [reflexivity |]. exists p. split; [reflexivity | exact Ho].
        -- intros _. apply list_elem_of_here.
      * intros Hn. exfalso. apply Hn, list_elem_of_here.
      * split.
        -- intros Hin. inversion Hin.
        -- intros (_ & q & [= <-] & Hq). congruence.
      * intros _. reflexivity.
    + intros [= <- <-]. cbn.
      (split; [reflexivity |]); (split; [reflexivity |]); (split; [reflexivity |]); split.
      * split.
        -- intros Hin. inversion Hin.
        -- intros (Hf & _). discriminate.
      * intros _. reflexivity.
  - intros [p ->]. destruct sc; cbn; [destruct (is_open p) |]; cbn; eauto.
Qed.

End Connection.

(** A serial port that does not open: the failure is reported and the
    serial flag stays clear. One that opens sets the flag. *)
Example Connect_serial_fails :
  Connect (ports := no_port_opens) "ttyUSB0" 115200 fresh_ScoutBase
  = Some (tt,
          with_serial_if
            (Some {| port_name := "ttyUSB0"; port_baud := 115200; is_open := false |})
            fresh_ScoutBase,
          [SerialCreate "ttyUSB0" 115200; SerialOpen; SerialSetReceiveCallback;
           ParserSetReceiveCallback; CerrSerialConnectFailed]).
Proof. reflexivity. Qed.

Example Connect_serial_opens :
  option_map (fun b => (serial_connected_ b, can_connected_ b, can_if_ b))
    (object_after (Connect (ports := every_port_opens) "ttyUSB0" 115200) fresh_ScoutBase)
  = Some (true, false, None).
Proof. reflexivity. Qed.

(** [Disconnect] after a CAN connection changes nothing; after a serial
    connection it closes the port and keeps the serial flag. *)
Example Disconnect_after_can :
  Disconnect can_ScoutBase = Some (tt, can_ScoutBase, []).
Proof. reflexivity. Qed.

Example Disconnect_after_serial :
  option_map (fun r => (serial_if_ (snd (fst r)), serial_connected_ (snd (fst r)), snd r))
    (b ← Connect (ports := every_port_opens) "ttyUSB0" 115200 fresh_ScoutBase;
     Disconnect (snd (fst b)))
  = Some (Some {| port_name := "ttyUSB0"; port_baud := 115200; is_open := false |},
          true, [SerialClose]).
Proof. reflexivity. Qed.

(** ** The CAN receive path *)

Section Receive.
Context `{proto : ScoutProtocol}.

Lemma Z_of_byte_zero (x : byte) : Z_of_byte x = 0 <-> x = x00.
Proof.
  split; [| intros ->; reflexivity].
  intros Hx. unfold Z_of_byte in Hx.
  assert (Hn : Byte.to_N x = Byte.to_N x00) by (change (Byte.to_N x00) with 0%N; lia).
  apply (f_equal Byte.of_N) in Hn. rewrite !Byte.of_to_N in Hn. congruence.
Qed.

Lemma not_byte_zero : not_byte x00 = 1.
Proof. reflexivity. Qed.

Lemma not_byte_nonzero (x : byte) : x <> x00 -> not_byte x = 0.
Proof. intros Hx. unfold not_byte. destruct x; try reflexivity. congruence. Qed.

(** What the test in [ParseCANFrame] decides: the frame is dropped
    exactly when the carried byte is zero and the computed checksum is 1,
    or the carried byte is not zero and the computed checksum is 0. *)
Lemma ParseCANFrame_drops_iff (f : can_frame) (b : ScoutBase) :
  ParseCANFrame f b
  = if (Byte.eqb (carried_checksum f) x00 && Byte.eqb (computed_checksum f) x01)
       || (negb (Byte.eqb (carried_checksum f) x00) && Byte.eqb (computed_checksum f) x00)
    then Some (tt, b, [CerrChecksumMismatch (can_id f)])
    else Some (tt, with_scout_state
                     (UpdateScoutState (UnpackScoutCANFrameToMsg f) (scout_state_ b)) b, []).
Proof.
  unfold ParseCANFrame, carried_checksum, computed_checksum.
  generalize (data_at f 7) (Agilex_CANMsgChecksum (can_id f) (data f) (can_dlc f)).
  intros carried computed.
  destruct (Byte.eqb carried x00) eqn:Hc.
  - apply Byte.byte_dec_bl in Hc. subst carried. rewrite not_byte_zero. cbn [andb orb negb].
    destruct (Byte.eqb computed x01) eqn:Hk.
    + apply Byte.byte_dec_bl in Hk. subst computed. reflexivity.
    + replace (1 =? Z_of_byte computed) with false; [reflexivity |].
      symmetry. apply Z.eqb_neq. intros Heq.
      assert (Hn : Byte.to_N computed = Byte.to_N x01)
        by (unfold Z_of_byte in Heq; change (Byte.to_N x01) with 1%N; lia).
      apply (f_equal Byte.of_N) in Hn. rewrite !Byte.of_to_N in Hn.
      injection Hn as ->. discriminate Hk.
  - assert (Hne : carried <> x00) by (intros ->; discriminate Hc).
    rewrite (not_byte_nonzero _ Hne). cbn [andb orb negb].
    destruct (Byte.eqb computed x00) eqn:Hk.
    + apply Byte.byte_dec_bl in Hk. subst computed. reflexivity.
    + replace (0 =? Z_of_byte computed) with false; [reflexivity |].
      symmetry. apply Z.eqb_neq. intros Heq. symmetry in Heq.
      apply Z_of_byte_zero in Heq. subst computed. discriminate Hk.
Qed.

(** C1. As the code stands, a frame whose trailing byte differs from the
    recomputed checksum is not dropped when both are non-zero: it is
    decoded and reduced into the state like a valid frame. (The test
    negates the byte before comparing, so it does not compare the two
    checksums.) *)
Theorem corrupted_frame_reaches_reducer (f : can_frame) (b : ScoutBase) :
  carried_checksum f <> computed_checksum f ->
  carried_checksum f <> x00 ->
  computed_checksum f <> x00 ->
  ParseCANFrame f b
  = Some (tt, with_scout_state
                (UpdateScoutState (UnpackScoutCANFrameToMsg f) (scout_state_ b)) b, []).
Proof.
  intros _ Hc Hk. rewrite ParseCANFrame_drops_iff.
  destruct (Byte.eqb (carried_checksum f) x00) eqn:E1;
    [apply Byte.byte_dec_bl in E1; contradiction |].
  destruct (Byte.eqb (computed_checksum f) x00) eqn:E2;
    [apply Byte.byte_dec_bl in E2; contradiction |].
  reflexivity.
Qed.

(** X4. A frame whose trailing byte is the recomputed checksum is never
    discarded, whatever the checksum is: it is decoded and reduced into
    the robot state, nothing is written to [std::cerr], and nothing else
    of the object changes. *)
Lemma valid_frame_reaches_reducer (f : can_frame) (b : ScoutBase) :
  carried_checksum f = computed_checksum f ->
  ParseCANFrame f b
  = Some (tt, with_scout_state
                (UpdateScoutState (UnpackScoutCANFrameToMsg f) (scout_state_ b)) b, []).
Proof.
  intros Heq. rewrite ParseCANFrame_drops_iff, <- Heq.
  destruct (carried_checksum f); reflexivity.
Qed.

End Receive.

(** The motion frame with its checksum byte 0x25 corrupted to 0x05 is
    let through, and moves the linear velocity from 0 to 1.0. *)
Lemma corrupted_frame_reaches_reducer_witness :
  computed_checksum (proto := scout_protocol) (motion_frame x05) = x25
  /\ option_map (fun b => linear_velocity (scout_state_ b))
       (object_after (ParseCANFrame (proto := scout_protocol) (motion_frame x05))
          can_ScoutBase)
     = Some 1%float
  /\ linear_velocity (scout_state_ can_ScoutBase) = 0%float.
Proof.
  split; [reflexivity |]. split; [| reflexivity].
  unfold object_after.
  rewrite (corrupted_frame_reaches_reducer (proto := scout_protocol)
             (motion_frame x05) can_ScoutBase);
    [reflexivity | discriminate | discriminate | discriminate].
Defined.

(** ** Doubles: comparison and truncation *)

Lemma SFcompare_refl (x : spec_float) : x <> S754_nan -> SFcompare x x = Some Eq.
Proof.
  destruct x as [s | s | | s m e]; cbn; try congruence.
  - intros _. destruct s; reflexivity.
  - intros _. rewrite Z.compare_refl, Pcompare_refl. destruct s; reflexivity.
Qed.

Lemma SFcompare_antisym (x y : spec_float) :
  SFcompare y x = option_map CompOpp (SFcompare x y).
Proof.
  destruct x as [sx | sx | | sx mx ex], y as [sy | sy | | sy my ey]; cbn;
    try reflexivity; try (destruct sx; reflexivity); try (destruct sy; reflexivity);
    try (destruct sx, sy; reflexivity).
  f_equal. rewrite (Z.compare_antisym ey ex).
  destruct sx, sy; try reflexivity; destruct (ey ?= ex); cbn; try reflexivity.
  - f_equal. apply ZC4.
  - apply ZC4.
Qed.

Lemma SFcompare_None (x y : spec_float) :
  SFcompare x y = None -> x = S754_nan \/ y = S754_nan.
Proof.
  destruct x as [sx | sx | | sx mx ex], y as [sy | sy | | sy my ey]; cbn;
    try discriminate; auto.
Qed.

Lemma ltb_irrefl (x : float) : (x <? x)%float = false.
Proof.
  rewrite ltb_spec. unfold SFltb.
  destruct (Prim2SF x) eqn:E; try reflexivity.
  - destruct s; reflexivity.
  - rewrite SFcompare_refl by discriminate. reflexivity.
Qed.

(** [b <= a] fails only when [a < b] or one of the two is a NaN. *)
Lemma leb_of_not_ltb (a b : float) :
  (a <? b)%float = false -> (a <=? a)%float = true -> (b <=? b)%float = true ->
  (b <=? a)%float = true.
Proof.
  rewrite ltb_spec, !leb_spec. unfold SFltb, SFleb.
  rewrite (SFcompare_antisym (Prim2SF a) (Prim2SF b)).
  destruct (SFcompare (Prim2SF a) (Prim2SF b)) as [[] |] eqn:E; cbn;
    try reflexivity; try discriminate.
  intros _ Ha Hb. apply SFcompare_None in E.
  destruct E as [E | E]; rewrite E in *; discriminate.
Qed.

Lemma not_ltb_of_leb (a b : float) : (a <=? b)%float = true -> (b <? a)%float = false.
Proof.
  rewrite ltb_spec, leb_spec. unfold SFltb, SFleb.
  rewrite (SFcompare_antisym (Prim2SF a) (Prim2SF b)).
  destruct (SFcompare (Prim2SF a) (Prim2SF b)) as [[] |]; cbn; congruence.
Qed.

Lemma leb_refl_l (a b : float) : (a <=? b)%float = true -> (a <=? a)%float = true.
Proof.
  rewrite !leb_spec. unfold SFleb.
  destruct (SFcompare (Prim2SF a) (Prim2SF b)) eqn:E; [| discriminate].
  intros _. rewrite SFcompare_refl; [reflexivity |].
  intros Hn. rewrite Hn in E. discriminate.
Qed.

Lemma leb_refl_r (a b : float) : (a <=? b)%float = true -> (b <=? b)%float = true.
Proof.
  rewrite !leb_spec. unfold SFleb.
  destruct (SFcompare (Prim2SF a) (Prim2SF b)) eqn:E; [| discriminate].
  intros _. rewrite SFcompare_refl; [reflexivity |].
  intros Hn. rewrite Hn in E. destruct (Prim2SF a); discriminate.
Qed.

(** The two comparisons saturate: with [lo <= hi], a value that is not a
    NaN is taken into [lo, hi], both ends included. *)
Lemma clamp_within (lo hi x : float) :
  (lo <=? hi)%float = true -> (x <=? x)%float = true ->
  (lo <=? clamp lo hi x)%float = true /\ (clamp lo hi x <=? hi)%float = true.
Proof.
  intros Hlh Hx. unfold clamp.
  pose proof (leb_refl_l _ _ Hlh) as Hlo. pose proof (leb_refl_r _ _ Hlh) as Hhi.
  destruct (x <? lo)%float eqn:E1.
  - rewrite (not_ltb_of_leb _ _ Hlh). auto.
  - destruct (hi <? x)%float eqn:E2.
    + auto.
    + split; apply leb_of_not_ltb; assumption.
Qed.

(** A NaN fails every comparison, and so passes through unclamped. *)
Lemma clamp_nan (lo hi x : float) : (x <=? x)%float = false -> clamp lo hi x = x.
Proof.
  intros E. unfold clamp.
  assert (Hn : Prim2SF x = S754_nan).
  { rewrite leb_spec in E. unfold SFleb in E.
    destruct (Prim2SF x) as [s | s | | s m e]; try reflexivity; exfalso.
    - discriminate E.
    - destruct s; discriminate E.
    - rewrite SFcompare_refl in E by discriminate. discriminate E. }
  assert (E1 : (x <? lo)%float = false) by (rewrite ltb_spec, Hn; reflexivity).
  assert (E2 : (hi <? x)%float = false).
  { rewrite ltb_spec, Hn. unfold SFltb. destruct (Prim2SF hi); reflexivity. }
  rewrite E1, E2. reflexivity.
Qed.

(** A value inside the range is stored as it is, one outside as the end
    it passed. *)
Lemma clamp_inside (lo hi x : float) :
  (x <? lo)%float = false -> (hi <? x)%float = false -> clamp lo hi x = x.
Proof. intros E1 E2. unfold clamp. rewrite E1, E2. reflexivity. Qed.

(** The number of binary digits of a mantissa. *)
Lemma digits2_pos_bounds (p : positive) :
  2 ^ (Z.pos (digits2_pos p) - 1) <= Z.pos p < 2 ^ Z.pos (digits2_pos p).
Proof.
  induction p as [p IH | p IH |]; cbn [digits2_pos].
  - rewrite Pos2Z.inj_succ. change (Z.pos p~1) with (2 * Z.pos p + 1).
    generalize (Pos2Z.is_pos (digits2_pos p)) IH.
    generalize (Z.pos (digits2_pos p)). intros d Hd IH'.
    replace (Z.succ d - 1) with (Z.succ (d - 1)) by lia.
    rewrite !Z.pow_succ_r by lia. lia.
  - rewrite Pos2Z.inj_succ. change (Z.pos p~0) with (2 * Z.pos p).
    generalize (Pos2Z.is_pos (digits2_pos p)) IH.
    generalize (Z.pos (digits2_pos p)). intros d Hd IH'.
    replace (Z.succ d - 1) with (Z.succ (d - 1)) by lia.
    rewrite !Z.pow_succ_r by lia. lia.
  - cbn. lia.
Qed.

(** Shifting a mantissa right by one bit halves it, keeps the bit shifted
    out as the round bit and folds the earlier bits into the sticky bit. *)
Lemma shr_1_spec (m : Z) (r s : bool) :
  0 <= m ->
  shr_1 {| shr_m := m; shr_r := r; shr_s := s |}
  = {| shr_m := m / 2; shr_r := Z.odd m; shr_s := r || s |}.
Proof.
  intros Hm. rewrite <- Z.div2_div.
  destruct m as [| p | p]; [reflexivity | | lia].
  destruct p; reflexivity.
Qed.

Lemma iter_pos_nat {A : Type} (f : A -> A) (p : positive) :
  forall x, SpecFloat.iter_pos f p x = Nat.iter (Pos.to_nat p) f x.
Proof.
  induction p as [p IH | p IH |]; intros x; cbn [SpecFloat.iter_pos].
  - rewrite !IH. rewrite Pos2Nat.inj_xI.
    replace (S (2 * Pos.to_nat p))%nat with (Pos.to_nat p + (Pos.to_nat p + 1))%nat by lia.
    rewrite !Nat.iter_add. reflexivity.
  - rewrite !IH. rewrite Pos2Nat.inj_xO.
    replace (2 * Pos.to_nat p)%nat with (Pos.to_nat p + Pos.to_nat p)%nat by lia.
    rewrite Nat.iter_add. reflexivity.
  - reflexivity.
Qed.

Lemma mod_pow2_succ (m k : Z) :
  0 <= k ->
  (m mod 2 ^ (k + 1) = 0 <-> m mod 2 ^ k = 0 /\ Z.odd (m / 2 ^ k) = false).
Proof.
  intros Hk. rewrite Z.pow_add_r, Z.pow_1_r by lia.
  assert (Hp : 0 < 2 ^ k) by (apply Z.pow_pos_nonneg; lia).
  rewrite Z.rem_mul_r by lia.
  pose proof (Z.mod_pos_bound m (2 ^ k) Hp).
  rewrite Zmod_odd. destruct (Z.odd (m / 2 ^ k)).
  - split; [intros; lia | intros [_ ?]; discriminate].
  - split; [intros; split; [lia | reflexivity] | intros [-> _]; lia].
Qed.

Lemma shr_iter_spec (k : nat) (m : Z) (r s : bool) :
  0 <= m ->
  shr_m (Nat.iter k shr_1 {| shr_m := m; shr_r := r; shr_s := s |}) = m / 2 ^ Z.of_nat k
  /\ (shr_r (Nat.iter k shr_1 {| shr_m := m; shr_r := r; shr_s := s |}) = false
      /\ shr_s (Nat.iter k shr_1 {| shr_m := m; shr_r := r; shr_s := s |}) = false
      <-> m mod 2 ^ Z.of_nat k = 0 /\ r = false /\ s = false).
Proof.
  intros Hm. induction k as [| k [IHm IHx]].
  - cbn. rewrite Z.div_1_r, Z.mod_1_r. tauto.
  - rewrite !Nat.iter_succ.
    destruct (Nat.iter k shr_1 {| shr_m := m; shr_r := r; shr_s := s |}) as [mk rk sk].
    cbn [shr_m shr_r shr_s] in *.
    assert (Hp : 0 < 2 ^ Z.of_nat k) by (apply Z.pow_pos_nonneg; lia).
    assert (Hmk : 0 <= mk) by (subst mk; apply Z.div_pos; lia).
    rewrite shr_1_spec by exact Hmk. cbn [shr_m shr_r shr_s].
    rewrite Nat2Z.inj_succ, <- Z.add_1_r. split.
    + subst mk. rewrite Z.div_div by lia. rewrite Z.pow_add_r, Z.pow_1_r by lia. reflexivity.
    + rewrite mod_pow2_succ by lia. rewrite orb_false_iff, <- IHm. tauto.
Qed.

(** Shifting right by [n] bits divides the mantissa by [2 ^ n]; the
    result is exact only if nothing but zeros was shifted out. *)
Lemma shr_spec (m : Z) (l : location) (e n : Z) :
  0 <= m ->
  snd (shr (shr_record_of_loc m l) e n) = e + Z.max n 0
  /\ shr_m (fst (shr (shr_record_of_loc m l) e n)) = m / 2 ^ Z.max n 0
  /\ (loc_of_shr_record (fst (shr (shr_record_of_loc m l) e n)) = loc_Exact
      <-> l = loc_Exact /\ m mod 2 ^ Z.max n 0 = 0).
Proof.
  intros Hm. destruct n as [| p | p]; cbn [shr fst snd].
  - change (Z.max 0 0) with 0. rewrite Z.pow_0_r, Z.div_1_r, Z.mod_1_r.
    split; [lia |]. split; [destruct l as [| []]; reflexivity |].
    destruct l as [| []]; cbn; intuition (congruence || discriminate).
  - rewrite Z.max_l by lia. rewrite iter_pos_nat.
    assert (Hrec : shr_record_of_loc m l
                   = {| shr_m := m;
                        shr_r := shr_r (shr_record_of_loc m l);
                        shr_s := shr_s (shr_record_of_loc m l) |})
      by (destruct l as [| []]; reflexivity).
    rewrite Hrec.
    destruct (shr_iter_spec (Pos.to_nat p) m (shr_r (shr_record_of_loc m l))
                (shr_s (shr_record_of_loc m l)) Hm) as [H1 H2].
    rewrite positive_nat_Z in H1, H2.
    split; [reflexivity |]. split; [exact H1 |].
    destruct (Nat.iter (Pos.to_nat p) shr_1 _) as [mk rk sk]. cbn [shr_r shr_s] in H2.
    assert (Hl : l = loc_Exact
                 <-> shr_r (shr_record_of_loc m l) = false
                     /\ shr_s (shr_record_of_loc m l) = false)
      by (destruct l as [| []]; cbn; intuition (congruence || discriminate)).
    cbn [loc_of_shr_record].
    destruct rk, sk; cbn; intuition (congruence || discriminate).
  - change (Z.max (Z.neg p) 0) with 0. rewrite Z.pow_0_r, Z.div_1_r, Z.mod_1_r.
    split; [lia |]. split; [destruct l as [| []]; reflexivity |].
    destruct l as [| []]; cbn; intuition (congruence || discriminate).
Qed.

(** Rounding moves the mantissa up by at most one, and not at all when
    it is exact. *)
Lemma round_nearest_even_bounds (m : Z) (l : location) :
  m <= round_nearest_even m l <= m + 1
  /\ (l = loc_Exact -> round_nearest_even m l = m).
Proof.
  destruct l as [| []]; cbn; try destruct (Z.even m); split; try lia; try reflexivity;
    intros; discriminate.
Qed.

(** A number below a canonical double has at most its exponent. *)
Lemma fexp_digits_le (m e : Z) (mB : positive) (eB : Z) :
  0 <= m -> e <= eB ->
  canonical_mantissa prec emax mB eB = true ->
  m <= Z.pos mB * 2 ^ (eB - e) ->
  fexp prec emax (Zdigits2 m + e) <= eB.
Proof.
  intros Hm He Hcan Hle.
  unfold canonical_mantissa in Hcan. apply Z.eqb_eq in Hcan.
  unfold fexp, emin in *. change prec with 53 in *. change emax with 1024 in *.
  destruct m as [| p | p]; [cbn [Zdigits2]; lia | | lia].
  cbn [Zdigits2].
  pose proof (digits2_pos_bounds p) as [Hp _].
  pose proof (digits2_pos_bounds mB) as [_ HB].
  pose proof (Pos2Z.is_pos (digits2_pos p)).
  pose proof (Pos2Z.is_pos (digits2_pos mB)).
  assert (Hlt : 2 ^ (Z.pos (digits2_pos p) - 1)
                < 2 ^ (Z.pos (digits2_pos mB) + (eB - e))).
  { rewrite Z.pow_add_r by lia.
    assert (0 < 2 ^ (eB - e)) by (apply Z.pow_pos_nonneg; lia).
    nia. }
  apply Z.pow_lt_mono_r_iff in Hlt; lia.
Qed.

Lemma canonical_emin (mB : positive) (eB : Z) :
  canonical_mantissa prec emax mB eB = true -> -1074 <= eB.
Proof.
  unfold canonical_mantissa, fexp, emin. change prec with 53. change emax with 1024.
  intros H. apply Z.eqb_eq in H. lia.
Qed.

(** Rounding to nearest never crosses a double: a value that is at most
    a given double rounds to at most that double. *)
Lemma binary_round_aux_le (mx ex : Z) (lx : location) (mB : positive) (eB : Z) :
  0 <= mx -> ex <= eB ->
  bounded prec emax mB eB = true ->
  upper_mantissa mx lx <= Z.pos mB * 2 ^ (eB - ex) ->
  binary_round_aux prec emax false mx ex lx = S754_zero false
  \/ exists m e,
       binary_round_aux prec emax false mx ex lx = S754_finite false m e
       /\ e <= eB /\ Z.pos m <= Z.pos mB * 2 ^ (eB - e).
Proof.
  intros Hmx Hex Hbnd HU.
  unfold bounded in Hbnd. apply andb_prop in Hbnd as [Hcan Hemax].
  apply Z.leb_le in Hemax.
  unfold binary_round_aux, shr_fexp.
  set (n := fexp prec emax (Zdigits2 mx + ex) - ex).
  destruct (shr_spec mx lx ex n Hmx) as (He' & Hm' & Hloc').
  destruct (shr (shr_record_of_loc mx lx) ex n) as [mrs' e']. cbn [fst snd] in *.
  set (m' := shr_m mrs') in *. set (loc' := loc_of_shr_record mrs') in *.
  set (m1 := round_nearest_even m' loc').
  destruct (round_nearest_even_bounds m' loc') as [Hm1 Hm1x]. fold m1 in Hm1, Hm1x.
  assert (HN : 0 < 2 ^ Z.max n 0) by (apply Z.pow_pos_nonneg; lia).
  assert (Hm'0 : 0 <= m') by (rewrite Hm'; apply Z.div_pos; lia).
  (* the exponent stays below the bound's *)
  assert (He'B : e' <= eB).
  { destruct (Z.le_gt_cases n 0) as [Hn | Hn].
    - rewrite Z.max_r in He' by lia. lia.
    - rewrite Z.max_l in He' by lia. subst e' n.
      replace (ex + (fexp prec emax (Zdigits2 mx + ex) - ex))
        with (fexp prec emax (Zdigits2 mx + ex)) by lia.
      apply (fexp_digits_le mx ex mB eB); try assumption.
      destruct lx; cbn [upper_mantissa] in HU; lia. }
  (* the rounded mantissa stays below the bound *)
  assert (Hsplit : Z.pos mB * 2 ^ (eB - ex) = Z.pos mB * 2 ^ (eB - e') * 2 ^ Z.max n 0).
  { rewrite <- Z.mul_assoc, <- Z.pow_add_r by lia. do 2 f_equal. lia. }
  assert (Hbeta : 0 < 2 ^ (eB - e')) by (apply Z.pow_pos_nonneg; lia).
  assert (Hm1B : m1 <= Z.pos mB * 2 ^ (eB - e')).
  { pose proof (Z.div_mod mx (2 ^ Z.max n 0) ltac:(lia)) as Hdm.
    pose proof (Z.mod_pos_bound mx (2 ^ Z.max n 0) HN) as Hmod.
    rewrite <- Hm' in Hdm. rewrite Hsplit in HU.
    set (beta := Z.pos mB * 2 ^ (eB - e')) in *.
    set (N := 2 ^ Z.max n 0) in *.
    destruct loc' eqn:Eloc.
    - rewrite Hm1x by reflexivity.
      destruct (proj1 Hloc' eq_refl) as [-> Hz]. cbn [upper_mantissa] in HU. nia.
    - assert (Hne : ~ (lx = loc_Exact /\ mx mod N = 0)).
      { intros Hc. apply Hloc' in Hc. discriminate Hc. }
      destruct lx as [| c0]; cbn [upper_mantissa] in HU.
      + assert (mx mod N <> 0) by tauto. nia.
      + nia. }
  (* the second shift only lowers the mantissa *)
  assert (Hm10 : 0 <= m1) by lia.
  set (n2 := fexp prec emax (Zdigits2 m1 + e') - e').
  destruct (shr_spec m1 loc_Exact e' n2 Hm10) as (He'' & Hm'' & _).
  destruct (shr (shr_record_of_loc m1 loc_Exact) e' n2) as [mrs'' e'']. cbn [fst snd] in *.
  assert (HN2 : 0 < 2 ^ Z.max n2 0) by (apply Z.pow_pos_nonneg; lia).
  assert (He''B : e'' <= eB).
  { destruct (Z.le_gt_cases n2 0) as [Hn | Hn].
    - rewrite Z.max_r in He'' by lia. lia.
    - rewrite Z.max_l in He'' by lia. subst e'' n2.
      replace (e' + (fexp prec emax (Zdigits2 m1 + e') - e'))
        with (fexp prec emax (Zdigits2 m1 + e')) by lia.
      apply (fexp_digits_le m1 e' mB eB); assumption. }
  assert (Hm''B : shr_m mrs'' <= Z.pos mB * 2 ^ (eB - e'')).
  { rewrite Hm''.
    assert (Hs2 : Z.pos mB * 2 ^ (eB - e') = Z.pos mB * 2 ^ (eB - e'') * 2 ^ Z.max n2 0).
    { rewrite <- Z.mul_assoc, <- Z.pow_add_r by lia. do 2 f_equal. lia. }
    rewrite Hs2 in Hm1B.
    apply Z.div_le_upper_bound; [lia |]. lia. }
  assert (Hm''0 : 0 <= shr_m mrs'') by (rewrite Hm''; apply Z.div_pos; lia).
  destruct (shr_m mrs'') as [| m | m]; [left; reflexivity | | lia].
  right. exists m, e''.
  replace (e'' <=? emax - prec) with true
    by (symmetry; apply Z.leb_le; lia).
  repeat split; assumption.
Qed.

Lemma new_location_upper (nb q r : Z) :
  upper_mantissa q (new_location nb r) = if r =? 0 then q else q + 1.
Proof.
  unfold new_location, new_location_even, new_location_odd.
  destruct (Z.even nb); destruct (r =? 0); reflexivity.
Qed.

(** The quotient of two positive doubles, the dividend at most the
    divisor, is at most one. *)
Lemma SFdiv_le_one (mc : positive) (ec : Z) (mm : positive) (em : Z) :
  ec <= em -> Z.pos mc <= Z.pos mm * 2 ^ (em - ec) ->
  SFdiv prec emax (S754_finite false mc ec) (S754_finite false mm em) = S754_zero false
  \/ exists my ey,
       SFdiv prec emax (S754_finite false mc ec) (S754_finite false mm em)
       = S754_finite false my ey
       /\ ey <= -52 /\ Z.pos my <= 2 ^ (- ey).
Proof.
  intros Hec Hle. cbn [SFdiv xorb]. unfold SFdiv_core_binary. cbn [Zdigits2].
  set (d1 := Z.pos (digits2_pos mc)). set (d2 := Z.pos (digits2_pos mm)).
  set (e' := Z.min (fexp prec emax (d1 + ec - (d2 + em))) (ec - em)).
  set (s := ec - em - e').
  assert (Hmag : d1 + ec <= d2 + em).
  { pose proof (digits2_pos_bounds mc) as [Hp _].
    pose proof (digits2_pos_bounds mm) as [_ HB].
    fold d1 in Hp. fold d2 in HB.
    assert (0 < d1) by (unfold d1; apply Pos2Z.is_pos).
    assert (0 < d2) by (unfold d2; apply Pos2Z.is_pos).
    assert (Hlt : 2 ^ (d1 - 1) < 2 ^ (d2 + (em - ec))).
    { rewrite Z.pow_add_r by lia.
      assert (0 < 2 ^ (em - ec)) by (apply Z.pow_pos_nonneg; lia). nia. }
    apply Z.pow_lt_mono_r_iff in Hlt; lia. }
  assert (He' : e' <= -53).
  { unfold e', fexp, emin. change prec with 53. change emax with 1024. lia. }
  assert (Hs : 0 <= s) by (unfold s, e'; lia).
  assert (Hm' : match s with
                | 0 => Z.pos mc
                | Z.pos _ => Z.shiftl (Z.pos mc) s
                | Z.neg _ => 0
                end = Z.pos mc * 2 ^ s).
  { destruct s as [| p | p]; [rewrite Z.pow_0_r; lia | | lia].
    apply Z.shiftl_mul_pow2. lia. }
  rewrite Hm'.
  pose proof (Z_div_mod (Z.pos mc * 2 ^ s) (Z.pos mm) ltac:(lia)) as Hdm.
  destruct (Z.div_eucl (Z.pos mc * 2 ^ s) (Z.pos mm)) as [q r].
  destruct Hdm as [Hdm Hr].
  assert (Hpow : 0 < 2 ^ s) by (apply Z.pow_pos_nonneg; lia).
  assert (Hq : 0 <= q) by nia.
  assert (Hnum : Z.pos mc * 2 ^ s <= Z.pos mm * 2 ^ (- e')).
  { replace (- e') with (em - ec + s) by (unfold s; lia).
    rewrite Z.pow_add_r by lia. nia. }
  assert (Hpe : 0 < 2 ^ (- e')) by (apply Z.pow_pos_nonneg; lia).
  destruct (binary_round_aux_le q e' (new_location (Z.pos mm) r)
              4503599627370496 (-52) Hq ltac:(lia) eq_refl) as [Hz | (my & ey & Hy & Hey & Hmy)].
  - rewrite new_location_upper.
    replace (Z.pos 4503599627370496 * 2 ^ (-52 - e')) with (2 ^ (- e')).
    + destruct (Z.eqb_spec r 0); nia.
    + change (Z.pos 4503599627370496) with (2 ^ 52).
      rewrite <- Z.pow_add_r by lia. f_equal. lia.
  - left. exact Hz.
  - right. exists my, ey. split; [exact Hy |]. split; [exact Hey |].
    replace (2 ^ (- ey)) with (Z.pos 4503599627370496 * 2 ^ (-52 - ey)); [exact Hmy |].
    change (Z.pos 4503599627370496) with (2 ^ 52).
    rewrite <- Z.pow_add_r by lia. f_equal. lia.
Qed.

(** One hundred times a double that is at most one is at most one
    hundred. *)
Lemma SFmul_100_le (my : positive) (ey : Z) :
  ey <= -52 -> Z.pos my <= 2 ^ (- ey) ->
  SFmul prec emax (S754_finite false my ey) (S754_finite false 7036874417766400 (-46))
  = S754_zero false
  \/ exists mz ez,
       SFmul prec emax (S754_finite false my ey) (S754_finite false 7036874417766400 (-46))
       = S754_finite false mz ez
       /\ ez <= -46 /\ Z.pos mz <= 7036874417766400 * 2 ^ (-46 - ez).
Proof.
  intros Hey Hmy. cbn [SFmul xorb].
  apply (binary_round_aux_le (Z.pos (my * 7036874417766400)) (ey + -46) loc_Exact
           7036874417766400 (-46)); [lia | lia | reflexivity |].
  cbn [upper_mantissa]. rewrite Pos2Z.inj_mul.
  replace (-46 - (ey + -46)) with (- ey) by lia.
  assert (0 < 2 ^ (- ey)) by (apply Z.pow_pos_nonneg; lia). nia.
Qed.

(** The comparison of two positive doubles, read on their mantissas. *)
Lemma SFleb_finite (mc : positive) (ec : Z) (mm : positive) (em : Z) :
  valid_binary (S754_finite false mc ec) = true ->
  valid_binary (S754_finite false mm em) = true ->
  SFleb (S754_finite false mc ec) (S754_finite false mm em) = true ->
  ec <= em /\ Z.pos mc <= Z.pos mm * 2 ^ (em - ec).
Proof.
  unfold valid_binary. cbn [SpecFloat.valid_binary].
  unfold bounded, canonical_mantissa, fexp, emin.
  change prec with 53. change emax with 1024.
  intros Hc Hm. apply andb_prop in Hc as [Hc _]. apply andb_prop in Hm as [Hm _].
  apply Z.eqb_eq in Hc, Hm.
  unfold SFleb. cbn [SFcompare].
  destruct (Z.compare_spec ec em) as [Heq | Hlt | Hgt].
  - subst em. rewrite Z.sub_diag, Z.pow_0_r, Z.mul_1_r. intros Hcmp. split; [lia |].
    change (Pos.compare_cont Eq mc mm) with (Pos.compare mc mm) in Hcmp.
    destruct (Pos.compare_spec mc mm) as [E | E | E];
      [subst; lia | lia | discriminate Hcmp].
  - intros _. split; [lia |].
    pose proof (digits2_pos_bounds mc) as [_ H1].
    pose proof (digits2_pos_bounds mm) as [H2 _].
    pose proof (Pos2Z.is_pos (digits2_pos mc)).
    assert (Hd2 : Z.pos (digits2_pos mm) = 53) by lia.
    rewrite Hd2 in H2. change (2 ^ (53 - 1)) with 4503599627370496 in H2.
    assert (Hd1 : Z.pos (digits2_pos mc) <= 53) by lia.
    assert (H1' : Z.pos mc < 2 ^ 53).
    { eapply Z.lt_le_trans; [exact H1 |]. apply Z.pow_le_mono_r; lia. }
    change (2 ^ 53) with 9007199254740992 in H1'.
    assert (2 ^ 1 <= 2 ^ (em - ec)) by (apply Z.pow_le_mono_r; lia).
    change (2 ^ 1) with 2 in *. nia.
  - discriminate.
Qed.


Lemma SFtrunc_le_100 (mz : positive) (ez : Z) :
  ez <= -46 -> Z.pos mz <= 7036874417766400 * 2 ^ (-46 - ez) ->
  exists l, SFtrunc (S754_finite false mz ez) = Some l /\ 0 <= l <= 100.
Proof.
  intros Hez Hmz. cbn [SFtrunc].
  replace (0 <=? ez) with false by (symmetry; apply Z.leb_gt; lia).
  eexists. split; [reflexivity |].
  rewrite Z.shiftr_div_pow2 by lia.
  assert (Hp : 0 < 2 ^ (- ez)) by (apply Z.pow_pos_nonneg; lia).
  split; [apply Z.div_pos; lia |].
  apply Z.div_le_upper_bound; [lia |].
  replace (- ez) with (-46 - ez + 46) by lia.
  rewrite Z.pow_add_r by lia. change (2 ^ 46) with 70368744177664.
  assert (0 < 2 ^ (-46 - ez)) by (apply Z.pow_pos_nonneg; lia). nia.
Qed.

(** The scaling of a non-negative double that is at most the positive,
    finite maximum converts to an integer between 0 and 100. *)
Lemma scaled_percent_bound (c m : float) :
  (0 <=? c)%float = true -> (c <=? m)%float = true ->
  (0 <? m)%float = true -> (m <? infinity)%float = true ->
  exists l, static_cast_uint8 (c / m * 100)%float = Some l /\ 0 <= l <= 100.
Proof.
  intros Hc0 Hcm Hm0 Hminf.
  pose proof (Prim2SF_valid c) as Hvc. pose proof (Prim2SF_valid m) as Hvm.
  unfold static_cast_uint8. rewrite mul_spec, div_spec.
  rewrite leb_spec in Hc0, Hcm. rewrite ltb_spec in Hm0, Hminf.
  change (Prim2SF 0) with (S754_zero false) in *.
  change (Prim2SF infinity) with (S754_infinity false) in *.
  change (Prim2SF 100) with (S754_finite false 7036874417766400 (-46)).
  unfold SF64mul, SF64div.
  unfold SFltb, SFleb in Hc0, Hcm, Hm0, Hminf.
  destruct (Prim2SF m) as [sm | sm | | sm mm em]; cbn in Hm0, Hminf;
    try discriminate Hm0; try (destruct sm; discriminate).
  destruct sm; [discriminate Hm0 |].
  destruct (Prim2SF c) as [sc | sc | | sc mc ec]; cbn in Hc0; try discriminate Hc0.
  - exists 0. destruct sc; cbn; split; (reflexivity || lia).
  - destruct sc; [discriminate Hc0 | discriminate Hcm].
  - destruct sc; [discriminate Hc0 |].
    fold (SFleb (S754_finite false mc ec) (S754_finite false mm em)) in Hcm.
    destruct (SFleb_finite mc ec mm em Hvc Hvm Hcm) as [Hec Hle].
    destruct (SFdiv_le_one mc ec mm em Hec Hle) as [-> | (my & ey & -> & Hey & Hmy)].
    + exists 0. cbn. split; [reflexivity | lia].
    + destruct (SFmul_100_le my ey Hey Hmy) as [-> | (mz & ez & -> & Hez & Hmz)].
      * exists 0. cbn. split; [reflexivity | lia].
      * destruct (SFtrunc_le_100 mz ez Hez Hmz) as (l & -> & Hl).
        exists l. replace ((0 <=? l) && (l <=? 255)) with true; [split; [reflexivity | lia] |].
        symmetry. apply andb_true_intro. split; apply Z.leb_le; lia.
Qed.

Lemma leb_nonneg_of_ltb (x lo : float) :
  (0 <=? x)%float = true -> (x <? lo)%float = true -> (0 <=? lo)%float = true.
Proof.
  rewrite !leb_spec, ltb_spec. change (Prim2SF 0) with (S754_zero false).
  unfold SFleb, SFltb.
  destruct (Prim2SF x) as [sx | sx | | sx mx ex], (Prim2SF lo) as [sl | sl | | sl ml el];
    cbn; try discriminate; try reflexivity;
    try (destruct sx; discriminate); try (destruct sl; discriminate);
    try (destruct sx, sl; cbn; try discriminate; reflexivity).
Qed.

Lemma leb_of_ltb (a b : float) : (a <? b)%float = true -> (a <=? b)%float = true.
Proof.
  rewrite leb_spec, ltb_spec. unfold SFleb, SFltb.
  destruct (SFcompare (Prim2SF a) (Prim2SF b)) as [[] |]; congruence.
Qed.

Lemma clamp_nonneg (lo hi x : float) :
  (0 <=? x)%float = true -> (0 <? hi)%float = true -> (0 <=? clamp lo hi x)%float = true.
Proof.
  intros Hx Hhi. unfold clamp.
  destruct (x <? lo)%float eqn:E1.
  - destruct (hi <? lo)%float; [apply leb_of_ltb, Hhi |].
    exact (leb_nonneg_of_ltb x lo Hx E1).
  - destruct (hi <? x)%float; [apply leb_of_ltb, Hhi | exact Hx].
Qed.

Lemma SFtrunc_Qtruncate (x : spec_float) (q : Q) :
  SF2Q x = Some q -> SFtrunc x = Some (Qtruncate q).
Proof.
  destruct x as [s | s | | s m e]; cbn; try discriminate.
  - intros [= <-]. reflexivity.
  - intros [= <-]. f_equal. destruct (Z.leb_spec 0 e) as [He | He].
    + unfold Qtruncate. cbn. rewrite Z.quot_1_r, Z.shiftl_mul_pow2 by lia.
      destruct s; lia.
    + assert (Hp : 0 < 2 ^ (- e)) by (apply Z.pow_pos_nonneg; lia).
      unfold Qtruncate. cbn. rewrite Z2Pos.id by lia.
      rewrite Z.shiftr_div_pow2 by lia.
      destruct s.
      * change (Z.neg m) with (- Z.pos m). rewrite Z.quot_opp_l by lia.
        rewrite Z.quot_div_nonneg by lia. reflexivity.
      * rewrite Z.quot_div_nonneg by lia. reflexivity.
Qed.

Lemma SFtrunc_finite (x : spec_float) (n : Z) :
  SFtrunc x = Some n -> exists q, SF2Q x = Some q /\ n = Qtruncate q.
Proof.
  intros Hn. destruct (SF2Q x) as [q |] eqn:Hq.
  - exists q. split; [reflexivity |]. apply SFtrunc_Qtruncate in Hq. congruence.
  - destruct x; cbn in *; discriminate.
Qed.

(** [static_cast<uint8_t>] of a double, where it is defined, is the
    truncation of its value towards zero. *)
Lemma static_cast_uint8_truncates (x : float) (n : Z) :
  static_cast_uint8 x = Some n -> truncate_double x = Some n /\ 0 <= n <= 255.
Proof.
  unfold static_cast_uint8, truncate_double.
  destruct (SFtrunc (Prim2SF x)) as [k |] eqn:Hk; [| discriminate].
  destruct (Z.leb_spec 0 k); [| discriminate].
  destruct (Z.leb_spec k 255); [| discriminate].
  cbn. intros [= <-]. apply SFtrunc_finite in Hk as (q & -> & ->). cbn. split; [reflexivity | lia].
Qed.

(** A NaN stays one through the scaling, and has no conversion. *)
Lemma static_cast_uint8_nan (x m : float) :
  (x <=? x)%float = false -> static_cast_uint8 (x / m * 100)%float = None.
Proof.
  intros Hx. unfold static_cast_uint8.
  rewrite mul_spec, div_spec.
  assert (Hn : Prim2SF x = S754_nan).
  { rewrite leb_spec in Hx. unfold SFleb in Hx.
    destruct (Prim2SF x) as [s | s | | s mx e] eqn:E; try reflexivity; exfalso.
    - discriminate Hx.
    - destruct s; discriminate Hx.
    - rewrite SFcompare_refl in Hx by discriminate. discriminate Hx. }
  rewrite Hn. reflexivity.
Qed.

(** ** The motion command setter *)

Section MotionCommand.
Context `{limits : ScoutLimits}.

(** [SetMotionCommand] in one step: it is defined when both conversions
    are, starts the command thread unless it runs already, and stores the
    two converted percentages and the flag. *)
Lemma SetMotionCommand_unfold (linear_vel angular_vel : float) (flag : FaultClearFlag)
    (b : ScoutBase) :
  SetMotionCommand linear_vel angular_vel flag b
  = match static_cast_uint8
            (percent min_linear_velocity max_linear_velocity max_linear_velocity linear_vel),
          static_cast_uint8
            (percent min_angular_velocity max_angular_velocity max_angular_velocity angular_vel)
    with
    | Some l, Some a =>
        Some (tt,
              with_motion_cmd
                {| ScoutMotionCmd.linear_velocity := static_cast_int8 l;
                   ScoutMotionCmd.angular_velocity := static_cast_int8 a;
                   ScoutMotionCmd.fault_clear_flag := flag |}
                (if cmd_thread_started_ b then b else with_cmd_thread_started true b),
              if cmd_thread_started_ b then [] else [ThreadStart (cmd_thread_period_ms_ b)])
    | _, _ => None
    end.
Proof.
  unfold SetMotionCommand, StartCmdThread, to_uint8, percent.
  destruct b as [ci si cc sc ts tp mc lc le lr st].
  unfold mbind, M_bind, mret, M_ret, this, update, act, undefined; cbn.
  destruct ts; cbn;
    destruct (static_cast_uint8 _) as [l |]; cbn; try reflexivity;
    destruct (static_cast_uint8 _) as [a |]; cbn; reflexivity.
Qed.

(** One velocity: with the maximum positive and finite and the minimum at
    most the maximum, a non-negative velocity is clamped into the range
    and its percentage converts to an integer between 0 and 100, the
    integer part of the scaled double. *)
Lemma percent_of_nonneg (lo hi x : float) :
  (0 <? hi)%float = true -> (hi <? infinity)%float = true ->
  (lo <=? hi)%float = true -> (0 <=? x)%float = true ->
  (lo <=? clamp lo hi x)%float = true
  /\ (clamp lo hi x <=? hi)%float = true
  /\ exists l,
       static_cast_uint8 (clamp lo hi x / hi * 100)%float = Some l
       /\ truncate_double (clamp lo hi x / hi * 100)%float = Some l
       /\ 0 <= l <= 100.
Proof.
  intros Hhi Hfin Hlh Hx.
  destruct (clamp_within lo hi x Hlh (leb_refl_r _ _ Hx)) as [H1 H2].
  split; [exact H1 |]. split; [exact H2 |].
  destruct (scaled_percent_bound (clamp lo hi x) hi (clamp_nonneg lo hi x Hx Hhi) H2 Hhi Hfin)
    as (l & Hl & Hr).
  exists l. split; [exact Hl |]. split; [| exact Hr].
  apply static_cast_uint8_truncates in Hl. tauto.
Qed.

Lemma static_cast_int8_small (l : Z) : 0 <= l <= 100 -> static_cast_int8 l = l.
Proof. intros Hl. unfold static_cast_int8. rewrite Z.mod_small; lia. Qed.

(** C2, as the code has it. With each maximum positive and finite and
    each minimum at most its maximum, [SetMotionCommand] is defined for
    every pair of non-negative velocities; it takes each into its range,
    both ends included, and stores for each the integer part towards zero
    of the double [clamped / max * 100], an integer between 0 and 100, not
    that double rounded to the nearest integer. *)
Theorem SetMotionCommand_stores_truncated_percent
    (linear_vel angular_vel : float) (flag : FaultClearFlag) (b : ScoutBase) :
  limits_in_order ->
  (0 <=? linear_vel)%float = true ->
  (0 <=? angular_vel)%float = true ->
  exists b' t l a,
    SetMotionCommand linear_vel angular_vel flag b = Some (tt, b', t)
    /\ (min_linear_velocity
        <=? clamp min_linear_velocity max_linear_velocity linear_vel)%float = true
    /\ (clamp min_linear_velocity max_linear_velocity linear_vel
        <=? max_linear_velocity)%float = true
    /\ (min_angular_velocity
        <=? clamp min_angular_velocity max_angular_velocity angular_vel)%float = true
    /\ (clamp min_angular_velocity max_angular_velocity angular_vel
        <=? max_angular_velocity)%float = true
    /\ truncate_double
         (clamp min_linear_velocity max_linear_velocity linear_vel
          / max_linear_velocity * 100)%float = Some l
    /\ truncate_double
         (clamp min_angular_velocity max_angular_velocity angular_vel
          / max_angular_velocity * 100)%float = Some a
    /\ 0 <= l <= 100 /\ 0 <= a <= 100
    /\ ScoutMotionCmd.linear_velocity (current_motion_cmd_ b') = l
    /\ ScoutMotionCmd.angular_velocity (current_motion_cmd_ b') = a
    /\ ScoutMotionCmd.fault_clear_flag (current_motion_cmd_ b') = flag.
Proof.
  intros (Hl0 & Hlf & Hlo & Ha0 & Haf & Hao) Hx Hy.
  destruct (percent_of_nonneg _ _ _ Hl0 Hlf Hlo Hx) as (Hl1 & Hl2 & l & Hl & Hlt & Hlr).
  destruct (percent_of_nonneg _ _ _ Ha0 Haf Hao Hy) as (Ha1 & Ha2 & a & Ha & Hat & Har).
  eexists _, _, l, a. split.
  { rewrite SetMotionCommand_unfold. unfold percent. rewrite Hl, Ha. reflexivity. }
  repeat (split; [assumption || lia |]).
  cbn. rewrite (static_cast_int8_small l Hlr), (static_cast_int8_small a Har). auto.
Qed.

(** Non-negative velocities have defined conversions. *)
Lemma nonneg_conversions_defined (linear_vel angular_vel : float) :
  limits_in_order ->
  (0 <=? linear_vel)%float = true -> (0 <=? angular_vel)%float = true ->
  conversions_defined linear_vel angular_vel.
Proof.
  intros (Hl0 & Hlf & Hlo & Ha0 & Haf & Hao) Hx Hy.
  destruct (percent_of_nonneg _ _ _ Hl0 Hlf Hlo Hx) as (_ & _ & l & Hl & _).
  destruct (percent_of_nonneg _ _ _ Ha0 Haf Hao Hy) as (_ & _ & a & Ha & _).
  split; eexists; eassumption.
Qed.

(** The setter is defined exactly when both conversions are. *)
Lemma SetMotionCommand_defined_iff (linear_vel angular_vel : float) (flag : FaultClearFlag)
    (b : ScoutBase) :
  is_Some (SetMotionCommand linear_vel angular_vel flag b)
  <-> conversions_defined linear_vel angular_vel.
Proof.
  rewrite SetMotionCommand_unfold. unfold conversions_defined, percent.
  destruct (static_cast_uint8 _) as [l |]; destruct (static_cast_uint8 _) as [a |];
    split; try (intros [? [=]]); try (intros [[? [=]] [? [=]]]); eauto.
Qed.

End MotionCommand.

(** One metre per second of a maximum of 1.5: the scaled double is
    66.66..., the stored integer 66. *)
Lemma SetMotionCommand_stores_truncated_percent_witness :
  exists b' t l a,
    SetMotionCommand (limits := scout_limits) 1 0 x00 fresh_ScoutBase = Some (tt, b', t)
    /\ (-1.5 <=? clamp (-1.5) 1.5 1)%float = true
    /\ (clamp (-1.5) 1.5 1 <=? 1.5)%float = true
    /\ (-0.5 <=? clamp (-0.5) 0.5 0)%float = true
    /\ (clamp (-0.5) 0.5 0 <=? 0.5)%float = true
    /\ truncate_double (clamp (-1.5) 1.5 1 / 1.5 * 100)%float = Some l
    /\ truncate_double (clamp (-0.5) 0.5 0 / 0.5 * 100)%float = Some a
    /\ 0 <= l <= 100 /\ 0 <= a <= 100
    /\ ScoutMotionCmd.linear_velocity (current_motion_cmd_ b') = l
    /\ ScoutMotionCmd.angular_velocity (current_motion_cmd_ b') = a
    /\ ScoutMotionCmd.fault_clear_flag (current_motion_cmd_ b') = x00.
Proof.
  apply (SetMotionCommand_stores_truncated_percent (limits := scout_limits)
           1%float 0%float x00 fresh_ScoutBase).
  - repeat split; reflexivity.
  - reflexivity.
  - reflexivity.
Defined.

(** The claim with rounding fails at 1.0 m/s: 1.0 / 1.5 * 100 is
    66.66..., which rounds to 67, and 66 is stored. *)
Lemma SetMotionCommand_does_not_round :
  stored_percentages (limits := scout_limits) 1 0 = Some (66, 0)
  /\ round_double (percent (-1.5) 1.5 1.5 1) = Some 67
  /\ option_map fst (stored_percentages (limits := scout_limits) 1 0)
     <> round_double (percent (-1.5) 1.5 1.5 1).
Proof.
  assert (Hs : stored_percentages (limits := scout_limits) 1 0 = Some (66, 0))
    by (vm_compute; reflexivity).
  assert (Hr : round_double (percent (-1.5) 1.5 1.5 1) = Some 67)
    by (vm_compute; reflexivity).
  split; [exact Hs |]. split; [exact Hr |].
  rewrite Hs, Hr. discriminate.
Qed.

(** Values beyond a limit are stored as the limit; just below the limit
    the fraction is dropped; a reverse velocity of one percent or more has
    no defined conversion. *)
Example SetMotionCommand_saturates :
  stored_percentages (limits := scout_limits) 7.25 (-0.001) = Some (100, 0).
Proof. vm_compute. reflexivity. Qed.

Example SetMotionCommand_just_below_max :
  stored_percentages (limits := scout_limits) 1.499 0.499 = Some (99, 99).
Proof. vm_compute. reflexivity. Qed.

Example SetMotionCommand_reverse_undefined :
  stored_percentages (limits := scout_limits) (-1) 0 = None.
Proof. vm_compute. reflexivity. Qed.

Example SetMotionCommand_nan_undefined :
  stored_percentages (limits := scout_limits) nan 0 = None.
Proof. vm_compute. reflexivity. Qed.

(** ** The control loop *)

Section ControlLoop.
Context `{proto : ScoutProtocol} `{limits : ScoutLimits}.

(** A whole pass through the body of the loop on a ready transport. *)
Lemma ControlLoop_body_ready (c : LoopCounters) (b : ScoutBase) :
  transport_ready b ->
  exists t,
    ControlLoop_body c b
    = Some ({| cmd_count := incr_uint8 (cmd_count c);
               light_cmd_count :=
                 if light_ctrl_requested_ b then incr_uint8 (light_cmd_count c)
                 else light_cmd_count c |},
            if light_ctrl_requested_ b
            then with_light (current_light_cmd_ b) (light_ctrl_enabled_ b) false b
            else b,
            t)
    /\ motion_counts t = [cmd_count c]
    /\ light_sends t = (if light_ctrl_requested_ b then 1 else 0)%nat.
Proof.
  destruct b as [ci si cc sc ts tp mc lc le lr st].
  unfold transport_ready; cbn. intros Hr.
  unfold ControlLoop_body, SendMotionCmd, SendLightCmd, via_can, via_serial,
    mbind, M_bind, mret, M_ret, this, update, act, undefined; cbn.
  destruct cc; destruct Hr as [h ->]; cbn; destruct lr; cbn;
    eexists; (split; [reflexivity |]); split; reflexivity.
Qed.

(** An uninterrupted pass is two or three actions of the command thread:
    the motion send, the test, and the light send if the test found the
    flag raised. *)
Lemma ControlLoop_body_steps (c : LoopCounters) (b : ScoutBase) :
  ControlLoop_body c b
  = (l1 ← ControlLoop_step {| at_point := AtSendMotion; counters := c |};
     l2 ← ControlLoop_step l1;
     match at_point l2 with
     | AtSendLight => l3 ← ControlLoop_step l2; mret (counters l3)
     | _ => mret (counters l2)
     end) b.
Proof.
  destruct b as [ci si cc sc ts tp mc lc le lr st].
  unfold ControlLoop_body, ControlLoop_step, SendMotionCmd, SendLightCmd, via_can,
    via_serial, mbind, M_bind, mret, M_ret, this, update, act, undefined; cbn.
  destruct cc; [destruct ci | destruct si]; cbn; try reflexivity;
    destruct lr; cbn; reflexivity.
Qed.

(** One action of the command thread on a ready transport. *)
Lemma ControlLoop_step_ready (l : LoopThread) (b : ScoutBase) :
  transport_ready b ->
  exists l' b' t,
    ControlLoop_step l b = Some (l', b', t)
    /\ match at_point l with
       | AtSendMotion =>
           b' = b /\ at_point l' = AtTestRequested
           /\ cmd_count (counters l') = incr_uint8 (cmd_count (counters l))
           /\ motion_counts t = [cmd_count (counters l)] /\ light_sends t = 0%nat
       | AtTestRequested =>
           b' = b
           /\ at_point l' = (if light_ctrl_requested_ b then AtSendLight else AtSendMotion)
           /\ cmd_count (counters l') = cmd_count (counters l)
           /\ motion_counts t = [] /\ light_sends t = 0%nat
       | AtSendLight =>
           b' = with_light (current_light_cmd_ b) (light_ctrl_enabled_ b) false b
           /\ at_point l' = AtSendMotion
           /\ cmd_count (counters l') = cmd_count (counters l)
           /\ motion_counts t = [] /\ light_sends t = 1%nat
       end.
Proof.
  destruct b as [ci si cc sc ts tp mc lc le lr st], l as [p c].
  unfold transport_ready; cbn. intros Hr.
  unfold ControlLoop_step, SendMotionCmd, SendLightCmd, via_can, via_serial,
    mbind, M_bind, mret, M_ret, this, update, act, undefined; cbn.
  destruct p; destruct cc; destruct Hr as [h ->]; cbn;
    eexists _, _, _; (split; [reflexivity |]); repeat split; reflexivity.
Qed.

(** The motion setter, where defined, touches neither the transports nor
    the light request, and sends nothing. *)
Lemma SetMotionCommand_frame (v w : float) (f : FaultClearFlag) (b : ScoutBase) :
  conversions_defined v w ->
  exists b' t,
    SetMotionCommand v w f b = Some (tt, b', t)
    /\ can_connected_ b' = can_connected_ b
    /\ can_if_ b' = can_if_ b
    /\ serial_if_ b' = serial_if_ b
    /\ light_ctrl_requested_ b' = light_ctrl_requested_ b
    /\ motion_counts t = []
    /\ light_sends t = 0%nat.
Proof.
  intros [[x Hx] [y Hy]]. rewrite SetMotionCommand_unfold. unfold percent.
  rewrite Hx, Hy. eexists _, _. split; [reflexivity |].
  destruct b as [ci si cc sc ts tp mc lc le lr st]. cbn.
  destruct ts; repeat split; reflexivity.
Qed.

(** Every step of a schedule is defined on a ready transport and keeps it
    ready; what it sends and how it moves the motion counter and the
    requested flag depends on the call and on where the command thread
    stands. *)
Lemma step_ready (e : Call) (l : LoopThread) (b : ScoutBase) :
  transport_ready b -> call_defined e ->
  exists l' b' t,
    step e l b = Some (l', b', t)
    /\ transport_ready b'
    /\ (light_send_pending l b -> light_send_pending l' b')
    /\ cmd_count (counters l')
       = (if loop_step_at AtSendMotion e l then incr_uint8 (cmd_count (counters l))
          else cmd_count (counters l))
    /\ motion_counts t
       = (if loop_step_at AtSendMotion e l then [cmd_count (counters l)] else [])
    /\ light_sends t = (if loop_step_at AtSendLight e l then 1 else 0)%nat
    /\ light_ctrl_requested_ b'
       = (if is_setter_call e then true
          else if loop_step_at AtSendLight e l then false
          else light_ctrl_requested_ b)
    /\ (loop_step_at AtTestRequested e l = true ->
        at_point l' = if light_ctrl_requested_ b then AtSendLight else AtSendMotion).
Proof.
  intros Hr Hd. unfold light_send_pending.
  destruct e as [v w f | cmd | | rx |]; cbn [step is_setter_call loop_step_at].
  - destruct (SetMotionCommand_frame v w f b Hd)
      as (b' & t & Heq & H1 & H2 & H3 & H4 & Hm & Hl).
    exists l, b', t.
    unfold mbind, M_bind, mret, M_ret. rewrite Heq. cbn.
    rewrite app_nil_r, H4.
    repeat split; try reflexivity; try assumption; try discriminate; auto.
    unfold transport_ready in *. rewrite H1, H2, H3. exact Hr.
  - exists l, (with_light cmd true true b), [].
    destruct b; repeat split; try assumption; try discriminate; auto.
  - exists l, (with_light (current_light_cmd_ b) false true b), [].
    destruct b; repeat split; try assumption; try discriminate; auto.
  - unfold mbind, M_bind, mret, M_ret. rewrite ParseCANFrame_drops_iff.
    destruct (_ || _); eexists l, _, _; (split; [reflexivity |]);
      destruct b; repeat split; try assumption; try discriminate; auto.
  - destruct (ControlLoop_step_ready l b Hr) as (l' & b' & t & Heq & Hs).
    exists l', b', t. split; [exact Heq |].
    destruct b as [ci si cc sc ts tp mc lc le lr st].
    destruct (at_point l) eqn:Hp; cbn in *;
      destruct Hs as (-> & Hp' & Hc & Hm & Hl);
      (split; [exact Hr |]); rewrite Hp'; cbn;
      repeat split; try assumption; try reflexivity; try discriminate.
    intros _. destruct lr; [reflexivity | discriminate].
Qed.

Lemma motion_counts_app (t1 t2 : list Action) :
  motion_counts (t1 ++ t2) = motion_counts t1 ++ motion_counts t2.
Proof. unfold motion_counts. apply omap_app. Qed.

Lemma successive_counts_closed (n : nat) :
  forall c : Z,
    0 <= c < 256 ->
    successive_counts c n = map (fun k => (c + Z.of_nat k) mod 256) (seq 0 n).
Proof.
  induction n as [| n IH]; intros c Hc; [reflexivity |].
  cbn [successive_counts seq map]. rewrite Z.add_0_r, Z.mod_small by lia. f_equal.
  rewrite IH by (unfold incr_uint8; apply Z.mod_pos_bound; lia).
  rewrite <- seq_shift, map_map. apply map_ext. intros k. unfold incr_uint8.
  rewrite Zplus_mod_idemp_l. f_equal. lia.
Qed.

Lemma iter_incr_uint8 (n : nat) :
  forall c : Z, Nat.iter n incr_uint8 (c mod 256) = (c + Z.of_nat n) mod 256.
Proof.
  induction n as [| n IH]; intros c.
  - cbn. f_equal. lia.
  - rewrite Nat.iter_succ, IH. unfold incr_uint8.
    rewrite Zplus_mod_idemp_l. f_equal. lia.
Qed.

(** A schedule of defined calls runs to its end on a ready transport. The
    steps that begin a pass send one motion frame each, with successive
    counts, and no other step sends one; only the command thread's light
    send sends a light frame; and the requested flag at the end says
    whether a setter call has occurred since the last light frame. *)
Lemma run_ready (es : list Call) :
  forall (l : LoopThread) (b : ScoutBase),
    transport_ready b -> Forall call_defined es ->
    exists h l' b',
      run es l b = Some (h, l', b')
      /\ transport_ready b'
      /\ (light_send_pending l b -> light_send_pending l' b')
      /\ map call h = es
      /\ cmd_count (counters l') = Nat.iter (passes h) incr_uint8 (cmd_count (counters l))
      /\ motion_counts (logged h) = successive_counts (cmd_count (counters l)) (passes h)
      /\ Forall (fun k => motion_counts (log k)
                          = if begins_pass k then [cmd_count (counters (thread_before k))]
                            else []) h
      /\ Forall (fun k => light_sends (log k)
                          = if loop_step_at AtSendLight (call k) (thread_before k)
                            then 1%nat else 0%nat) h
      /\ light_ctrl_requested_ b' = light_owed (light_ctrl_requested_ b) h.
Proof.
  induction es as [| e es IH]; intros l b Hr Hd.
  - exists [], l, b. cbn. repeat split; auto.
  - apply Forall_cons in Hd as [Hde Hdes].
    destruct (step_ready e l b Hr Hde)
      as (l1 & b1 & t & Hs & Hr1 & Hp1 & Hc1 & Hm & Hl & Hq & _).
    destruct (IH l1 b1 Hr1 Hdes)
      as (h & l2 & b2 & Hrun & Hr2 & Hp2 & Hcall & Hc2 & Hcounts & Hone & Hlight & Howed).
    eexists (_ :: h), l2, b2. cbn [run]. rewrite Hs, Hrun.
    split; [reflexivity |]. split; [exact Hr2 |]. split; [auto |].
    split; [cbn; congruence |].
    cbn [passes]. unfold begins_pass at 1 2. cbn [call thread_before log].
    split; [| split; [| split; [| split]]].
    + rewrite Hc2, Hc1. destruct (loop_step_at AtSendMotion e l); [| reflexivity].
      symmetry. apply Nat.iter_succ_r.
    + unfold logged in *. cbn [map log concat].
      rewrite motion_counts_app, Hm, Hcounts, Hc1.
      destruct (loop_step_at AtSendMotion e l); reflexivity.
    + constructor; [| exact Hone]. unfold begins_pass. cbn [call thread_before log]. exact Hm.
    + constructor; [| exact Hlight]. cbn [call thread_before log]. exact Hl.
    + cbn [light_owed call log]. rewrite Howed, Hq, Hl. f_equal.
      destruct (is_setter_call e); [reflexivity |].
      destruct (loop_step_at AtSendLight e l); reflexivity.
Qed.

Lemma light_sends_app (t1 t2 : list Action) :
  light_sends (t1 ++ t2) = (light_sends t1 + light_sends t2)%nat.
Proof. unfold light_sends. rewrite filter_app, length_app. reflexivity. Qed.

(** Where a step leaves the command thread: a call of another thread
    leaves it where it stands; its own action takes it from the motion
    send to the test, from the test to the light send or back to the
    motion send, and from the light send back to the motion send. *)
Lemma step_point (e : Call) (l l' : LoopThread) (b b' : ScoutBase) (t : list Action) :
  step e l b = Some (l', b', t) ->
  at_point l'
  = match e, at_point l with
    | LoopStep, AtSendMotion => AtTestRequested
    | LoopStep, AtTestRequested =>
        if light_ctrl_requested_ b then AtSendLight else AtSendMotion
    | LoopStep, AtSendLight => AtSendMotion
    | _, p => p
    end.
Proof.
  destruct e as [v w f | cmd | | rx |]; cbn [step].
  1-4: unfold mbind, M_bind at 1, mret, M_ret;
    match goal with
    | |- match ?m with _ => _ end = _ -> _ => destruct m as [[[[] b1] t1] |]
    end; intros [= <- _ _]; destruct (at_point l); reflexivity.
  destruct b as [ci si cc sc ts tp mc lc le lr st], l as [p c].
  unfold ControlLoop_step, SendMotionCmd, SendLightCmd, via_can, via_serial,
    mbind, M_bind, mret, M_ret, this, update, act, undefined; cbn.
  destruct p, cc, ci, si; cbn; intros [= <- _ _]; reflexivity.
Qed.

(** Every pass begun accounts for two actions of the command thread, and
    every light frame for one more; and no pass takes more than three. *)
Lemma run_progress (es : list Call) :
  forall (l : LoopThread) (b : ScoutBase),
    transport_ready b -> Forall call_defined es ->
    exists h l' b',
      run es l b = Some (h, l', b')
      /\ (thread_actions es + test_to_come l'
          = 2 * passes h + light_sends (logged h) + test_to_come l)%nat
      /\ (thread_actions es + left_in_pass l' <= 3 * passes h + left_in_pass l)%nat.
Proof.
  induction es as [| e es IH]; intros l b Hr Hd.
  - exists [], l, b. cbn. repeat split; lia.
  - apply Forall_cons in Hd as [Hde Hdes].
    destruct (step_ready e l b Hr Hde)
      as (l1 & b1 & t & Hs & Hr1 & _ & _ & _ & Hl & _ & _).
    pose proof (step_point e l l1 b b1 t Hs) as Hp.
    destruct (IH l1 b1 Hr1 Hdes) as (h & l2 & b2 & Hrun & Hid & Hle).
    eexists (_ :: h), l2, b2. cbn [run]. rewrite Hs, Hrun.
    split; [reflexivity |].
    unfold logged in *. cbn [passes map log concat].
    unfold begins_pass at 1 2. cbn [call thread_before].
    rewrite light_sends_app, Hl.
    unfold thread_actions in *. cbn [List.filter].
    unfold test_to_come, left_in_pass in *. rewrite Hp in Hid, Hle.
    destruct e; cbn [is_thread_action loop_step_at length] in *;
      destruct (at_point l); try destruct (light_ctrl_requested_ b); split; lia.
Qed.

(** From wherever the command thread stands, at most two of its actions
    take it back to the motion send, with no motion frame sent on the
    way. *)
Lemma run_returns (l : LoopThread) (b : ScoutBase) :
  transport_ready b ->
  exists k h l' b',
    (k <= 2)%nat
    /\ run (repeat LoopStep k) l b = Some (h, l', b')
    /\ at_point l' = AtSendMotion
    /\ motion_counts (logged h) = []
    /\ cmd_count (counters l') = cmd_count (counters l).
Proof.
  destruct b as [ci si cc sc ts tp mc lc le lr st], l as [p c].
  unfold transport_ready; cbn. intros Hr.
  destruct p.
  - exists 0%nat. eexists _, _, _. cbn. repeat split. lia.
  - destruct lr.
    + exists 2%nat.
      unfold repeat, run, step, ControlLoop_step, SendMotionCmd, SendLightCmd, via_can,
        via_serial, mbind, M_bind, mret, M_ret, this, update, act, undefined; cbn.
      destruct cc; destruct Hr as [x ->]; cbn;
        eexists _, _, _; (split; [lia |]); (split; [reflexivity |]); repeat split.
    + exists 1%nat.
      unfold repeat, run, step, ControlLoop_step, mbind, M_bind, mret, M_ret, this; cbn.
      eexists _, _, _. (split; [lia |]). (split; [reflexivity |]). repeat split.
  - exists 1%nat.
    unfold repeat, run, step, ControlLoop_step, SendMotionCmd, SendLightCmd, via_can,
      via_serial, mbind, M_bind, mret, M_ret, this, update, act, undefined; cbn.
    destruct cc; destruct Hr as [x ->]; cbn;
      eexists _, _, _; (split; [lia |]); (split; [reflexivity |]); repeat split.
Qed.

(** Passes of the loop that nothing interrupts: each sends one motion
    frame, the counts are successive, and only the first can send a light
    frame, which it does exactly when it finds the flag raised. *)
Lemma ControlLoop_passes_ready (n : nat) :
  forall (c : LoopCounters) (b : ScoutBase),
    transport_ready b ->
    exists c' b' t,
      ControlLoop_passes n c b = Some (c', b', t)
      /\ motion_counts t = successive_counts (cmd_count c) n
      /\ cmd_count c' = Nat.iter n incr_uint8 (cmd_count c)
      /\ light_sends t
         = match n with
           | O => 0%nat
           | S _ => if light_ctrl_requested_ b then 1%nat else 0%nat
           end
      /\ light_ctrl_requested_ b'
         = match n with O => light_ctrl_requested_ b | S _ => false end.
Proof.
  induction n as [| n IH]; intros c b Hr.
  - exists c, b, []. repeat split.
  - destruct (ControlLoop_body_ready c b Hr) as (t1 & Hs & Hm1 & Hl1).
    set (b1 := if light_ctrl_requested_ b
               then with_light (current_light_cmd_ b) (light_ctrl_enabled_ b) false b
               else b) in *.
    assert (Hr1 : transport_ready b1).
    { subst b1. destruct b as [ci si cc sc ts tp mc lc le lr st]. destruct lr; exact Hr. }
    assert (Hq1 : light_ctrl_requested_ b1 = false).
    { subst b1. destruct b as [ci si cc sc ts tp mc lc le lr st]. destruct lr; reflexivity. }
    destruct (IH {| cmd_count := incr_uint8 (cmd_count c);
                    light_cmd_count :=
                      if light_ctrl_requested_ b then incr_uint8 (light_cmd_count c)
                      else light_cmd_count c |} b1 Hr1)
      as (c2 & b2 & t2 & Hn & Hm2 & Hc2 & Hl2 & Hq2).
    exists c2, b2, (t1 ++ t2). cbn [ControlLoop_passes]. unfold mbind, M_bind at 1.
    rewrite Hs, Hn. split; [reflexivity |].
    rewrite motion_counts_app, light_sends_app, Hm1, Hm2, Hl1, Hl2, Hc2, Hq2, Hq1.
    cbn [cmd_count successive_counts app].
    repeat split.
    + symmetry. apply Nat.iter_succ_r.
    + destruct n, (light_ctrl_requested_ b); reflexivity.
    + destruct n; reflexivity.
Qed.

(** C7. The loop sends one motion frame on every pass, and the counts of
    its frames are successive modulo 256, whatever light frames are
    requested and sent. Left alone, [n] passes send [n] motion frames with
    the counts [c], [c + 1], ... modulo 256. Under any schedule of setter
    calls, received frames and actions of the command thread, each step
    that begins a pass sends exactly one motion frame, no other step sends
    one, and the frames sent are as many as the passes begun, with
    successive counts from the counter's first value. The passes go on:
    each takes the thread two actions, and a third when it sends a light
    frame, so that at least a third of the thread's actions, less two,
    begin a pass; and from wherever the schedule leaves the thread, at
    most two further actions take it back to its motion send with the
    count unchanged. *)
Theorem motion_count_increments_every_pass (es : list Call) (l : LoopThread)
    (b : ScoutBase) :
  transport_ready b -> 0 <= cmd_count (counters l) < 256 -> Forall call_defined es ->
  (forall n : nat,
      exists c' b' t,
        ControlLoop_passes n (counters l) b = Some (c', b', t)
        /\ motion_counts t
           = map (fun k => (cmd_count (counters l) + Z.of_nat k) mod 256) (seq 0 n)
        /\ cmd_count c' = (cmd_count (counters l) + Z.of_nat n) mod 256)
  /\ exists h l' b',
      run es l b = Some (h, l', b')
      /\ map call h = es
      /\ Forall (fun k => motion_counts (log k)
                          = if begins_pass k then [cmd_count (counters (thread_before k))]
                            else []) h
      /\ motion_counts (logged h)
         = map (fun k => (cmd_count (counters l) + Z.of_nat k) mod 256) (seq 0 (passes h))
      /\ cmd_count (counters l') = (cmd_count (counters l) + Z.of_nat (passes h)) mod 256
      /\ length (motion_counts (logged h)) = passes h
      /\ (thread_actions es + test_to_come l'
          = 2 * passes h + light_sends (logged h) + test_to_come l)%nat
      /\ (thread_actions es <= 3 * passes h + 2)%nat
      /\ exists k h2 l2 b2,
           (k <= 2)%nat
           /\ run (repeat LoopStep k) l' b' = Some (h2, l2, b2)
           /\ at_point l2 = AtSendMotion
           /\ motion_counts (logged h2) = []
           /\ cmd_count (counters l2) = cmd_count (counters l').
Proof.
  intros Hr Hc Hd. split.
  { intros n.
    destruct (ControlLoop_passes_ready n (counters l) b Hr)
      as (c' & b' & t & Hn & Hm & Hc' & _ & _).
    exists c', b', t. split; [exact Hn |]. split.
    - rewrite Hm. apply successive_counts_closed, Hc.
    - rewrite Hc', <- (Z.mod_small (cmd_count (counters l)) 256) at 1 by lia.
      apply iter_incr_uint8. }
  destruct (run_ready es l b Hr Hd)
    as (h & l' & b' & Hrun & Hr' & _ & Hcall & Hc' & Hcounts & Hone & _ & _).
  destruct (run_progress es l b Hr Hd) as (h0 & l0 & b0 & Hrun0 & Hid & Hle).
  rewrite Hrun in Hrun0. injection Hrun0 as <- <- <-.
  exists h, l', b'. repeat (split; [assumption |]).
  split; [| split; [| split; [| split; [| split]]]].
  - rewrite Hcounts. apply successive_counts_closed, Hc.
  - rewrite Hc', <- (Z.mod_small (cmd_count (counters l)) 256) at 1 by lia.
    apply iter_incr_uint8.
  - rewrite Hcounts. clear. generalize (cmd_count (counters l)).
    induction (passes h) as [| n IH]; intros c; cbn; [reflexivity | f_equal; apply IH].
  - exact Hid.
  - unfold left_in_pass in Hle. destruct (at_point l), (at_point l'); lia.
  - exact (run_returns l' b' Hr').
Qed.

(** C8. Either setter raises the requested flag, and every pass of the
    loop tests it: passes that nothing interrupts send one light frame if
    they find the flag raised and none otherwise, and leave it lowered.
    After any schedule, the flag is raised exactly when a setter call has
    occurred since the last light frame was sent, and a light frame has
    been sent only by the command thread's light send. The command
    thread's next action, at its motion send, sends no light frame and
    goes on to the test; at its test of the flag, goes on to the light
    send exactly when the flag is raised; at its light send, which it
    reaches only with the flag raised, sends exactly one light frame,
    lowers the flag and goes back to the motion send. So its next three
    actions send exactly one light frame if the flag is raised and none
    if it is not, and leave the flag lowered. *)
Theorem light_frame_sent_iff_requested_since_last_send (es : list Call)
    (l : LoopThread) (b : ScoutBase) :
  transport_ready b -> light_send_pending l b -> Forall call_defined es ->
  (forall cmd b0,
      option_map light_ctrl_requested_ (object_after (SetLightCommand cmd) b0) = Some true
      /\ option_map light_ctrl_requested_ (object_after DisableLightCmdControl b0) = Some true)
  /\ (forall (n : nat) (c : LoopCounters) (b0 : ScoutBase),
        transport_ready b0 ->
        exists c' b' t,
          ControlLoop_passes (S n) c b0 = Some (c', b', t)
          /\ light_sends t = (if light_ctrl_requested_ b0 then 1 else 0)%nat
          /\ light_ctrl_requested_ b' = false)
  /\ exists h l1 b1 l2 b2 t,
      run es l b = Some (h, l1, b1)
      /\ map call h = es
      /\ Forall (fun k => light_sends (log k)
                          = if loop_step_at AtSendLight (call k) (thread_before k)
                            then 1%nat else 0%nat) h
      /\ light_ctrl_requested_ b1 = light_owed (light_ctrl_requested_ b) h
      /\ ControlLoop_step l1 b1 = Some (l2, b2, t)
      /\ match at_point l1 with
         | AtSendMotion => light_sends t = 0%nat /\ at_point l2 = AtTestRequested
         | AtTestRequested =>
             light_sends t = 0%nat
             /\ at_point l2 = (if light_ctrl_requested_ b1 then AtSendLight else AtSendMotion)
         | AtSendLight =>
             light_owed (light_ctrl_requested_ b) h = true
             /\ light_sends t = 1%nat
             /\ light_ctrl_requested_ b2 = false
             /\ at_point l2 = AtSendMotion
         end
      /\ exists h3 l3 b3,
           run [LoopStep; LoopStep; LoopStep] l1 b1 = Some (h3, l3, b3)
           /\ light_sends (logged h3) = (if light_ctrl_requested_ b1 then 1 else 0)%nat
           /\ light_ctrl_requested_ b3 = false.
Proof.
  intros Hr Hp Hd. split.
  { intros cmd b0. split; reflexivity. }
  split.
  { intros n c b0 Hr0.
    destruct (ControlLoop_passes_ready (S n) c b0 Hr0) as (c' & b' & t & Hn & _ & _ & Hl & Hq).
    exists c', b', t. auto. }
  destruct (run_ready es l b Hr Hd)
    as (h & l1 & b1 & Hrun & Hr1 & Hp1 & Hcall & _ & _ & _ & Hlight & Howed).
  specialize (Hp1 Hp).
  destruct (ControlLoop_step_ready l1 b1 Hr1) as (l2 & b2 & t & Hstep & Hs).
  exists h, l1, b1, l2, b2, t.
  repeat (split; [assumption |]).
  split.
  - unfold light_send_pending in Hp1.
    destruct (at_point l1).
    + tauto.
    + tauto.
    + destruct Hs as (-> & Hl2 & _ & _ & Hl). rewrite <- Howed.
      split; [apply Hp1; reflexivity |]. split; [exact Hl |].
      split; [destruct b1; reflexivity | exact Hl2].
  - clear - Hr1 Hp1.
    destruct b1 as [ci si cc sc ts tp mc lc le lr st], l1 as [p c].
    unfold transport_ready, light_send_pending in *; cbn in *.
    unfold run, step, logged, ControlLoop_step, SendMotionCmd, SendLightCmd, via_can,
      via_serial, mbind, M_bind, mret, M_ret, this, update, act, undefined; cbn.
    destruct p, cc; destruct Hr1 as [x ->]; cbn; destruct lr; cbn;
      try (specialize (Hp1 eq_refl); discriminate Hp1);
      eexists _, _, _; (split; [reflexivity |]); split; reflexivity.
Qed.

(** The loop never stops by itself: any number of passes is defined on a
    ready transport. *)
Lemma ControlLoop_passes_defined (n : nat) :
  forall (c : LoopCounters) (b : ScoutBase),
    transport_ready b -> is_Some (ControlLoop_passes n c b).
Proof.
  induction n as [| n IH]; intros c b Hr; [cbn; eauto |].
  destruct (ControlLoop_body_ready c b Hr) as (t & Hs & _).
  assert (Hr1 : transport_ready
                  (if light_ctrl_requested_ b
                   then with_light (current_light_cmd_ b) (light_ctrl_enabled_ b) false b
                   else b)).
  { destruct b as [ci si cc sc ts tp mc lc le lr st]. destruct lr; exact Hr. }
  destruct (IH {| cmd_count := incr_uint8 (cmd_count c);
                  light_cmd_count :=
                    if light_ctrl_requested_ b then incr_uint8 (light_cmd_count c)
                    else light_cmd_count c |} _ Hr1) as [[[c2 b2] t2] Hn].
  cbn [ControlLoop_passes]. unfold mbind, M_bind at 1.
  rewrite Hs, Hn. eauto.
Qed.

End ControlLoop.

(** The sample schedule on the running CAN driver, whose command thread
    stands at its motion send with the count 255: its three passes send
    motion frames with counts 255, 0 and 1. *)
Lemma motion_count_increments_every_pass_witness :
  consistent running_Driver = true
  /\ cmd_thread_ running_Driver = Some sample_thread
  /\ (forall n : nat,
        exists c' b' t,
          ControlLoop_passes (proto := scout_protocol) n (counters sample_thread)
            (object running_Driver) = Some (c', b', t)
          /\ motion_counts t
             = map (fun k => (cmd_count (counters sample_thread) + Z.of_nat k) mod 256)
                 (seq 0 n)
          /\ cmd_count c' = (cmd_count (counters sample_thread) + Z.of_nat n) mod 256)
  /\ exists h l' b',
      run (proto := scout_protocol) (limits := scout_limits)
        sample_schedule sample_thread (object running_Driver) = Some (h, l', b')
      /\ map call h = sample_schedule
      /\ Forall (fun k => motion_counts (log k)
                          = if begins_pass k then [cmd_count (counters (thread_before k))]
                            else []) h
      /\ motion_counts (logged h)
         = map (fun k => (cmd_count (counters sample_thread) + Z.of_nat k) mod 256)
             (seq 0 (passes h))
      /\ cmd_count (counters l')
         = (cmd_count (counters sample_thread) + Z.of_nat (passes h)) mod 256
      /\ length (motion_counts (logged h)) = passes h
      /\ (thread_actions sample_schedule + test_to_come l'
          = 2 * passes h + light_sends (logged h) + test_to_come sample_thread)%nat
      /\ (thread_actions sample_schedule <= 3 * passes h + 2)%nat
      /\ exists k h2 l2 b2,
           (k <= 2)%nat
           /\ run (proto := scout_protocol) (limits := scout_limits)
                (repeat LoopStep k) l' b' = Some (h2, l2, b2)
           /\ at_point l2 = AtSendMotion
           /\ motion_counts (logged h2) = []
           /\ cmd_count (counters l2) = cmd_count (counters l').
Proof.
  split; [reflexivity |]. split; [reflexivity |].
  apply (motion_count_increments_every_pass (proto := scout_protocol) (limits := scout_limits)
           sample_schedule sample_thread (object running_Driver)).
  - cbn. eauto.
  - cbn. lia.
  - repeat constructor; eexists; vm_compute; reflexivity.
Defined.

(** The sample schedule takes the thread seven actions: three passes, one
    of them with a light frame. Its motion setter finds the thread
    started and starts none. *)
Example sample_schedule_motion_counts :
  option_map (fun r => (motion_counts (logged (fst (fst r))), passes (fst (fst r)),
                        light_sends (logged (fst (fst r))),
                        existsb is_thread_start (logged (fst (fst r)))))
    (run (proto := scout_protocol) (limits := scout_limits)
       sample_schedule sample_thread (object running_Driver))
  = Some ([255; 0; 1], 3%nat, 1%nat, false)
  /\ thread_actions sample_schedule = 7%nat.
Proof. split; vm_compute; reflexivity. Qed.

(** The schedule as a run of the driver: the same log, and the thread and
    the object where the schedule leaves them ([run_is_drive_all] below
    has it for every schedule). *)
Example sample_schedule_driven :
  option_map (fun r => ({| object := snd r; cmd_thread_ := Some (snd (fst r)) |},
                        logged (fst (fst r))))
    (run (proto := scout_protocol) (limits := scout_limits)
       sample_schedule sample_thread (object running_Driver))
  = drive_all (proto := scout_protocol) (limits := scout_limits) (ports := every_port_opens)
      (map EvCall sample_schedule) running_Driver.
Proof. vm_compute. reflexivity. Qed.

(** The same schedule, the action of the command thread after it, and its
    next three actions. *)
Lemma light_frame_sent_iff_requested_since_last_send_witness :
  consistent running_Driver = true
  /\ cmd_thread_ running_Driver = Some sample_thread
  /\ (forall cmd b0,
        option_map light_ctrl_requested_ (object_after (SetLightCommand cmd) b0) = Some true
        /\ option_map light_ctrl_requested_ (object_after DisableLightCmdControl b0)
           = Some true)
  /\ (forall (n : nat) (c : LoopCounters) (b0 : ScoutBase),
        transport_ready b0 ->
        exists c' b' t,
          ControlLoop_passes (proto := scout_protocol) (S n) c b0 = Some (c', b', t)
          /\ light_sends t = (if light_ctrl_requested_ b0 then 1 else 0)%nat
          /\ light_ctrl_requested_ b' = false)
  /\ exists h l1 b1 l2 b2 t,
      run (proto := scout_protocol) (limits := scout_limits)
        sample_schedule sample_thread (object running_Driver) = Some (h, l1, b1)
      /\ map call h = sample_schedule
      /\ Forall (fun k => light_sends (log k)
                          = if loop_step_at AtSendLight (call k) (thread_before k)
                            then 1%nat else 0%nat) h
      /\ light_ctrl_requested_ b1
         = light_owed (light_ctrl_requested_ (object running_Driver)) h
      /\ ControlLoop_step (proto := scout_protocol) l1 b1 = Some (l2, b2, t)
      /\ match at_point l1 with
         | AtSendMotion => light_sends t = 0%nat /\ at_point l2 = AtTestRequested
         | AtTestRequested =>
             light_sends t = 0%nat
             /\ at_point l2 = (if light_ctrl_requested_ b1 then AtSendLight else AtSendMotion)
         | AtSendLight =>
             light_owed (light_ctrl_requested_ (object running_Driver)) h = true
             /\ light_sends t = 1%nat
             /\ light_ctrl_requested_ b2 = false
             /\ at_point l2 = AtSendMotion
         end
      /\ exists h3 l3 b3,
           run (proto := scout_protocol) (limits := scout_limits)
             [LoopStep; LoopStep; LoopStep] l1 b1 = Some (h3, l3, b3)
           /\ light_sends (logged h3) = (if light_ctrl_requested_ b1 then 1 else 0)%nat
           /\ light_ctrl_requested_ b3 = false.
Proof.
  split; [reflexivity |]. split; [reflexivity |].
  apply (light_frame_sent_iff_requested_since_last_send
           (proto := scout_protocol) (limits := scout_limits)
           sample_schedule sample_thread (object running_Driver)).
  - cbn. eauto.
  - discriminate.
  - repeat constructor; eexists; vm_compute; reflexivity.
Defined.

(** Light frames sent by each of the ten steps of the sample schedule:
    the two light commands, one before the test of the flag and one after
    it, are answered by the one light frame of the eighth step, which
    carries the later command. *)
Example sample_schedule_light_sends :
  option_map (fun r => map (fun k => light_sends (log k)) (fst (fst r)))
    (run (proto := scout_protocol) (limits := scout_limits)
       sample_schedule sample_thread (object running_Driver))
  = Some [0; 0; 0; 0; 0; 0; 0; 1; 0; 0]%nat.
Proof. vm_compute. reflexivity. Qed.

Example sample_schedule_light_frame :
  option_map
    (fun r => omap (fun a => match a with
                             | CanSendLight m => Some (LightControl.front_light_mode m,
                                                       LightControl.count m)
                             | _ => None
                             end) (logged (fst (fst r))))
    (run (proto := scout_protocol) (limits := scout_limits)
       sample_schedule sample_thread (object running_Driver))
  = Some [(x02, 0)].
Proof. vm_compute. reflexivity. Qed.

(** A light command that arrives while the thread stands at its motion
    send is answered by one light frame within the thread's next three
    actions, and none follows in the three after. *)
Example light_command_then_six_actions :
  option_map (fun r => map (fun k => light_sends (log k)) (fst (fst r)))
    (run (proto := scout_protocol) (limits := scout_limits)
       [CallDisableLightCmdControl; LoopStep; LoopStep; LoopStep; LoopStep; LoopStep; LoopStep]
       sample_thread (object running_Driver))
  = Some [0; 0; 0; 1; 0; 0; 0]%nat.
Proof. vm_compute. reflexivity. Qed.

(** ** The reducer: motor slots, and messages in sequence *)

Section ReducerSequences.
Context `{proto : ScoutProtocol}.

(** X1. The status message of motor driver N (N from 1 to 4) writes slot
    N - 1 of [motor_states] and reading the slot back gives the message:
    the current is the unsigned 16-bit number of its two bytes divided by
    10, the rpm the same sixteen bits of its field as a two's complement
    number, between -32768 and 32767, and the temperature the byte as it
    came; the number of slots stays. *)
Theorem motor_status_sets_slot (msg : ScoutStatusMessage) (state : ScoutState) (i : nat) :
  motor_slot (updated_msg_type msg) = Some i ->
  (i < length (motor_states state))%nat ->
  motor_states (UpdateScoutState msg state) !! i
  = Some {| current :=
              (double_of_Z (unsigned16 (MotorDriverStatus.current (motor_driver_status_msg msg)))
               / 10)%float;
            rpm := signed16 (MotorDriverStatus.rpm (motor_driver_status_msg msg));
            temperature := MotorDriverStatus.temperature (motor_driver_status_msg msg) |}
  /\ -32768 <= signed16 (MotorDriverStatus.rpm (motor_driver_status_msg msg)) <= 32767
  /\ (i < 4)%nat
  /\ length (motor_states (UpdateScoutState msg state)) = length (motor_states state).
Proof.
  intros Hk Hi.
  assert (Hs : UpdateScoutState msg state
               = set_motor i (motor_of_status (motor_driver_status_msg msg)) state).
  { unfold UpdateScoutState.
    destruct (updated_msg_type msg); cbn in Hk; try discriminate Hk;
      injection Hk as <-; reflexivity. }
  split; [| split; [apply signed16_range | split]].
  - rewrite Hs. unfold set_motor, motor_of_status. cbn [motor_states].
    rewrite list_lookup_insert_eq by exact Hi.
    rewrite assemble16_signed, assemble16_unsigned. reflexivity.
  - destruct (updated_msg_type msg); cbn in Hk; try discriminate Hk;
      injection Hk as <-; lia.
  - apply UpdateScoutState_motors_length.
Qed.

(** X2. A message overwrites all that an earlier message of the same
    kind wrote: the state after both is the state after the later one
    alone. *)
Theorem later_message_overwrites_same_kind (m1 m2 : ScoutStatusMessage) (s : ScoutState) :
  updated_msg_type m1 = updated_msg_type m2 ->
  UpdateScoutState m2 (UpdateScoutState m1 s) = UpdateScoutState m2 s.
Proof.
  intros Hk. unfold UpdateScoutState. rewrite Hk.
  destruct (updated_msg_type m2); cbn; try reflexivity;
    unfold set_motor; cbn; rewrite list_insert_insert_eq; reflexivity.
Qed.

(** X3. Messages of different kinds write different fields, so the order
    in which two of them arrive makes no difference to the state. *)
Theorem messages_of_different_kinds_commute (m1 m2 : ScoutStatusMessage) (s : ScoutState) :
  updated_msg_type m1 <> updated_msg_type m2 ->
  UpdateScoutState m1 (UpdateScoutState m2 s) = UpdateScoutState m2 (UpdateScoutState m1 s).
Proof.
  intros Hk. unfold UpdateScoutState.
  destruct (updated_msg_type m1), (updated_msg_type m2); cbn; try reflexivity;
    try (exfalso; apply Hk; reflexivity);
    unfold set_motor; cbn; rewrite list_insert_insert_ne by discriminate; reflexivity.
Qed.

End ReducerSequences.

(** ** The receive path: which frames are discarded *)

Section Discard.
Context `{proto : ScoutProtocol}.

(** X5. [ParseCANFrame] always returns. It discards the frame in two
    cases only: the trailing byte is zero and the recomputed checksum is
    1, or the trailing byte is not zero and the recomputed checksum is 0.
    A discarded frame leaves the object as it was and writes one line
    with the frame's identifier; any other frame writes nothing and
    changes the robot state alone, to the reducer's result on the decoded
    frame. *)
Theorem ParseCANFrame_discards_exactly (f : can_frame) (b : ScoutBase) :
  exists b' t,
    ParseCANFrame f b = Some (tt, b', t)
    /\ (t = [CerrChecksumMismatch (can_id f)] /\ b' = b
        \/ t = []
           /\ b' = with_scout_state
                     (UpdateScoutState (UnpackScoutCANFrameToMsg f) (scout_state_ b)) b)
    /\ (t <> [] <->
        carried_checksum f = x00 /\ computed_checksum f = x01
        \/ carried_checksum f <> x00 /\ computed_checksum f = x00).
Proof.
  rewrite ParseCANFrame_drops_iff.
  destruct (Byte.eqb (carried_checksum f) x00) eqn:Hc;
    [apply Byte.byte_dec_bl in Hc | apply Byte.eqb_false in Hc];
    cbn [andb orb negb];
    (destruct (Byte.eqb (computed_checksum f) _) eqn:Hk;
       [apply Byte.byte_dec_bl in Hk | apply Byte.eqb_false in Hk]);
    eexists _, _; (split; [reflexivity |]); (split; [auto |]); split;
    try discriminate; try tauto; try congruence;
    intros _; auto.
Qed.

End Discard.

(** ** Connecting again *)

Section Reconnect.
Context `{proto : ScoutProtocol} `{ports : SerialPorts}.

(** X6. [Connect] always returns, and writes its error line in one case
    only: the baud rate is not 0, the port does not open, and the serial
    flag was clear before the call. The flag is never cleared, so where a
    serial connection had been made before, a [Connect] whose port does
    not open writes nothing and leaves the flag set, over a handle to a
    closed port. *)
Theorem Connect_reports_failure_only_with_flag_clear
    (dev_name : string) (baud_rate : Z) (b : ScoutBase) :
  exists b' t,
    Connect dev_name baud_rate b = Some (tt, b', t)
    /\ (CerrSerialConnectFailed ∈ t <->
        baud_rate <> 0 /\ port_opens dev_name baud_rate = false /\ serial_connected_ b = false)
    /\ (serial_connected_ b = true -> serial_connected_ b' = true)
    /\ (baud_rate <> 0 -> port_opens dev_name baud_rate = false ->
        serial_if_ b'
        = Some {| port_name := dev_name; port_baud := baud_rate; is_open := false |}).
Proof.
  destruct (Z.eq_dec baud_rate 0) as [-> | Hb].
  - eexists _, _. split; [apply Connect_can |]. cbn. split; [| split; [auto | congruence]].
    rewrite list_elem_of_In. cbn. intuition discriminate.
  - eexists _, _. split; [apply (Connect_serial _ _ _ Hb) |]. cbn.
    rewrite list_elem_of_In.
    destruct (port_opens dev_name baud_rate) eqn:Ho, (serial_connected_ b); cbn;
      (split; [| split; [auto | first [discriminate | reflexivity]]]);
      intuition discriminate.
Qed.

End Reconnect.

(** ** The motion setter: where it is undefined *)

Section MotionCommandDefined.
Context `{limits : ScoutLimits}.

(** X8. A NaN passes both comparisons of the clamp unchanged, stays a
    NaN through the scaling, and has no conversion to [uint8_t]:
    [SetMotionCommand] with a NaN for either velocity is undefined,
    whatever the limits. *)
Theorem SetMotionCommand_nan_is_undefined
    (linear_vel angular_vel : float) (flag : FaultClearFlag) (b : ScoutBase) :
  (linear_vel <=? linear_vel)%float = false \/ (angular_vel <=? angular_vel)%float = false ->
  SetMotionCommand linear_vel angular_vel flag b = None.
Proof.
  intros H. rewrite SetMotionCommand_unfold. unfold percent.
  destruct H as [H | H]; rewrite (clamp_nan _ _ _ H), (static_cast_uint8_nan _ _ H).
  - reflexivity.
  - destruct (static_cast_uint8 _); reflexivity.
Qed.

End MotionCommandDefined.

(** ** The pace of the loop *)

Lemma int64_in_range (z : Z) : - 2 ^ 63 <= z < 2 ^ 63 -> int64 z = Some z.
Proof.
  intros Hz. unfold int64.
  destruct (Z.leb_spec (- 2 ^ 63) z); [| lia].
  destruct (Z.ltb_spec z (2 ^ 63)); [reflexivity | lia].
Qed.

(** X9. On a clock that has not run backwards since [tic()], with a
    period that is not negative, [sleep_until_ms] is defined, and it
    returns no earlier than a full period after [tic()]: when less than
    the period has gone by it sleeps the whole milliseconds that remain,
    which ends less than one millisecond after the period does; when the
    period is over already it does not sleep at all. *)
Theorem sleep_until_ms_keeps_period
    (ticks_per_ms : Z) (sw : StopWatch.t) (period_ms now : Z) :
  0 < ticks_per_ms ->
  0 <= period_ms < 2 ^ 31 ->
  0 <= now - StopWatch.tic_point sw < 2 ^ 63 ->
  exists r wake,
    StopWatch.sleep_until_ms ticks_per_ms sw period_ms now = Some r
    /\ StopWatch.wakes_at ticks_per_ms sw period_ms now = Some wake
    /\ period_ms * ticks_per_ms <= wake - StopWatch.tic_point sw
    /\ match r with
       | Some duration =>
           duration = period_ms - StopWatch.elapsed_ms ticks_per_ms sw now
           /\ 0 < duration <= period_ms
           /\ wake - StopWatch.tic_point sw < (period_ms + 1) * ticks_per_ms
       | None =>
           wake = now /\ period_ms * ticks_per_ms <= now - StopWatch.tic_point sw
       end.
Proof.
  intros Ht Hp He.
  unfold StopWatch.wakes_at, StopWatch.sleep_until_ms, StopWatch.elapsed_ms.
  set (e := now - StopWatch.tic_point sw) in *.
  rewrite Z.quot_div_nonneg by lia.
  pose proof (Z.div_mod e ticks_per_ms ltac:(lia)) as Hdm.
  pose proof (Z.mod_pos_bound e ticks_per_ms Ht) as Hm.
  assert (Hq : 0 <= e / ticks_per_ms) by (apply Z.div_pos; lia).
  assert (Hq' : e / ticks_per_ms <= e) by (apply Z.div_le_upper_bound; nia).
  rewrite int64_in_range
    by (change (2 ^ 63) with 9223372036854775808 in *;
        change (2 ^ 31) with 2147483648 in *; lia).
  destruct (Z.ltb_spec 0 (period_ms - e / ticks_per_ms)) as [Hd | Hd].
  - eexists _, _. split; [reflexivity |]. split; [reflexivity |].
    replace (now + (period_ms - e / ticks_per_ms) * ticks_per_ms - StopWatch.tic_point sw)
      with (e + (period_ms - e / ticks_per_ms) * ticks_per_ms) by (unfold e; lia).
    split; [nia |]. split; [reflexivity |]. split; [lia | nia].
  - eexists _, _. split; [reflexivity |]. split; [reflexivity |].
    fold e. split; [nia |]. split; [reflexivity | nia].
Qed.

(** A clock of a million ticks to the millisecond, a period of ten
    milliseconds, three and a half of them gone: the sleep is seven
    milliseconds and ends half a millisecond after the period. *)
Lemma sleep_until_ms_keeps_period_witness :
  exists r wake,
    StopWatch.sleep_until_ms 1000000 (StopWatch.tic 0) 10 3500000 = Some r
    /\ StopWatch.wakes_at 1000000 (StopWatch.tic 0) 10 3500000 = Some wake
    /\ 10 * 1000000 <= wake - 0
    /\ match r with
       | Some duration =>
           duration = 10 - StopWatch.elapsed_ms 1000000 (StopWatch.tic 0) 3500000
           /\ 0 < duration <= 10
           /\ wake - 0 < (10 + 1) * 1000000
       | None => wake = 3500000 /\ 10 * 1000000 <= 3500000 - 0
       end.
Proof.
  apply (sleep_until_ms_keeps_period 1000000 (StopWatch.tic 0) 10 3500000).
  - lia.
  - cbn. lia.
  - cbn. lia.
Defined.

Example sleep_until_ms_sleeps_seven :
  StopWatch.sleep_until_ms 1000000 (StopWatch.tic 0) 10 3500000 = Some (Some 7)
  /\ StopWatch.wakes_at 1000000 (StopWatch.tic 0) 10 3500000 = Some 10500000.
Proof. split; reflexivity. Qed.

Example sleep_until_ms_after_overrun :
  StopWatch.sleep_until_ms 1000000 (StopWatch.tic 0) 10 12000001 = Some None.
Proof. reflexivity. Qed.

(** ** The driver and its command thread, event by event *)

Ltac unfold_M :=
  unfold Disconnect, SetLightCommand, DisableLightCmdControl, ControlLoop_step,
    SendMotionCmd, SendLightCmd, NewStatusMsgReceivedCallback, serial_close,
    via_can, via_serial, mbind, M_bind, mret, M_ret, this, update, act, undefined in *.

Ltac done_step :=
  cbn; repeat split; try reflexivity; try assumption; try discriminate;
  try (rewrite ?orb_false_r; reflexivity);
  try (repeat constructor).

Section DriveSteps.
Context `{proto : ScoutProtocol} `{limits : ScoutLimits} `{ports : SerialPorts}.

Lemma ParseCANFrame_discards (f : can_frame) (b : ScoutBase) :
  ParseCANFrame f b
  = if discards f then Some (tt, b, [CerrChecksumMismatch (can_id f)])
    else Some (tt, with_scout_state
                     (UpdateScoutState (UnpackScoutCANFrameToMsg f) (scout_state_ b)) b, []).
Proof. unfold ParseCANFrame. fold (discards f). destruct (discards f); reflexivity. Qed.

(** The cases of one event that is defined, on a driver taken apart into
    its fields. *)
Ltac drive_inv H ev ci si cc sc ts le lr th :=
  destruct ev as [n r | | [v w f | cmd | | rx | ]]; cbn [drive object cmd_thread_] in H;
  [ destruct (Z.eq_dec r 0) as [-> | Hr];
    [rewrite Connect_can in H | rewrite (Connect_serial _ _ _ Hr) in H];
    cbn in H; [| destruct (port_opens n r) eqn:Hopen, sc; cbn in H]
  | unfold_M; cbn in H; destruct sc; [destruct si as [[pn pb [|]] |] |]; cbn in H;
    try discriminate H
  | rewrite SetMotionCommand_unfold in H;
    destruct (static_cast_uint8 _) as [l |]; [| discriminate H];
    destruct (static_cast_uint8 _) as [a |]; [| discriminate H];
    cbn in H; destruct ts, th as [[p [c1 c2]] |]; cbn in H; try discriminate H
  | cbn in H
  | cbn in H
  | rewrite ParseCANFrame_discards in H; destruct (discards rx) eqn:Hdisc; cbn in H
  | destruct th as [[p [c1 c2]] |];
    [unfold_M; cbn in H; destruct p, cc, ci, si, lr, le; cbn in H; try discriminate H |] ];
  injection H as <- <-;
  try destruct th as [[p [c1 c2]] |].

(** What one event logs and how it moves the counters, the thread flag,
    the CAN flag and the robot state. *)
Lemma drive_log (ev : Event) (d d' : Driver) (t : list Action) :
  drive ev d = Some (d', t) ->
  map MotionControl.count (motion_frames t)
  = (if thread_acts_at AtSendMotion ev d then [cmd_count (counters_of d)] else [])
  /\ map LightControl.count (light_frames t)
     = (if thread_acts_at AtSendLight ev d then [light_cmd_count (counters_of d)] else [])
  /\ counters_of d'
     = {| cmd_count := if thread_acts_at AtSendMotion ev d
                       then incr_uint8 (cmd_count (counters_of d))
                       else cmd_count (counters_of d);
          light_cmd_count := if thread_acts_at AtSendLight ev d
                             then incr_uint8 (light_cmd_count (counters_of d))
                             else light_cmd_count (counters_of d) |}
  /\ thread_starts t
     = (if is_motion_call ev && negb (cmd_thread_started_ (object d)) then 1 else 0)%nat
  /\ cmd_thread_started_ (object d') = cmd_thread_started_ (object d) || is_motion_call ev
  /\ (can_connected_ (object d) = true ->
      can_connected_ (object d') = true /\ Forall (fun a => is_serial_send a = false) t)
  /\ scout_state_ (object d') = received (scout_state_ (object d)) ev.
Proof.
  destruct d as [[ci si cc sc ts tp mc lc le lr st] th]. intros H.
  drive_inv H ev ci si cc sc ts le lr th; unfold received; rewrite ?Hdisc; done_step.
Qed.

(** A defined event keeps the flags in step with the handles and with the
    thread, a ready transport ready, and a started thread running. *)
Lemma drive_preserves (ev : Event) (d d' : Driver) (t : list Action) :
  drive ev d = Some (d', t) -> consistent d = true ->
  consistent d' = true
  /\ (transport_ready (object d) -> transport_ready (object d'))
  /\ (is_Some (cmd_thread_ d) -> is_Some (cmd_thread_ d')).
Proof.
  destruct d as [[ci si cc sc ts tp mc lc le lr st] th]. intros H.
  unfold consistent, transport_ready.
  drive_inv H ev ci si cc sc ts le lr th; cbn;
    try destruct cc; try destruct ci; try destruct sc; try destruct si; try destruct ts;
    cbn; intros Hc; try discriminate Hc; repeat split; try reflexivity; eauto;
    try (intros [? [=]]).
Qed.

(** An event is defined on a ready transport. *)
Lemma drive_defined (ev : Event) (d : Driver) :
  consistent d = true -> transport_ready (object d) -> event_defined ev ->
  is_Some (drive ev d).
Proof.
  destruct d as [[ci si cc sc ts tp mc lc le lr st] th].
  unfold consistent, transport_ready; cbn [object cmd_thread_ can_connected_ can_if_
    serial_connected_ serial_if_ cmd_thread_started_].
  intros Hc Hr Hd.
  destruct ev as [n r | | [v w f | cmd | | rx | ]]; cbn [drive object cmd_thread_].
  - destruct (Z.eq_dec r 0) as [-> | Hne];
      [rewrite Connect_can | rewrite (Connect_serial _ _ _ Hne)]; cbn;
      [| destruct (port_opens n r), sc]; cbn; eauto.
  - unfold_M. cbn. destruct sc; [| cbn; eauto].
    destruct si as [[pn pb [|]] |]; cbn; eauto.
    destruct ci, cc; discriminate Hc.
  - rewrite SetMotionCommand_unfold. destruct Hd as [[l Hl] [a Ha]]. unfold percent.
    rewrite Hl, Ha. cbn.
    destruct ts, th; cbn; eauto; destruct ci, si, cc, sc; discriminate Hc.
  - cbn. eauto.
  - cbn. eauto.
  - rewrite ParseCANFrame_discards. destruct (discards rx); cbn; eauto.
  - destruct th as [l |]; [| eauto].
    match goal with |- context [ControlLoop_step l ?b] =>
      destruct (ControlLoop_step_ready l b Hr) as (l' & b' & t & -> & _) end.
    eauto.
Qed.

(** [Connect] is defined whatever came before, and leaves a transport the
    sends can go through. *)
Lemma drive_connect (dev_name : string) (baud_rate : Z) (d : Driver) :
  consistent d = true ->
  exists d' t,
    drive (EvConnect dev_name baud_rate) d = Some (d', t)
    /\ consistent d' = true
    /\ transport_ready (object d')
    /\ cmd_thread_ d' = cmd_thread_ d.
Proof.
  destruct d as [[ci si cc sc ts tp mc lc le lr st] th].
  unfold consistent, transport_ready. cbn [drive object cmd_thread_]. intros Hc.
  destruct (Z.eq_dec baud_rate 0) as [-> | Hne];
    [rewrite Connect_can | rewrite (Connect_serial _ _ _ Hne)]; cbn;
    [| destruct (port_opens dev_name baud_rate)]; destruct ci, si, cc, sc, ts; cbn in *;
    try discriminate Hc; eexists _, _; (split; [reflexivity |]); cbn; eauto.
Qed.

(** Until the motion setter is called there is no command thread, and
    nothing is sent. *)
Lemma drive_idle (ev : Event) (d : Driver) :
  consistent d = true -> cmd_thread_ d = None -> is_motion_call ev = false ->
  exists d' t,
    drive ev d = Some (d', t)
    /\ consistent d' = true
    /\ cmd_thread_ d' = None
    /\ Forall (fun a => is_send a = false) t.
Proof.
  destruct d as [[ci si cc sc ts tp mc lc le lr st] th].
  unfold consistent. cbn [object cmd_thread_ can_connected_ can_if_
    serial_connected_ serial_if_ cmd_thread_started_].
  intros Hc -> Hm.
  destruct ev as [n r | | [v w f | cmd | | rx | ]]; cbn [drive object cmd_thread_];
    try discriminate Hm.
  - destruct (Z.eq_dec r 0) as [-> | Hne];
      [rewrite Connect_can | rewrite (Connect_serial _ _ _ Hne)]; cbn;
      [| destruct (port_opens n r)]; destruct ci, si, cc, sc, ts; cbn in *;
      try discriminate Hc; eexists _, _; (split; [reflexivity |]); cbn;
      repeat split; repeat constructor.
  - unfold_M. cbn. destruct ci, si as [[pn pb [|]] |], cc, sc, ts; cbn in *;
      try discriminate Hc; eexists _, _; (split; [reflexivity |]); cbn;
      repeat split; repeat constructor.
  - cbn. eexists _, _. split; [reflexivity |]. cbn. repeat split; [exact Hc | constructor].
  - cbn. eexists _, _. split; [reflexivity |]. cbn. repeat split; [exact Hc | constructor].
  - rewrite ParseCANFrame_discards. destruct (discards rx); cbn;
      eexists _, _; (split; [reflexivity |]); cbn; repeat split; try exact Hc;
      repeat constructor.
  - eexists _, _. split; [reflexivity |]. cbn. repeat split; [exact Hc | constructor].
Qed.

Lemma drive_all_app (xs ys : list Event) :
  forall d : Driver,
    drive_all (xs ++ ys) d
    = match drive_all xs d with
      | Some (d1, t1) =>
          match drive_all ys d1 with
          | Some (d2, t2) => Some (d2, t1 ++ t2)
          | None => None
          end
      | None => None
      end.
Proof.
  induction xs as [| ev xs IH]; intros d; cbn [app drive_all].
  - destruct (drive_all ys d) as [[d2 t2] |]; reflexivity.
  - destruct (drive ev d) as [[d1 t1] |]; [| reflexivity].
    rewrite IH. destruct (drive_all xs d1) as [[d2 t2] |]; [| reflexivity].
    destruct (drive_all ys d2) as [[d3 t3] |]; [| reflexivity].
    rewrite app_assoc. reflexivity.
Qed.

(** Any sequence of defined events is defined on a ready transport. *)
Lemma drive_all_defined (evs : list Event) :
  forall d : Driver,
    consistent d = true -> transport_ready (object d) -> Forall event_defined evs ->
    exists d' t,
      drive_all evs d = Some (d', t)
      /\ consistent d' = true
      /\ transport_ready (object d')
      /\ (is_Some (cmd_thread_ d) -> is_Some (cmd_thread_ d')).
Proof.
  induction evs as [| ev evs IH]; intros d Hc Hr Hd.
  - exists d, []. repeat split; auto.
  - apply Forall_cons in Hd as [Hev Hevs].
    destruct (drive_defined ev d Hc Hr Hev) as [[d1 t1] H1].
    destruct (drive_preserves ev d d1 t1 H1 Hc) as (Hc1 & Hr1 & Hth1).
    destruct (IH d1 Hc1 (Hr1 Hr) Hevs) as (d2 & t2 & H2 & Hc2 & Hr2 & Hth2).
    exists d2, (t1 ++ t2). cbn [drive_all]. rewrite H1, H2. repeat split; auto.
Qed.

(** A step of a schedule on a driver whose thread has been started is
    the same event of the driver. *)
Lemma step_is_drive (e : Call) (l : LoopThread) (b : ScoutBase) :
  cmd_thread_started_ b = true ->
  drive (EvCall e) {| object := b; cmd_thread_ := Some l |}
  = option_map (fun r => ({| object := snd (fst r); cmd_thread_ := Some (fst (fst r)) |}, snd r))
      (step e l b)
  /\ forall l' b' t, step e l b = Some (l', b', t) -> cmd_thread_started_ b' = true.
Proof.
  destruct b as [ci si cc sc ts tp mc lc le lr st], l as [p [c1 c2]]. cbn. intros ->.
  destruct e as [v w f | cmd | | rx |]; cbn [drive step object cmd_thread_].
  - unfold mbind, M_bind, mret, M_ret. rewrite !SetMotionCommand_unfold.
    destruct (static_cast_uint8 _) as [x |]; [| cbn; split; [reflexivity | intros ? ? ? [=]]].
    destruct (static_cast_uint8 _) as [y |]; [| cbn; split; [reflexivity | intros ? ? ? [=]]].
    cbn. split; [reflexivity |]. intros l' b' t. intros [= <- <- <-]. reflexivity.
  - cbn. split; [reflexivity |]. intros l' b' t [= <- <- <-]. reflexivity.
  - cbn. split; [reflexivity |]. intros l' b' t [= <- <- <-]. reflexivity.
  - unfold mbind, M_bind, mret, M_ret. rewrite !ParseCANFrame_discards.
    destruct (discards rx); cbn; (split; [reflexivity |]);
      intros l' b' t [= <- <- <-]; reflexivity.
  - unfold ControlLoop_step, SendMotionCmd, SendLightCmd, via_can, via_serial,
      mbind, M_bind, mret, M_ret, this, update, act, undefined; cbn.
    destruct p, cc, ci, si; cbn; (split; [reflexivity |]);
      intros l' b' t [= <- <- <-]; reflexivity.
Qed.

(** A schedule run from a thread and an object whose started flag is set
    is the run of the driver they make up. *)
Lemma run_is_drive_all (es : list Call) :
  forall (l : LoopThread) (b : ScoutBase),
    cmd_thread_started_ b = true ->
    drive_all (map EvCall es) {| object := b; cmd_thread_ := Some l |}
    = option_map (fun r => ({| object := snd r; cmd_thread_ := Some (snd (fst r)) |},
                            logged (fst (fst r))))
        (run es l b).
Proof.
  induction es as [| e es IH]; intros l b Hs; [reflexivity |].
  cbn [map drive_all run].
  destruct (step_is_drive e l b Hs) as [-> Hkeep].
  destruct (step e l b) as [[[l1 b1] t1] |]; [| reflexivity].
  cbn [option_map fst snd]. rewrite (IH l1 b1 (Hkeep _ _ _ eq_refl)).
  destruct (run es l1 b1) as [[[h l2] b2] |]; reflexivity.
Qed.

Lemma motion_frames_app (t1 t2 : list Action) :
  motion_frames (t1 ++ t2) = motion_frames t1 ++ motion_frames t2.
Proof. unfold motion_frames. apply omap_app. Qed.

Lemma light_frames_app (t1 t2 : list Action) :
  light_frames (t1 ++ t2) = light_frames t1 ++ light_frames t2.
Proof. unfold light_frames. apply omap_app. Qed.

Lemma successive_counts_cons (c : Z) (counts : list Z) (n : nat) (c' : Z) :
  counts = [c] -> c' = incr_uint8 c ->
  counts ++ successive_counts c' n = successive_counts c (S n).
Proof. intros -> ->. reflexivity. Qed.

(** What a sequence of events logs: frames of each kind with successive
    counts from the thread's counters, at most one start of the command
    thread, no frame on the serial port once the CAN flag is set; and the
    robot state it leaves is the receive path folded over the events. *)
Lemma drive_all_log (evs : list Event) :
  forall (d d' : Driver) (t : list Action),
    drive_all evs d = Some (d', t) ->
    map MotionControl.count (motion_frames t)
    = successive_counts (cmd_count (counters_of d)) (length (motion_frames t))
    /\ map LightControl.count (light_frames t)
       = successive_counts (light_cmd_count (counters_of d)) (length (light_frames t))
    /\ thread_starts t
       = (if cmd_thread_started_ (object d) then 0
          else if existsb is_motion_call evs then 1 else 0)%nat
    /\ cmd_thread_started_ (object d')
       = cmd_thread_started_ (object d) || existsb is_motion_call evs
    /\ (can_connected_ (object d) = true ->
        can_connected_ (object d') = true /\ Forall (fun a => is_serial_send a = false) t)
    /\ scout_state_ (object d') = foldl received (scout_state_ (object d)) evs.
Proof.
  induction evs as [| ev evs IH]; intros d d' t H; cbn [drive_all] in H.
  - injection H as <- <-. cbn. rewrite orb_false_r.
    destruct (cmd_thread_started_ (object d)); repeat split; auto.
  - destruct (drive ev d) as [[d1 t1] |] eqn:H1; [| discriminate H].
    destruct (drive_all evs d1) as [[d2 t2] |] eqn:H2; [| discriminate H].
    injection H as <- <-.
    destruct (drive_log ev d d1 t1 H1) as (Hm & Hl & Hcnt & Hs & Hst & Hcan & Hrx).
    destruct (IH d1 d2 t2 H2) as (IHm & IHl & IHs & IHst & IHcan & IHrx).
    rewrite Hcnt in IHm, IHl. cbn [cmd_count light_cmd_count] in IHm, IHl.
    rewrite motion_frames_app, light_frames_app, !map_app, !length_app.
    rewrite <- (length_map MotionControl.count (motion_frames t1)).
    rewrite <- (length_map LightControl.count (light_frames t1)).
    rewrite Hm, Hl, IHm, IHl.
    split; [| split; [| split; [| split; [| split]]]].
    + destruct (thread_acts_at AtSendMotion ev d); reflexivity.
    + destruct (thread_acts_at AtSendLight ev d); reflexivity.
    + unfold thread_starts in *. rewrite List.filter_app, length_app, Hs, IHs, Hst.
      cbn [existsb].
      destruct (cmd_thread_started_ (object d)), (is_motion_call ev),
        (existsb is_motion_call evs); reflexivity.
    + rewrite IHst, Hst. cbn [existsb]. rewrite orb_assoc. reflexivity.
    + intros Hcc. destruct (Hcan Hcc) as [Hcc1 Hf1]. destruct (IHcan Hcc1) as [Hcc2 Hf2].
      split; [exact Hcc2 |]. apply Forall_app. auto.
    + cbn [foldl]. rewrite IHrx, Hrx. reflexivity.
Qed.

(** Without a serial port, and with no [Connect] that asks for one, an
    event leaves the driver without one and calls nothing on one: neither
    [ParseUARTBuffer] nor the callback of the serial parser is
    registered. *)
Lemma drive_without_serial (ev : Event) (d d' : Driver) (t : list Action) :
  drive ev d = Some (d', t) -> serial_if_ (object d) = None -> opens_serial ev = false ->
  serial_if_ (object d') = None /\ Forall (fun a => is_serial_action a = false) t.
Proof.
  destruct d as [[ci si cc sc ts tp mc lc le lr st] th]. intros H.
  drive_inv H ev ci si cc sc ts le lr th; cbn; intros Hs Ho;
    try discriminate Hs; try discriminate Ho;
    try (apply negb_false_iff, Z.eqb_eq in Ho; contradiction);
    (split; [first [reflexivity | exact Hs] |]); repeat constructor.
Qed.

Lemma drive_all_without_serial (evs : list Event) :
  forall (d d' : Driver) (t : list Action),
    drive_all evs d = Some (d', t) ->
    serial_if_ (object d) = None -> Forall (fun ev => opens_serial ev = false) evs ->
    serial_if_ (object d') = None /\ Forall (fun a => is_serial_action a = false) t.
Proof.
  induction evs as [| ev evs IH]; intros d d' t H Hs Hn; cbn [drive_all] in H.
  - injection H as <- <-. split; [exact Hs | constructor].
  - destruct (drive ev d) as [[d1 t1] |] eqn:H1; [| discriminate H].
    destruct (drive_all evs d1) as [[d2 t2] |] eqn:H2; [| discriminate H].
    injection H as <- <-. apply Forall_cons in Hn as [Hev Hevs].
    destruct (drive_without_serial ev d d1 t1 H1 Hs Hev) as [Hs1 Hf1].
    destruct (IH d1 d2 t2 H2 Hs1 Hevs) as [Hs2 Hf2].
    split; [exact Hs2 | apply Forall_app; auto].
Qed.


(** [~ScoutBase] on a driver whose flags have their handles. *)
Lemma Destructor_consistent (d : Driver) :
  consistent d = true ->
  exists c b t,
    Destructor d = Some (c, b, t)
    /\ (c = WaitsForCmdThread <-> cmd_thread_started_ (object d) = true)
    /\ t = (if serial_connected_ (object d) then [SerialClose] else [])
    /\ serial_connected_ b = serial_connected_ (object d)
    /\ (serial_connected_ (object d) = true ->
        exists p, serial_if_ b = Some p /\ is_open p = false).
Proof.
  destruct d as [[ci si cc sc ts tp mc lc le lr st] th].
  unfold consistent, Destructor. unfold_M. cbn.
  destruct ci, si as [[pn pb po] |], cc, sc, ts, th; cbn; intros Hc; try discriminate Hc;
    eexists _, _, _; (split; [reflexivity |]); cbn; repeat split;
    try discriminate; eauto.
Qed.

End DriveSteps.

(** ** The driver and its command thread, over whole runs

    A run starts from a driver that is [consistent]: each connection flag
    that is set has its handle, and the started flag is set exactly when
    there is a command thread. Where the run is to send, its transport is
    ready, or the run begins with [Connect]; and its calls of the motion
    setter have velocities whose conversions are defined
    ([event_defined]). *)

Section DriveRuns.
Context `{proto : ScoutProtocol} `{limits : ScoutLimits} `{ports : SerialPorts}.

(** X10. Once [Connect] has been called, nothing the driver does
    afterwards is undefined: from a driver whose set flags have their
    handles, [Connect] followed by any sequence of calls of [Connect],
    [Disconnect], the setters (with convertible velocities), received
    frames and actions of the command thread is defined to its end, and
    leaves the flags with their handles and a transport the sends can go
    through, whether or not a serial port came to open. *)
Theorem Connect_first_makes_every_call_defined
    (dev_name : string) (baud_rate : Z) (evs : list Event) (d : Driver) :
  consistent d = true -> Forall event_defined evs ->
  exists d' t,
    drive_all (EvConnect dev_name baud_rate :: evs) d = Some (d', t)
    /\ consistent d' = true
    /\ transport_ready (object d').
Proof.
  intros Hc Hd.
  destruct (drive_connect dev_name baud_rate d Hc) as (d1 & t1 & H1 & Hc1 & Hr1 & _).
  destruct (drive_all_defined evs d1 Hc1 Hr1 Hd) as (d2 & t2 & H2 & Hc2 & Hr2 & _).
  exists d2, (t1 ++ t2). cbn [drive_all]. rewrite H1, H2. auto.
Qed.

(** X11. Before any [Connect], the motion setter starts the command
    thread all the same, and the first action of that thread, its motion
    send, goes through the null serial handle: it is undefined. *)
Theorem motion_command_before_Connect_is_undefined
    (v w : float) (f : FaultClearFlag) (d : Driver) :
  can_connected_ (object d) = false -> serial_if_ (object d) = None ->
  cmd_thread_started_ (object d) = false -> cmd_thread_ d = None ->
  conversions_defined v w ->
  exists d1,
    drive (EvCall (CallSetMotionCommand v w f)) d
    = Some (d1, [ThreadStart (cmd_thread_period_ms_ (object d))])
    /\ cmd_thread_ d1 = Some ControlLoop_entry
    /\ drive (EvCall LoopStep) d1 = None.
Proof.
  destruct d as [[ci si cc sc ts tp mc lc le lr st] th].
  cbn [object cmd_thread_ can_connected_ serial_if_ cmd_thread_started_].
  intros -> -> -> -> [[l Hl] [a Ha]].
  cbn [drive object cmd_thread_]. rewrite SetMotionCommand_unfold. unfold percent.
  rewrite Hl, Ha. cbn. eexists. split; [reflexivity |]. split; reflexivity.
Qed.

(** X12. The command thread is started at most once, and by the motion
    setter alone: over any run the log holds one start if the thread had
    not been started and the run calls the motion setter, and none
    otherwise; the started flag is never cleared, and there is a thread
    at the end exactly when the flag is set. *)
Theorem command_thread_is_started_once (evs : list Event) (d : Driver) :
  consistent d = true -> transport_ready (object d) -> Forall event_defined evs ->
  exists d' t,
    drive_all evs d = Some (d', t)
    /\ thread_starts t
       = (if cmd_thread_started_ (object d) then 0
          else if existsb is_motion_call evs then 1 else 0)%nat
    /\ cmd_thread_started_ (object d')
       = cmd_thread_started_ (object d) || existsb is_motion_call evs
    /\ (is_Some (cmd_thread_ d') <-> cmd_thread_started_ (object d') = true).
Proof.
  intros Hc Hr Hd.
  destruct (drive_all_defined evs d Hc Hr Hd) as (d' & t & H & Hc' & _ & _).
  destruct (drive_all_log evs d d' t H) as (_ & _ & Hs & Hst & _ & _).
  exists d', t. repeat (split; [assumption |]).
  unfold consistent in Hc'. apply andb_prop in Hc' as [_ He].
  apply Bool.eqb_prop in He. rewrite He.
  destruct (cmd_thread_ d'); split; intros Hx; try discriminate Hx; eauto.
  destruct Hx as [? [=]].
Qed.

(** X13. The light setters do not start the command thread. Until the
    motion setter is called there is no thread, and whatever else is
    called, be it [Connect], [Disconnect], either light setter or the
    receive callback, is defined and sends no frame: a light command set
    before the first motion command stays unsent. *)
Theorem nothing_is_sent_before_the_first_motion_command (evs : list Event) (d : Driver) :
  consistent d = true -> cmd_thread_ d = None ->
  Forall (fun ev => is_motion_call ev = false) evs ->
  exists d' t,
    drive_all evs d = Some (d', t)
    /\ Forall (fun a => is_send a = false) t
    /\ cmd_thread_ d' = None
    /\ cmd_thread_started_ (object d') = false.
Proof.
  revert d. induction evs as [| ev evs IH]; intros d Hc Hth Hn.
  - exists d, []. repeat split; auto.
    unfold consistent in Hc. apply andb_prop in Hc as [_ He].
    apply Bool.eqb_prop in He. rewrite He, Hth. reflexivity.
  - apply Forall_cons in Hn as [Hev Hevs].
    destruct (drive_idle ev d Hc Hth Hev) as (d1 & t1 & H1 & Hc1 & Hth1 & Hs1).
    destruct (IH d1 Hc1 Hth1 Hevs) as (d2 & t2 & H2 & Hs2 & Hth2 & Hf2).
    exists d2, (t1 ++ t2). cbn [drive_all]. rewrite H1, H2.
    repeat split; auto. apply Forall_app. auto.
Qed.

(** X14. [ControlLoop] starts both its counters at 0. From a driver
    without a command thread, the motion frames of a run carry the counts
    0, 1, 2, ... modulo 256 in the order they are sent, and so do the
    light frames, each kind counted on its own. *)
Theorem frames_are_numbered_from_zero
    (dev_name : string) (baud_rate : Z) (evs : list Event) (d : Driver) :
  consistent d = true -> cmd_thread_ d = None -> Forall event_defined evs ->
  exists d' t,
    drive_all (EvConnect dev_name baud_rate :: evs) d = Some (d', t)
    /\ map MotionControl.count (motion_frames t)
       = map (fun k => Z.of_nat k mod 256) (seq 0 (length (motion_frames t)))
    /\ map LightControl.count (light_frames t)
       = map (fun k => Z.of_nat k mod 256) (seq 0 (length (light_frames t))).
Proof.
  intros Hc Hth Hd.
  destruct (drive_connect dev_name baud_rate d Hc) as (d1 & t1 & H1 & Hc1 & Hr1 & _).
  destruct (drive_all_defined evs d1 Hc1 Hr1 Hd) as (d2 & t2 & H2 & _).
  assert (H : drive_all (EvConnect dev_name baud_rate :: evs) d = Some (d2, t1 ++ t2))
    by (cbn [drive_all]; rewrite H1, H2; reflexivity).
  exists d2, (t1 ++ t2). split; [exact H |].
  destruct (drive_all_log _ d d2 _ H) as (Hm & Hl & _).
  unfold counters_of in Hm, Hl. rewrite Hth in Hm, Hl. cbn in Hm, Hl.
  rewrite Hm, Hl, !successive_counts_closed by lia.
  split; apply map_ext; intros k; reflexivity.
Qed.

(** X15. The sends test the CAN flag first and the flag is never
    cleared: once it is set, every frame goes to the CAN interface, and
    none to a serial port, not even after a later [Connect] has opened
    one. *)
Theorem CAN_takes_every_frame_once_connected (evs : list Event) (d : Driver) :
  consistent d = true -> can_connected_ (object d) = true -> Forall event_defined evs ->
  exists d' t,
    drive_all evs d = Some (d', t)
    /\ can_connected_ (object d') = true
    /\ Forall (fun a => is_serial_send a = false) t.
Proof.
  intros Hc Hcc Hd.
  assert (Hr : transport_ready (object d)).
  { unfold transport_ready. rewrite Hcc. unfold consistent in Hc.
    rewrite Hcc in Hc. destruct (can_if_ (object d)); [eauto | discriminate Hc]. }
  destruct (drive_all_defined evs d Hc Hr Hd) as (d' & t & H & _).
  destruct (drive_all_log evs d d' t H) as (_ & _ & _ & _ & Hcan & _).
  exists d', t. split; [exact H |]. exact (Hcan Hcc).
Qed.

(** X16. On the CAN bus nothing but [ParseCANFrame] writes the robot
    state. From a driver that has no serial port and is given none during
    the run, so that neither [ParseUARTBuffer] nor the callback of the
    serial parser is ever registered and nothing is called on a serial
    port, [GetScoutState] returns after the run the reducer applied, in
    their order of arrival, to the decoded frames that passed the test of
    [ParseCANFrame], starting from the state before the run; and it
    changes nothing and logs nothing itself. *)
Theorem robot_state_is_the_fold_of_received_frames (evs : list Event) (d : Driver) :
  consistent d = true -> transport_ready (object d) -> serial_if_ (object d) = None ->
  Forall event_defined evs -> Forall (fun ev => opens_serial ev = false) evs ->
  exists d' t,
    drive_all evs d = Some (d', t)
    /\ serial_if_ (object d') = None
    /\ Forall (fun a => is_serial_action a = false) t
    /\ GetScoutState (object d')
       = Some (foldl received (scout_state_ (object d)) evs, object d', []).
Proof.
  intros Hc Hr Hs Hd Hn.
  destruct (drive_all_defined evs d Hc Hr Hd) as (d' & t & H & _).
  destruct (drive_all_log evs d d' t H) as (_ & _ & _ & _ & _ & Hrx).
  destruct (drive_all_without_serial evs d d' t H Hs Hn) as [Hs' Hf].
  exists d', t. split; [exact H |]. split; [exact Hs' |]. split; [exact Hf |].
  unfold GetScoutState, mbind, M_bind, mret, M_ret, this. cbn. rewrite Hrx. reflexivity.
Qed.

(** X19. [Disconnect] stops nothing. On a serial connection it closes the
    port and leaves the serial flag set and the command thread running,
    and the thread's next motion send hands its frame, with the stored
    command and the next count, to the closed port. *)
Theorem Disconnect_does_not_stop_the_sends
    (d : Driver) (l : LoopThread) (p : ASyncSerial) :
  can_connected_ (object d) = false -> serial_connected_ (object d) = true ->
  serial_if_ (object d) = Some p -> cmd_thread_ d = Some l -> at_point l = AtSendMotion ->
  exists d1 t1 d2 m,
    drive EvDisconnect d = Some (d1, t1)
    /\ t1 = (if is_open p then [SerialClose] else [])
    /\ serial_if_ (object d1) = Some (set_port_open false p)
    /\ serial_connected_ (object d1) = true
    /\ cmd_thread_ d1 = Some l
    /\ drive (EvCall LoopStep) d1 = Some (d2, [SerialSendMotion m])
    /\ MotionControl.count m = cmd_count (counters l)
    /\ carries (current_motion_cmd_ (object d)) m.
Proof.
  destruct d as [[ci si cc sc ts tp mc lc le lr st] th], l as [pt c], p as [pn pb po].
  cbn [object cmd_thread_ can_connected_ serial_connected_ serial_if_ at_point].
  intros -> -> -> -> ->.
  cbn [drive object cmd_thread_]. unfold_M. cbn.
  destruct po; cbn; eexists _, _, _, _; (split; [reflexivity |]); cbn;
    repeat split; reflexivity.
Qed.

(** X20. [~ScoutBase] closes the serial port whenever the serial flag is
    set, open or not, so also after a [Disconnect] has closed it; and it
    joins the command thread whenever one was started. As the thread's
    loop has no exit, the destructor of a driver that has been given a
    motion command, or whose thread ran already, does not return. *)
Theorem destruction_waits_for_a_started_thread (evs : list Event) (d : Driver) :
  consistent d = true -> transport_ready (object d) -> Forall event_defined evs ->
  exists d' t c b t',
    drive_all evs d = Some (d', t)
    /\ Destructor d' = Some (c, b, t')
    /\ (c = WaitsForCmdThread <->
        cmd_thread_started_ (object d) = true \/ existsb is_motion_call evs = true)
    /\ t' = (if serial_connected_ (object d') then [SerialClose] else [])
    /\ serial_connected_ b = serial_connected_ (object d').
Proof.
  intros Hc Hr Hd.
  destruct (drive_all_defined evs d Hc Hr Hd) as (d' & t & H & Hc' & _ & _).
  destruct (drive_all_log evs d d' t H) as (_ & _ & _ & Hst & _ & _).
  destruct (Destructor_consistent d' Hc') as (c & b & t' & HD & Hw & Ht' & Hs & _).
  exists d', t, c, b, t'. repeat (split; [assumption |]). split; [| split; assumption].
  rewrite Hw, Hst. apply orb_true_iff.
Qed.

(** X21. A serial port that does not open costs one line on [std::cerr]
    and nothing else. After such a [Connect] on a driver with no
    connection, the motion setter still starts the command thread, and
    the thread hands its frames to the closed port; in these frames the
    code has assigned neither the identifier nor the control mode, since
    neither flag is set, nor a checksum. *)
Theorem failed_serial_Connect_still_sends
    (dev_name : string) (baud_rate : Z) (v w : float) (f : FaultClearFlag) (d : Driver) :
  consistent d = true ->
  can_connected_ (object d) = false -> serial_connected_ (object d) = false ->
  cmd_thread_ d = None ->
  baud_rate <> 0 -> port_opens dev_name baud_rate = false -> conversions_defined v w ->
  exists d' t m,
    drive_all [EvConnect dev_name baud_rate; EvCall (CallSetMotionCommand v w f);
               EvCall LoopStep] d
    = Some (d', t)
    /\ CerrSerialConnectFailed ∈ t
    /\ serial_connected_ (object d') = false
    /\ last t = Some (SerialSendMotion m)
    /\ MotionControl.id m = None
    /\ MotionControl.control_mode m = None
    /\ MotionControl.checksum m = None
    /\ MotionControl.count m = 0.
Proof.
  destruct d as [[ci si cc sc ts tp mc lc le lr st] th].
  unfold consistent.
  cbn [object cmd_thread_ can_connected_ can_if_ serial_connected_ serial_if_
       cmd_thread_started_].
  intros Hc -> -> -> Hb Hp [[l Hl] [a Ha]].
  assert (ts = false) as ->.
  { destruct ts; [| reflexivity]. rewrite andb_false_r in Hc. discriminate Hc. }
  cbn [drive_all drive object cmd_thread_].
  rewrite (Connect_serial _ _ _ Hb), Hp. cbn.
  rewrite SetMotionCommand_unfold. unfold percent. rewrite Hl, Ha. cbn.
  unfold_M. cbn. eexists _, _, _. split; [reflexivity |].
  split; [| repeat split; reflexivity].
  rewrite list_elem_of_In. cbn. tauto.
Qed.

End DriveRuns.

(** ** The command thread between its locks, step by step *)

Ltac unfold_fine :=
  unfold ControlLoop_fine_step, SendMotionCmd_build, SendMotionCmd_hand_off,
    SendLightCmd_take, SendLightCmd_hand_off, SetMotionCommand_start, StartCmdThread,
    SetLightCommand, DisableLightCmdControl,
    via_can, via_serial, mbind, M_bind, mret, M_ret, this, update, act, undefined in *.

Section FineSteps.
Context `{proto : ScoutProtocol} `{limits : ScoutLimits}.

(** The halves put together are the sends and the setter. *)
Lemma SendMotionCmd_in_two (count : Z) (b : ScoutBase) :
  SendMotionCmd count b = (m_msg ← SendMotionCmd_build count; SendMotionCmd_hand_off m_msg) b.
Proof.
  destruct b as [ci si cc sc ts tp mc lc le lr st].
  unfold SendMotionCmd. unfold_fine. cbn.
  destruct cc, ci, si; reflexivity.
Qed.

Lemma SendLightCmd_in_two (count : Z) (b : ScoutBase) :
  SendLightCmd count b = (l_msg ← SendLightCmd_take count; SendLightCmd_hand_off l_msg) b.
Proof.
  destruct b as [ci si cc sc ts tp mc lc le lr st].
  unfold SendLightCmd. unfold_fine. cbn.
  destruct cc, ci, si, le; reflexivity.
Qed.

Lemma SetMotionCommand_in_two (v w : float) (f : FaultClearFlag) (b : ScoutBase) :
  SetMotionCommand v w f b = (SetMotionCommand_start ;; SetMotionCommand_store v w f) b.
Proof.
  destruct b as [ci si cc sc ts tp mc lc le lr st].
  unfold SetMotionCommand, SetMotionCommand_store, to_uint8. unfold_fine. cbn.
  destruct ts; cbn;
    destruct (static_cast_uint8 _) as [l |]; cbn; try reflexivity;
    destruct (static_cast_uint8 _) as [a |]; cbn; reflexivity.
Qed.

Lemma SetMotionCommand_store_unfold (v w : float) (f : FaultClearFlag) (b : ScoutBase) :
  SetMotionCommand_store v w f b
  = match static_cast_uint8
            (percent min_linear_velocity max_linear_velocity max_linear_velocity v),
          static_cast_uint8
            (percent min_angular_velocity max_angular_velocity max_angular_velocity w)
    with
    | Some l, Some a =>
        Some (tt,
              with_motion_cmd
                {| ScoutMotionCmd.linear_velocity := static_cast_int8 l;
                   ScoutMotionCmd.angular_velocity := static_cast_int8 a;
                   ScoutMotionCmd.fault_clear_flag := f |} b,
              [])
    | _, _ => None
    end.
Proof.
  unfold SetMotionCommand_store, to_uint8, percent.
  unfold mbind, M_bind, mret, M_ret, this, update, act, undefined; cbn.
  destruct (static_cast_uint8 _) as [l |]; cbn; try reflexivity;
    destruct (static_cast_uint8 _) as [a |]; cbn; reflexivity.
Qed.

(** The cases of one step that is defined, on a driver taken apart into
    its fields. *)
Ltac fine_inv H e ci si cc sc ts le lr th :=
  destruct e as [ | v w f | cmd | | rx | ]; cbn [fine_drive fine_object fine_thread] in H;
  [ unfold_fine; cbn in H; destruct ts, th as [[p [c1 c2]] |]; cbn in H; try discriminate H
  | rewrite SetMotionCommand_store_unfold in H;
    destruct (static_cast_uint8 _) as [l |]; [| discriminate H];
    destruct (static_cast_uint8 _) as [a |]; [| discriminate H];
    cbn in H
  | cbn in H
  | cbn in H
  | rewrite ParseCANFrame_discards in H; destruct (discards rx) eqn:Hdisc; cbn in H
  | destruct th as [[p [c1 c2]] |];
    [unfold_fine; cbn in H;
     destruct p as [| [[hi |] ho hf hv hw h0 h1 hc hk] | | | [[gi |] g1 g2 g3 g4 g5 g0 gc gk]],
       cc, ci, si, lr, le;
     cbn in H; try discriminate H |] ];
  injection H as <- <-;
  try destruct th as [[p [c1 c2]] |].

(** A step hands off no motion frame, or the one message the thread
    held; a message the thread holds afterwards it held before or has just
    built from the stored command; and only the store changes the stored
    command. *)
Lemma fine_drive_motion (e : FineCall) (d d' : FineDriver) (t : list Action) :
  fine_drive e d = Some (d', t) ->
  (is_store e = false ->
   current_motion_cmd_ (fine_object d') = current_motion_cmd_ (fine_object d))
  /\ (motion_frames t = []
      /\ (forall m', held_motion d' = Some m' ->
                     held_motion d = Some m'
                     \/ carries (current_motion_cmd_ (fine_object d)) m')
      \/ exists m m',
           held_motion d = Some m
           /\ motion_frames t = [m']
           /\ unsealed_motion m' = unsealed_motion m
           /\ held_motion d' = None).
Proof.
  destruct d as [[ci si cc sc ts tp mc lc le lr st] th]. intros H.
  fine_inv H e ci si cc sc ts le lr th; cbn; (split; [try reflexivity; try discriminate; auto |]).
  all: try (left; split; [reflexivity |]; intros m' Hm'; try discriminate Hm';
            first [left; exact Hm' | right; injection Hm' as <-; repeat split]).
  all: try (right; eexists _, _; repeat split; reflexivity).
Qed.


(** A step that is no light setter leaves the standing request. It leaves
    the flag and the light message held, too, and sends no light frame; or
    it is the thread taking the request, which lowers the flag; or the
    thread handing off the light message it held. *)
Lemma fine_drive_light (e : FineCall) (d d' : FineDriver) (t : list Action) :
  fine_drive e d = Some (d', t) -> is_fine_light_setter e = false ->
  standing_light_request (fine_object d') = standing_light_request (fine_object d)
  /\ (light_frames t = []
      /\ held_light d' = held_light d
      /\ light_ctrl_requested_ (fine_object d') = light_ctrl_requested_ (fine_object d)
      /\ (option_map fine_point (fine_thread d') = Some AtTakeLight ->
          option_map fine_point (fine_thread d) = Some AtTakeLight
          \/ light_ctrl_requested_ (fine_object d) = true)
      \/ option_map fine_point (fine_thread d) = Some AtTakeLight
         /\ light_frames t = []
         /\ light_ctrl_requested_ (fine_object d') = false
         /\ (exists l, held_light d' = Some l
                       /\ light_request l = standing_light_request (fine_object d))
      \/ exists l l',
           held_light d = Some l
           /\ light_frames t = [l']
           /\ unsealed_light l' = unsealed_light l
           /\ held_light d' = None
           /\ light_ctrl_requested_ (fine_object d') = light_ctrl_requested_ (fine_object d)
           /\ option_map fine_point (fine_thread d') <> Some AtTakeLight).
Proof.
  destruct d as [[ci si cc sc ts tp mc lc le lr st] th]. intros H.
  fine_inv H e ci si cc sc ts le lr th; cbn; intros Hs; try discriminate Hs;
    (split; [reflexivity |]).
  all: first
    [ left; repeat split; try reflexivity; intros Hq; try discriminate Hq; auto; fail
    | right; left; repeat split; try reflexivity; eexists; split; reflexivity
    | right; right; eexists _, _; repeat split; try reflexivity; discriminate ].
Qed.

(** A step is defined on a ready transport. *)
Lemma fine_drive_defined (e : FineCall) (d : FineDriver) :
  fine_consistent d = true -> transport_ready (fine_object d) -> fine_defined e ->
  is_Some (fine_drive e d).
Proof.
  destruct d as [[ci si cc sc ts tp mc lc le lr st] th].
  unfold fine_consistent, transport_ready;
    cbn [fine_object fine_thread can_connected_ can_if_ serial_connected_ serial_if_
         cmd_thread_started_].
  intros Hc Hr Hd.
  destruct e as [ | v w f | cmd | | rx | ]; cbn [fine_drive fine_object fine_thread].
  - unfold_fine. cbn. destruct ts, th; cbn; eauto.
    destruct (handle_present cc ci && handle_present sc si); discriminate Hc.
  - rewrite SetMotionCommand_store_unfold. destruct Hd as [[l Hl] [a Ha]]. unfold percent.
    rewrite Hl, Ha. cbn. eauto.
  - cbn. eauto.
  - cbn. eauto.
  - rewrite ParseCANFrame_discards. destruct (discards rx); cbn; eauto.
  - destruct th as [[p [c1 c2]] |]; [| eauto].
    unfold_fine. cbn.
    destruct p as [| [[hi |] ho hf hv hw h0 h1 hc hk] | | | [[gi |] g1 g2 g3 g4 g5 g0 gc gk]],
      cc, ci, si, sc, ts; cbn in *;
      try discriminate Hc; try (destruct Hr as [? [=]]); eauto.
Qed.

(** And keeps the flags in step with the handles and the thread. *)
Lemma fine_drive_preserves (e : FineCall) (d d' : FineDriver) (t : list Action) :
  fine_drive e d = Some (d', t) -> fine_consistent d = true ->
  fine_consistent d' = true
  /\ (transport_ready (fine_object d) -> transport_ready (fine_object d'))
  /\ (is_Some (fine_thread d) -> is_Some (fine_thread d')).
Proof.
  destruct d as [[ci si cc sc ts tp mc lc le lr st] th]. intros H.
  unfold fine_consistent, transport_ready.
  fine_inv H e ci si cc sc ts le lr th; cbn;
    try destruct cc; try destruct ci; try destruct sc; try destruct si; try destruct ts;
    cbn; intros Hc; try discriminate Hc; repeat split; try reflexivity; eauto;
    try (intros [? [=]]).
Qed.

Lemma fine_drive_all_app (xs ys : list FineCall) :
  forall d : FineDriver,
    fine_drive_all (xs ++ ys) d
    = match fine_drive_all xs d with
      | Some (d1, t1) =>
          match fine_drive_all ys d1 with
          | Some (d2, t2) => Some (d2, t1 ++ t2)
          | None => None
          end
      | None => None
      end.
Proof.
  induction xs as [| e xs IH]; intros d; cbn [app fine_drive_all].
  - destruct (fine_drive_all ys d) as [[d2 t2] |]; reflexivity.
  - destruct (fine_drive e d) as [[d1 t1] |]; [| reflexivity].
    rewrite IH. destruct (fine_drive_all xs d1) as [[d2 t2] |]; [| reflexivity].
    destruct (fine_drive_all ys d2) as [[d3 t3] |]; [| reflexivity].
    rewrite app_assoc. reflexivity.
Qed.

Lemma fine_drive_all_defined (es : list FineCall) :
  forall d : FineDriver,
    fine_consistent d = true -> transport_ready (fine_object d) -> Forall fine_defined es ->
    exists d' t,
      fine_drive_all es d = Some (d', t)
      /\ fine_consistent d' = true
      /\ transport_ready (fine_object d')
      /\ (is_Some (fine_thread d) -> is_Some (fine_thread d')).
Proof.
  induction es as [| e es IH]; intros d Hc Hr Hd.
  - exists d, []. repeat split; auto.
  - apply Forall_cons in Hd as [He Hes].
    destruct (fine_drive_defined e d Hc Hr He) as [[d1 t1] H1].
    destruct (fine_drive_preserves e d d1 t1 H1 Hc) as (Hc1 & Hr1 & Hth1).
    destruct (IH d1 Hc1 (Hr1 Hr) Hes) as (d2 & t2 & H2 & Hc2 & Hr2 & Hth2).
    exists d2, (t1 ++ t2). cbn [fine_drive_all]. rewrite H1, H2. repeat split; auto.
Qed.

End FineSteps.

Section FineRuns.
Context `{proto : ScoutProtocol} `{limits : ScoutLimits}.

(** The checksum has no part in what a frame carries. *)
Lemma carries_unsealed (cmd : ScoutMotionCmd.t) (m m' : MotionControl.t) :
  unsealed_motion m' = unsealed_motion m -> carries cmd m -> carries cmd m'.
Proof.
  destruct m, m'. unfold unsealed_motion, carries. cbn. intros [= ? ? ? ? ? ? ? ?].
  subst. tauto.
Qed.

Lemma light_request_unsealed (l l' : LightControl.t) :
  unsealed_light l' = unsealed_light l -> light_request l' = light_request l.
Proof.
  destruct l, l'. unfold unsealed_light, light_request. cbn. intros [= ? ? ? ? ? ? ? ?].
  subst. reflexivity.
Qed.

(** While no command is stored, the motion frames handed off are, first,
    the message the thread held when the run began, if it held one and
    hands it off, and then messages that carry the stored command. *)
Lemma fine_run_motion (es : list FineCall) :
  forall (d d' : FineDriver) (t : list Action),
    fine_drive_all es d = Some (d', t) ->
    Forall (fun e => is_store e = false) es ->
    current_motion_cmd_ (fine_object d') = current_motion_cmd_ (fine_object d)
    /\ exists stale fresh,
         motion_frames t = stale ++ fresh
         /\ Forall (carries (current_motion_cmd_ (fine_object d))) fresh
         /\ (stale = []
             \/ exists m m',
                  held_motion d = Some m /\ stale = [m']
                  /\ unsealed_motion m' = unsealed_motion m)
         /\ (forall m', held_motion d' = Some m' ->
                        carries (current_motion_cmd_ (fine_object d)) m'
                        \/ held_motion d = Some m' /\ motion_frames t = []).
Proof.
  induction es as [| e es IH]; intros d d' t H Hn; cbn [fine_drive_all] in H.
  - injection H as <- <-. split; [reflexivity |]. exists [], []. cbn.
    repeat split; auto.
  - destruct (fine_drive e d) as [[d1 t1] |] eqn:H1; [| discriminate H].
    destruct (fine_drive_all es d1) as [[d2 t2] |] eqn:H2; [| discriminate H].
    injection H as <- <-. apply Forall_cons in Hn as [He Hes].
    destruct (fine_drive_motion e d d1 t1 H1) as [Hcmd Hstep]. specialize (Hcmd He).
    destruct (IH d1 d2 t2 H2 Hes) as (Hcmd2 & stale & fresh & Hf & Hall & Hst & Hheld).
    rewrite Hcmd in Hcmd2, Hall, Hheld. split; [exact Hcmd2 |].
    rewrite motion_frames_app.
    destruct Hstep as [[Hnil Hh1] | (m & m' & Hm & Hone & Hu & Hnone)].
    + rewrite Hnil. cbn [app].
      destruct Hst as [-> | (m & m' & Hm & -> & Hu)].
      * exists [], fresh. repeat split; auto.
        intros m' Hm'. destruct (Hheld m' Hm') as [Hc | [Hm1 Hf2]]; [left; exact Hc |].
        destruct (Hh1 m' Hm1) as [Hm0 | Hc]; [right; split; assumption | left; exact Hc].
      * destruct (Hh1 m Hm) as [Hm0 | Hc].
        -- exists [m'], fresh. repeat split; auto.
           ++ right. exists m, m'. auto.
           ++ intros m1 Hm1. destruct (Hheld m1 Hm1) as [Hc | [Hm2 Hf2]]; [left; exact Hc |].
              rewrite Hf in Hf2. discriminate Hf2.
        -- exists [], (m' :: fresh). repeat split; auto.
           ++ constructor; [exact (carries_unsealed _ m m' Hu Hc) | exact Hall].
           ++ intros m1 Hm1. destruct (Hheld m1 Hm1) as [Hc1 | [Hm2 Hf2]]; [left; exact Hc1 |].
              rewrite Hf in Hf2. discriminate Hf2.
    + rewrite Hone. rewrite Hnone in Hst.
      destruct Hst as [-> | (? & ? & [=] & _)].
      exists [m'], fresh. rewrite Hf. repeat split; auto.
      * right. exists m, m'. auto.
      * intros m1 Hm1. destruct (Hheld m1 Hm1) as [Hc1 | [Hm2 _]]; [left; exact Hc1 |].
        rewrite Hnone in Hm2. discriminate Hm2.
Qed.

(** Six actions of the command thread hand off a motion frame built
    during them, after the one the thread held, if it held one. *)
Lemma six_actions_motion (d : FineDriver) :
  fine_consistent d = true -> transport_ready (fine_object d) -> is_Some (fine_thread d) ->
  exists d' t pre post,
    fine_drive_all six_actions d = Some (d', t)
    /\ motion_frames t = pre ++ post
    /\ post <> []
    /\ Forall (carries (current_motion_cmd_ (fine_object d))) post
    /\ (pre = []
        \/ exists m m',
             held_motion d = Some m /\ pre = [m'] /\ unsealed_motion m' = unsealed_motion m).
Proof.
  destruct d as [[ci si cc sc ts tp mc lc le lr st] [[p [c1 c2]] |]];
    unfold fine_consistent, transport_ready;
    cbn [fine_object fine_thread can_connected_ can_if_ serial_if_ serial_connected_
         cmd_thread_started_];
    intros Hc Hr [l0 Hl0]; [| discriminate Hl0].
  destruct p as [| [[hi |] ho hf hv hw h0 h1 hc hk] | | | [[gi |] g1 g2 g3 g4 g5 g0 gc gk]],
    cc, ci, si, lr, le; cbn in Hr; try (destruct Hr as [? [=]]);
    try (destruct sc, ts; discriminate Hc);
    unfold six_actions, fine_drive_all, fine_drive; unfold_fine; cbn;
    eexists _, _;
    first
      [ exists []; eexists; (split; [reflexivity |]); cbn; (split; [reflexivity |]);
        (split; [discriminate |]); split; [unfold carries; cbn; solve [repeat constructor] |];
        left; reflexivity
      | eexists [_]; eexists; (split; [reflexivity |]); cbn; (split; [reflexivity |]);
        (split; [discriminate |]); split; [unfold carries; cbn; solve [repeat constructor] |];
        right; eexists _, _; repeat split; reflexivity ].
Qed.


(** The answer to a light request moves on with every step that is no
    light setter. *)
Lemma fine_run_light (request : byte * byte * byte * byte * byte)
    (held : option LightControl.t) (es : list FineCall) :
  forall (d d' : FineDriver) (t : list Action) (sent : list LightControl.t),
    fine_drive_all es d = Some (d', t) ->
    Forall (fun e => is_fine_light_setter e = false) es ->
    answering request held d sent ->
    answering request held d' (sent ++ light_frames t).
Proof.
  induction es as [| e es IH]; intros d d' t sent H Hn Hinv; cbn [fine_drive_all] in H.
  - injection H as <- <-. cbn. rewrite app_nil_r. exact Hinv.
  - destruct (fine_drive e d) as [[d1 t1] |] eqn:H1; [| discriminate H].
    destruct (fine_drive_all es d1) as [[d2 t2] |] eqn:H2; [| discriminate H].
    injection H as <- <-. apply Forall_cons in Hn as [He Hes].
    rewrite light_frames_app, app_assoc.
    apply (IH d1 d2 t2 _ H2 Hes). clear IH H2 Hes.
    destruct (fine_drive_light e d d1 t1 H1 He) as [Hreq Hstep].
    destruct Hinv as (stale & Hst & Hinv). unfold answering. rewrite Hreq.
    destruct Hstep as [(-> & Hh & Hq & Hp) | [(Hp & -> & Hq & l & Hl & Hlr)
                                             | (l & l' & Hl & -> & Hu & Hnone & Hq & Hp)]];
      rewrite Hq; rewrite ?app_nil_r.
    + exists stale. split; [exact Hst |]. rewrite Hh.
      destruct (light_ctrl_requested_ (fine_object d)); [exact Hinv |].
      destruct Hinv as [Hnp Hinv]. split; [| exact Hinv].
      intros Hp1. destruct (Hp Hp1) as [Hp0 | [=]]. contradiction.
    + assert (Hnone : held_light d = None).
      { unfold held_light. destruct (fine_thread d) as [[[] ?] |]; try discriminate Hp;
          reflexivity. }
      destruct (light_ctrl_requested_ (fine_object d)).
      * destruct Hinv as [Hr [[Hh ->] | [_ ->]]].
        -- exists []. split; [left; reflexivity |]. split.
           ++ unfold held_light in Hl. destruct (fine_thread d1) as [[[] ?] |];
                discriminate.
           ++ left. exists l. rewrite Hlr. auto.
        -- exists stale. split; [exact Hst |]. split.
           ++ unfold held_light in Hl. destruct (fine_thread d1) as [[[] ?] |];
                discriminate.
           ++ left. exists l. rewrite Hlr. auto.
      * destruct Hinv as [Hnp _]. contradiction.
    + pose proof (light_request_unsealed l l' Hu) as Hlr.
      destruct (light_ctrl_requested_ (fine_object d)).
      * destruct Hinv as [Hr [[Hh ->] | [Hh _]]]; [| congruence].
        exists [l']. split; [right; exists l, l'; rewrite <- Hh; auto |].
        split; [exact Hr |]. right. auto.
      * destruct Hinv as [_ [(l1 & Hl1 & Hr1 & ->) | [Hh _]]]; [| congruence].
        exists stale. split; [exact Hst |]. split; [exact Hp |].
        right. split; [exact Hnone |]. exists l'. split; [reflexivity |].
        rewrite Hl in Hl1. injection Hl1 as <-. congruence.
Qed.

(** Six actions of the command thread leave the flag lowered and no light
    message in its hands. *)
Lemma six_actions_light (d : FineDriver) :
  fine_consistent d = true -> transport_ready (fine_object d) -> is_Some (fine_thread d) ->
  exists d' t,
    fine_drive_all six_actions d = Some (d', t)
    /\ light_ctrl_requested_ (fine_object d') = false
    /\ held_light d' = None.
Proof.
  destruct d as [[ci si cc sc ts tp mc lc le lr st] [[p [c1 c2]] |]];
    unfold fine_consistent, transport_ready;
    cbn [fine_object fine_thread can_connected_ can_if_ serial_if_ serial_connected_
         cmd_thread_started_];
    intros Hc Hr [l0 Hl0]; [| discriminate Hl0].
  destruct p as [| [[hi |] ho hf hv hw h0 h1 hc hk] | | | [[gi |] g1 g2 g3 g4 g5 g0 gc gk]],
    cc, ci, si, lr, le; cbn in Hr; try (destruct Hr as [? [=]]);
    try (destruct sc, ts; discriminate Hc);
    unfold six_actions, fine_drive_all, fine_drive; unfold_fine; cbn;
    eexists _, _; (split; [reflexivity |]); split; reflexivity.
Qed.

(** A light setter raises the flag, logs nothing, leaves the command
    thread as it is, and makes its request the standing one. *)
Lemma fine_drive_light_setter (e : FineCall) (d d1 : FineDriver) (t1 : list Action) :
  fine_drive e d = Some (d1, t1) -> is_fine_light_setter e = true ->
  light_ctrl_requested_ (fine_object d1) = true
  /\ t1 = []
  /\ fine_thread d1 = fine_thread d
  /\ standing_light_request (fine_object d1)
     = match e with
       | FineSetLightCommand cmd =>
           (LIGHT_ENABLE_CTRL,
            ScoutLightCmd.front_mode cmd, ScoutLightCmd.front_custom_value cmd,
            ScoutLightCmd.rear_mode cmd, ScoutLightCmd.rear_custom_value cmd)
       | _ => (LIGHT_DISABLE_CTRL, LIGHT_MODE_CONST_OFF, x00, LIGHT_MODE_CONST_OFF, x00)
       end.
Proof.
  destruct d as [[ci si cc sc ts tp mc lc le lr st] th].
  destruct e; try discriminate; cbn; intros [= <- <-] _; repeat split.
Qed.

(** The store, where it is defined, writes the two converted percentages
    and the flag, logs nothing and leaves the command thread as it is. *)
Lemma fine_drive_store (v w : float) (f : FaultClearFlag) (d d1 : FineDriver)
    (t1 : list Action) :
  fine_drive (FineStoreMotionCommand v w f) d = Some (d1, t1) ->
  exists l a,
    static_cast_uint8 (percent min_linear_velocity max_linear_velocity max_linear_velocity v)
    = Some l
    /\ static_cast_uint8
         (percent min_angular_velocity max_angular_velocity max_angular_velocity w)
       = Some a
    /\ current_motion_cmd_ (fine_object d1)
       = {| ScoutMotionCmd.linear_velocity := static_cast_int8 l;
            ScoutMotionCmd.angular_velocity := static_cast_int8 a;
            ScoutMotionCmd.fault_clear_flag := f |}
    /\ fine_thread d1 = fine_thread d
    /\ t1 = [].
Proof.
  destruct d as [[ci si cc sc ts tp mc lc le lr st] th].
  cbn [fine_drive fine_object fine_thread]. rewrite SetMotionCommand_store_unfold.
  destruct (static_cast_uint8 _) as [l |]; [| discriminate].
  destruct (static_cast_uint8 _) as [a |]; [| discriminate].
  cbn. intros [= <- <-]. exists l, a. repeat split.
Qed.

(** X17. Once [SetMotionCommand] has stored, at most one motion frame
    that was built from the command before can still go out: the message
    the command thread had built and was holding when the store took
    place, the hand-off being outside the lock. With the command thread
    running and velocities that are not negative, the motion frames handed
    off after the store and before the next one are that message, if
    there was one and the thread gets to hand it off, and then frames
    that all carry the two stored percentages, the integer parts of
    [clamped / max * 100], and the fault flag of the call, with both
    reserved bytes zero; and six steps of the thread are enough for such a
    frame to go out. (The thread is started before the store: frames it
    sends in between are built from the command before.) *)
Theorem at_most_one_stale_motion_frame_follows_the_store
    (v w : float) (f : FaultClearFlag) (es : list FineCall) (d : FineDriver) :
  limits_in_order -> (0 <=? v)%float = true -> (0 <=? w)%float = true ->
  fine_consistent d = true -> transport_ready (fine_object d) -> is_Some (fine_thread d) ->
  Forall fine_defined es -> Forall (fun e => is_store e = false) es ->
  exists d' t l a stale fresh,
    fine_drive_all (FineStoreMotionCommand v w f :: es ++ six_actions) d = Some (d', t)
    /\ truncate_double
         (percent min_linear_velocity max_linear_velocity max_linear_velocity v) = Some l
    /\ truncate_double
         (percent min_angular_velocity max_angular_velocity max_angular_velocity w) = Some a
    /\ motion_frames t = stale ++ fresh
    /\ (stale = []
        \/ exists m m',
             held_motion d = Some m /\ stale = [m']
             /\ unsealed_motion m' = unsealed_motion m)
    /\ fresh <> []
    /\ Forall (fun m => MotionControl.linear_velocity_cmd m = l
                        /\ MotionControl.angular_velocity_cmd m = a
                        /\ MotionControl.fault_clear_flag m = f
                        /\ MotionControl.reserved0 m = x00
                        /\ MotionControl.reserved1 m = x00) fresh.
Proof.
  intros (Hl0 & Hlf & Hlo & Ha0 & Haf & Hao) Hv Hw Hc Hr Hth Hd Hn.
  destruct (percent_of_nonneg _ _ _ Hl0 Hlf Hlo Hv) as (_ & _ & l & Hl & Hlt & Hlr).
  destruct (percent_of_nonneg _ _ _ Ha0 Haf Hao Hw) as (_ & _ & a & Ha & Hat & Har).
  assert (Hdef : fine_defined (FineStoreMotionCommand v w f))
    by (split; eexists; eassumption).
  destruct (fine_drive_defined _ d Hc Hr Hdef) as [[d1 t1] H1].
  destruct (fine_drive_preserves _ d d1 t1 H1 Hc) as (Hc1 & Hr1 & Hth1).
  destruct (fine_drive_store v w f d d1 t1 H1) as (l' & a' & Hl' & Ha' & Hcmd & Hsame & ->).
  unfold percent in Hl', Ha'. rewrite Hl in Hl'. rewrite Ha in Ha'.
  injection Hl' as <-. injection Ha' as <-.
  rewrite (static_cast_int8_small l), (static_cast_int8_small a) in Hcmd by lia.
  assert (Hheld : held_motion d1 = held_motion d) by (unfold held_motion; rewrite Hsame; reflexivity).
  destruct (fine_drive_all_defined es d1 Hc1 (Hr1 Hr) Hd)
    as (d2 & t2 & H2 & Hc2 & Hr2 & Hth2).
  destruct (six_actions_motion d2 Hc2 Hr2 (Hth2 (Hth1 Hth)))
    as (d3 & t3 & pre & post & H3 & Hf3 & Hpost & Hall3 & Hpre).
  destruct (fine_run_motion es d1 d2 t2 H2 Hn) as (Hcmd2 & stale & fresh & Hf2 & Hall2 & Hst & Hh2).
  rewrite Hcmd2 in Hall3. rewrite Hheld in Hst, Hh2.
  set (cmd := current_motion_cmd_ (fine_object d1)) in *.
  assert (Hsplit : exists stale' fresh',
             motion_frames (t2 ++ t3) = stale' ++ fresh'
             /\ (stale' = []
                 \/ exists m m',
                      held_motion d = Some m /\ stale' = [m']
                      /\ unsealed_motion m' = unsealed_motion m)
             /\ fresh' <> []
             /\ Forall (carries cmd) fresh').
  { rewrite motion_frames_app, Hf2, Hf3.
    destruct Hpre as [-> | (m & m' & Hm & -> & Hu)].
    - exists stale, (fresh ++ post). cbn [app].
      split; [symmetry; apply app_assoc |]. split; [exact Hst |]. split.
      + intros Hnil. apply app_eq_nil in Hnil as [_ Hnil]. contradiction.
      + apply Forall_app. auto.
    - destruct (Hh2 m Hm) as [Hcar | [Hm0 Hnil]].
      + exists stale, (fresh ++ [m'] ++ post).
        split; [symmetry; apply app_assoc |]. split; [exact Hst |]. split.
        * intros Hnil. apply app_eq_nil in Hnil as [_ Hnil]. discriminate Hnil.
        * apply Forall_app. split; [exact Hall2 |].
          constructor; [exact (carries_unsealed _ m m' Hu Hcar) | exact Hall3].
      + rewrite Hf2 in Hnil. apply app_eq_nil in Hnil as [-> ->].
        exists [m'], post.
        split; [reflexivity |]. split; [right; exists m, m'; auto |]. split; assumption. }
  destruct Hsplit as (stale' & fresh' & Hf & Hst' & Hne & Hall).
  exists d3, ([] ++ (t2 ++ t3)), l, a, stale', fresh'.
  cbn [fine_drive_all]. rewrite H1, fine_drive_all_app, H2, H3.
  split; [reflexivity |]. unfold percent. split; [exact Hlt |]. split; [exact Hat |].
  cbn [app]. split; [exact Hf |]. split; [exact Hst' |]. split; [exact Hne |].
  subst cmd. rewrite Hcmd in Hall. exact Hall.
Qed.

(** X18. A light command is answered by one light frame that carries it,
    after at most one frame that does not. With the command thread
    running, after a call of either light setter, whatever else happens
    short of another call of a light setter, six steps of the command
    thread later at the latest the light frames handed off since the call
    are: the light message the thread was holding when the call was made,
    if it held one, and then exactly one frame, which carries the enable
    code and the four values of the command for [SetLightCommand], and
    the disable code, the constant-off mode and zero custom values for
    [DisableLightCmdControl]; and the requested flag is lowered. *)
Theorem light_command_is_answered_after_at_most_one_stale_frame
    (e : FineCall) (es : list FineCall) (d : FineDriver) :
  fine_consistent d = true -> transport_ready (fine_object d) -> is_Some (fine_thread d) ->
  is_fine_light_setter e = true ->
  Forall fine_defined es -> Forall (fun e => is_fine_light_setter e = false) es ->
  exists d' t stale frame,
    fine_drive_all (e :: es ++ six_actions) d = Some (d', t)
    /\ light_frames t = stale ++ [frame]
    /\ (stale = []
        \/ exists l l',
             held_light d = Some l /\ stale = [l'] /\ unsealed_light l' = unsealed_light l)
    /\ light_request frame
       = match e with
         | FineSetLightCommand cmd =>
             (LIGHT_ENABLE_CTRL,
              ScoutLightCmd.front_mode cmd, ScoutLightCmd.front_custom_value cmd,
              ScoutLightCmd.rear_mode cmd, ScoutLightCmd.rear_custom_value cmd)
         | _ => (LIGHT_DISABLE_CTRL, LIGHT_MODE_CONST_OFF, x00, LIGHT_MODE_CONST_OFF, x00)
         end
    /\ light_ctrl_requested_ (fine_object d') = false.
Proof.
  intros Hc Hr Hth He Hd Hn.
  assert (Hdef : fine_defined e) by (destruct e; try discriminate He; exact I).
  destruct (fine_drive_defined _ d Hc Hr Hdef) as [[d1 t1] H1].
  destruct (fine_drive_preserves _ d d1 t1 H1 Hc) as (Hc1 & Hr1 & Hth1).
  destruct (fine_drive_light_setter e d d1 t1 H1 He) as (Hq1 & -> & Hsame & Hreq).
  assert (Hheld : held_light d1 = held_light d) by (unfold held_light; rewrite Hsame; reflexivity).
  destruct (fine_drive_all_defined es d1 Hc1 (Hr1 Hr) Hd)
    as (d2 & t2 & H2 & Hc2 & Hr2 & Hth2).
  destruct (six_actions_light d2 Hc2 Hr2 (Hth2 (Hth1 Hth))) as (d3 & t3 & H3 & Hq3 & Hh3).
  assert (H23 : fine_drive_all (es ++ six_actions) d1 = Some (d3, t2 ++ t3))
    by (rewrite fine_drive_all_app, H2, H3; reflexivity).
  assert (Hn23 : Forall (fun e => is_fine_light_setter e = false) (es ++ six_actions))
    by (apply Forall_app; split; [exact Hn | repeat constructor]).
  assert (Hinv : answering (standing_light_request (fine_object d1)) (held_light d) d1 []).
  { exists []. split; [left; reflexivity |]. rewrite Hq1. split; [reflexivity |].
    left. auto. }
  pose proof (fine_run_light _ _ _ d1 d3 _ [] H23 Hn23 Hinv) as (stale & Hst & Hend).
  rewrite Hq3, Hh3 in Hend. cbn [app] in Hend.
  destruct Hend as [_ [(? & [=] & _) | [_ (frame & Hf & Hfr)]]].
  exists d3, ([] ++ (t2 ++ t3)), stale, frame.
  cbn [fine_drive_all]. rewrite H1, H23. cbn [app].
  split; [reflexivity |]. split; [exact Hf |]. split; [exact Hst |].
  split; [rewrite <- Hreq; exact Hfr | exact Hq3].
Qed.

End FineRuns.


(** ** The properties above on the sample drivers and runs *)

(** Motor driver 3 reports 12.3 A, -200 rpm and 40 degrees into the third
    slot. *)
Lemma motor_status_sets_slot_witness :
  motor_states (UpdateScoutState (proto := scout_protocol) motor3_status zero_ScoutState)
    !! 2%nat
  = Some {| current := 12.3%float; rpm := -200; temperature := x28 |}.
Proof.
  exact (proj1 (motor_status_sets_slot (proto := scout_protocol)
                  motor3_status zero_ScoutState 2 eq_refl
                  (le_S 3 3 (le_n 3)))).
Defined.

(** A report of -500 mm/s after one of 1000 mm/s leaves -0.5 m/s. *)
Lemma later_message_overwrites_same_kind_witness :
  UpdateScoutState (proto := scout_protocol) reverse_motion_status
    (UpdateScoutState (proto := scout_protocol) motion_status_1000 zero_ScoutState)
  = UpdateScoutState (proto := scout_protocol) reverse_motion_status zero_ScoutState.
Proof.
  exact (later_message_overwrites_same_kind (proto := scout_protocol)
           motion_status_1000 reverse_motion_status zero_ScoutState eq_refl).
Defined.

Example reverse_motion_status_velocity :
  linear_velocity
    (UpdateScoutState (proto := scout_protocol) reverse_motion_status
       (UpdateScoutState (proto := scout_protocol) motion_status_1000 zero_ScoutState))
  = (-0.5)%float.
Proof. reflexivity. Qed.

(** A motion message and a system message, in either order. *)
Lemma messages_of_different_kinds_commute_witness :
  UpdateScoutState (proto := scout_protocol) motion_status_1000
    (UpdateScoutState (proto := scout_protocol) system_status_368 zero_ScoutState)
  = UpdateScoutState (proto := scout_protocol) system_status_368
      (UpdateScoutState (proto := scout_protocol) motion_status_1000 zero_ScoutState).
Proof.
  apply (messages_of_different_kinds_commute (proto := scout_protocol)
           motion_status_1000 system_status_368 zero_ScoutState).
  discriminate.
Defined.

(** The motion frame with its checksum byte 0x25 in place. *)
Lemma valid_frame_reaches_reducer_witness :
  ParseCANFrame (proto := scout_protocol) (motion_frame x25) can_ScoutBase
  = Some (tt,
          with_scout_state
            (UpdateScoutState (proto := scout_protocol)
               (UnpackScoutCANFrameToMsg (ScoutProtocol := scout_protocol) (motion_frame x25))
               (scout_state_ can_ScoutBase))
            can_ScoutBase,
          []).
Proof.
  apply (valid_frame_reaches_reducer (proto := scout_protocol) (motion_frame x25) can_ScoutBase).
  reflexivity.
Defined.

(** The two kinds of frame that are discarded, with the sample checksum:
    a zero trailing byte under the checksum 1, and a non-zero one under
    the checksum 0. *)
Example discarded_frames :
  ParseCANFrame (proto := scout_protocol)
    {| can_id := 0; can_dlc := 1; data := [x00; x00; x00; x00; x00; x00; x00; x00] |}
    can_ScoutBase
  = Some (tt, can_ScoutBase, [CerrChecksumMismatch 0])
  /\ ParseCANFrame (proto := scout_protocol)
       {| can_id := 255; can_dlc := 1; data := [x00; x00; x00; x00; x00; x00; x00; x07] |}
       can_ScoutBase
     = Some (tt, can_ScoutBase, [CerrChecksumMismatch 255]).
Proof. split; reflexivity. Qed.

(** A second [Connect] whose port does not open, after a first that
    opened one: no error line, the flag still set, the port closed. *)
Example silent_failed_reconnect :
  option_map (fun r => (serial_connected_ (snd (fst r)), serial_if_ (snd (fst r)), snd r))
    (Connect (ports := no_port_opens) "ttyUSB1" 9600 (object serial_Driver))
  = Some (true,
          Some {| port_name := "ttyUSB1"; port_baud := 9600; is_open := false |},
          [SerialCreate "ttyUSB1" 9600; SerialOpen; SerialSetReceiveCallback;
           ParserSetReceiveCallback]).
Proof. reflexivity. Qed.

Lemma SetMotionCommand_nan_is_undefined_witness :
  SetMotionCommand (limits := scout_limits) nan 0 x00 fresh_ScoutBase = None.
Proof.
  apply (SetMotionCommand_nan_is_undefined (limits := scout_limits) nan 0 x00 fresh_ScoutBase).
  left. reflexivity.
Defined.

Ltac events_defined :=
  repeat constructor; try exact I; eexists; vm_compute; reflexivity.

Lemma Connect_first_makes_every_call_defined_witness :
  exists d' t,
    drive_all (proto := scout_protocol) (limits := scout_limits) (ports := every_port_opens)
      (EvConnect "can0" 0 :: sample_events) fresh_Driver = Some (d', t)
    /\ consistent d' = true
    /\ transport_ready (object d').
Proof.
  apply (Connect_first_makes_every_call_defined
           (proto := scout_protocol) (limits := scout_limits) (ports := every_port_opens)
           "can0" 0 sample_events fresh_Driver).
  - reflexivity.
  - events_defined.
Defined.

Lemma motion_command_before_Connect_is_undefined_witness :
  exists d1,
    drive (proto := scout_protocol) (limits := scout_limits) (ports := every_port_opens)
      (EvCall (CallSetMotionCommand 1 0 x00)) fresh_Driver
    = Some (d1, [ThreadStart (cmd_thread_period_ms_ (object fresh_Driver))])
    /\ cmd_thread_ d1 = Some ControlLoop_entry
    /\ drive (proto := scout_protocol) (limits := scout_limits) (ports := every_port_opens)
         (EvCall LoopStep) d1 = None.
Proof.
  apply (motion_command_before_Connect_is_undefined
           (proto := scout_protocol) (limits := scout_limits) (ports := every_port_opens)
           1 0 x00 fresh_Driver); try reflexivity.
  split; eexists; vm_compute; reflexivity.
Defined.

Lemma command_thread_is_started_once_witness :
  exists d' t,
    drive_all (proto := scout_protocol) (limits := scout_limits) (ports := every_port_opens)
      sample_events can_Driver = Some (d', t)
    /\ thread_starts t
       = (if cmd_thread_started_ (object can_Driver) then 0
          else if existsb is_motion_call sample_events then 1 else 0)%nat
    /\ cmd_thread_started_ (object d')
       = cmd_thread_started_ (object can_Driver) || existsb is_motion_call sample_events
    /\ (is_Some (cmd_thread_ d') <-> cmd_thread_started_ (object d') = true).
Proof.
  apply (command_thread_is_started_once
           (proto := scout_protocol) (limits := scout_limits) (ports := every_port_opens)
           sample_events can_Driver).
  - reflexivity.
  - cbn. eauto.
  - events_defined.
Defined.

Lemma nothing_is_sent_before_the_first_motion_command_witness :
  exists d' t,
    drive_all (proto := scout_protocol) (limits := scout_limits) (ports := every_port_opens)
      idle_events fresh_Driver = Some (d', t)
    /\ Forall (fun a => is_send a = false) t
    /\ cmd_thread_ d' = None
    /\ cmd_thread_started_ (object d') = false.
Proof.
  apply (nothing_is_sent_before_the_first_motion_command
           (proto := scout_protocol) (limits := scout_limits) (ports := every_port_opens)
           idle_events fresh_Driver).
  - reflexivity.
  - reflexivity.
  - repeat constructor.
Defined.

(** The light command of the idle run is stored and requested, and stays
    so: the log holds the calls on the transports and no frame. *)
Example idle_events_log :
  option_map (fun r => (light_ctrl_requested_ (object (fst r)), snd r))
    (drive_all (proto := scout_protocol) (limits := scout_limits) (ports := every_port_opens)
       idle_events fresh_Driver)
  = Some (true, [CanCreate "can0"; CanSetReceiveCallback]).
Proof. vm_compute. reflexivity. Qed.

Lemma frames_are_numbered_from_zero_witness :
  exists d' t,
    drive_all (proto := scout_protocol) (limits := scout_limits) (ports := every_port_opens)
      (EvConnect "can0" 0 :: sample_events) fresh_Driver = Some (d', t)
    /\ map MotionControl.count (motion_frames t)
       = map (fun k => Z.of_nat k mod 256) (seq 0 (length (motion_frames t)))
    /\ map LightControl.count (light_frames t)
       = map (fun k => Z.of_nat k mod 256) (seq 0 (length (light_frames t))).
Proof.
  apply (frames_are_numbered_from_zero
           (proto := scout_protocol) (limits := scout_limits) (ports := every_port_opens)
           "can0" 0 sample_events fresh_Driver).
  - reflexivity.
  - reflexivity.
  - events_defined.
Defined.

(** The sample run after [Connect("can0", 0)]: two motion frames, counts 0
    and 1, with the percentages of 1 m/s of 1.5 and 0.25 rad/s of 0.5, and
    one light frame, count 0; the serial port opened on the way carries
    none of them. *)
Example sample_events_frames :
  option_map
    (fun r => (map (fun m => (MotionControl.count m, MotionControl.linear_velocity_cmd m,
                              MotionControl.angular_velocity_cmd m))
                 (motion_frames (snd r)),
               map (fun l => (LightControl.count l, LightControl.front_light_mode l))
                 (light_frames (snd r)),
               existsb is_serial_send (snd r)))
    (drive_all (proto := scout_protocol) (limits := scout_limits) (ports := every_port_opens)
       (EvConnect "can0" 0 :: sample_events) fresh_Driver)
  = Some ([(0, 66, 50); (1, 66, 50)], [(0, x01)], false).
Proof. vm_compute. reflexivity. Qed.

Lemma CAN_takes_every_frame_once_connected_witness :
  exists d' t,
    drive_all (proto := scout_protocol) (limits := scout_limits) (ports := every_port_opens)
      sample_events can_Driver = Some (d', t)
    /\ can_connected_ (object d') = true
    /\ Forall (fun a => is_serial_send a = false) t.
Proof.
  apply (CAN_takes_every_frame_once_connected
           (proto := scout_protocol) (limits := scout_limits) (ports := every_port_opens)
           sample_events can_Driver).
  - reflexivity.
  - reflexivity.
  - events_defined.
Defined.

Lemma robot_state_is_the_fold_of_received_frames_witness :
  exists d' t,
    drive_all (proto := scout_protocol) (limits := scout_limits) (ports := every_port_opens)
      can_events can_Driver = Some (d', t)
    /\ serial_if_ (object d') = None
    /\ Forall (fun a => is_serial_action a = false) t
    /\ GetScoutState (object d')
       = Some (foldl (received (proto := scout_protocol))
                 (scout_state_ (object can_Driver)) can_events,
               object d', []).
Proof.
  apply (robot_state_is_the_fold_of_received_frames
           (proto := scout_protocol) (limits := scout_limits) (ports := every_port_opens)
           can_events can_Driver).
  - reflexivity.
  - cbn. eauto.
  - reflexivity.
  - events_defined.
  - repeat constructor.
Defined.

(** The run leaves the 1 m/s of its one frame that was not discarded,
    and logs the start of the thread, two motion frames and the line for
    the discarded frame. *)
Example can_events_state :
  linear_velocity
    (foldl (received (proto := scout_protocol)) (scout_state_ (object can_Driver)) can_events)
  = 1%float
  /\ option_map (fun r => map (fun a => match a with
                                        | ThreadStart _ => 1
                                        | CanSendMotion _ => 2
                                        | CerrChecksumMismatch _ => 3
                                        | _ => 0
                                        end) (snd r))
       (drive_all (proto := scout_protocol) (limits := scout_limits)
          (ports := every_port_opens) can_events can_Driver)
     = Some [1; 2; 3; 2].
Proof. split; vm_compute; reflexivity. Qed.

Example sample_events_state :
  linear_velocity
    (foldl (received (proto := scout_protocol)) (scout_state_ (object can_Driver)) sample_events)
  = 1%float.
Proof. reflexivity. Qed.

Ltac fine_calls_defined :=
  repeat constructor; try exact I; eexists; vm_compute; reflexivity.

(** A motion command stored while the thread holds the message it built
    from the zero command: that message goes out first, and the frames
    after it carry 66 and 50 percent. *)
Lemma at_most_one_stale_motion_frame_follows_the_store_witness :
  exists d' t l a stale fresh,
    fine_drive_all (proto := scout_protocol) (limits := scout_limits)
      (FineStoreMotionCommand 1 0.25 x01
       :: [FineSetLightCommand (sample_light_cmd x01); FineThreadAction] ++ six_actions)
      (fine_Driver_at (AtHandOffMotion built_motion))
    = Some (d', t)
    /\ truncate_double (percent (-1.5) 1.5 1.5 1) = Some l
    /\ truncate_double (percent (-0.5) 0.5 0.5 0.25) = Some a
    /\ motion_frames t = stale ++ fresh
    /\ (stale = []
        \/ exists m m',
             held_motion (fine_Driver_at (AtHandOffMotion built_motion)) = Some m
             /\ stale = [m']
             /\ unsealed_motion m' = unsealed_motion m)
    /\ fresh <> []
    /\ Forall (fun m => MotionControl.linear_velocity_cmd m = l
                        /\ MotionControl.angular_velocity_cmd m = a
                        /\ MotionControl.fault_clear_flag m = x01
                        /\ MotionControl.reserved0 m = x00
                        /\ MotionControl.reserved1 m = x00) fresh.
Proof.
  apply (at_most_one_stale_motion_frame_follows_the_store
           (proto := scout_protocol) (limits := scout_limits)
           1 0.25 x01 [FineSetLightCommand (sample_light_cmd x01); FineThreadAction]
           (fine_Driver_at (AtHandOffMotion built_motion))).
  - repeat split; reflexivity.
  - reflexivity.
  - reflexivity.
  - reflexivity.
  - cbn. eauto.
  - cbn. eauto.
  - fine_calls_defined.
  - repeat constructor.
Defined.

Example stale_motion_frame_then_fresh :
  option_map
    (fun r => map (fun m => (MotionControl.count m, MotionControl.linear_velocity_cmd m,
                             MotionControl.angular_velocity_cmd m))
                (motion_frames (snd r)))
    (fine_drive_all (proto := scout_protocol) (limits := scout_limits)
       (FineStoreMotionCommand 1 0.25 x01
        :: [FineSetLightCommand (sample_light_cmd x01); FineThreadAction] ++ six_actions)
       (fine_Driver_at (AtHandOffMotion built_motion)))
  = Some [(255, 0, 0); (0, 66, 50)].
Proof. vm_compute. reflexivity. Qed.

(** The first call of the motion setter on a driver whose thread has not
    been started: the new thread hands off a frame built from the zero
    command before the setter has stored; the frames after the store
    carry the command. *)
Example first_frame_is_built_before_the_store :
  option_map
    (fun r => (map (fun m => (MotionControl.count m, MotionControl.linear_velocity_cmd m,
                              MotionControl.angular_velocity_cmd m))
                 (motion_frames (snd r)),
               thread_starts (snd r)))
    (fine_drive_all (proto := scout_protocol) (limits := scout_limits)
       early_thread_calls fine_can_Driver)
  = Some ([(0, 0, 0); (1, 66, 50); (2, 66, 50)], 1%nat).
Proof. vm_compute. reflexivity. Qed.

(** The same call taken whole is the start and then the store. *)
Example motion_setter_in_two :
  SetMotionCommand (limits := scout_limits) 1 0.25 x00 can_ScoutBase
  = (SetMotionCommand_start ;; SetMotionCommand_store (limits := scout_limits) 1 0.25 x00)
      can_ScoutBase.
Proof. vm_compute. reflexivity. Qed.

(** [DisableLightCmdControl] called while the thread holds the light
    message it took before: that message goes out first, then the one
    frame that carries the request. *)
Lemma light_command_is_answered_after_at_most_one_stale_frame_witness :
  exists d' t stale frame,
    fine_drive_all (proto := scout_protocol) (limits := scout_limits)
      (FineSetLightCommand (sample_light_cmd x02)
       :: [FineStoreMotionCommand 1 0 x00; FineThreadAction] ++ six_actions)
      (fine_Driver_at (AtHandOffLight taken_light))
    = Some (d', t)
    /\ light_frames t = stale ++ [frame]
    /\ (stale = []
        \/ exists l l',
             held_light (fine_Driver_at (AtHandOffLight taken_light)) = Some l
             /\ stale = [l']
             /\ unsealed_light l' = unsealed_light l)
    /\ light_request frame = (x01, x02, x00, x02, x00)
    /\ light_ctrl_requested_ (fine_object d') = false.
Proof.
  apply (light_command_is_answered_after_at_most_one_stale_frame
           (proto := scout_protocol) (limits := scout_limits)
           (FineSetLightCommand (sample_light_cmd x02))
           [FineStoreMotionCommand 1 0 x00; FineThreadAction]
           (fine_Driver_at (AtHandOffLight taken_light))).
  - reflexivity.
  - cbn. eauto.
  - cbn. eauto.
  - reflexivity.
  - fine_calls_defined.
  - repeat constructor.
Defined.

Example stale_light_frame_then_fresh :
  option_map
    (fun r => map (fun l => (LightControl.count l, light_request l)) (light_frames (snd r)))
    (fine_drive_all (proto := scout_protocol) (limits := scout_limits)
       (FineSetLightCommand (sample_light_cmd x02)
        :: [FineStoreMotionCommand 1 0 x00; FineThreadAction] ++ six_actions)
       (fine_Driver_at (AtHandOffLight taken_light)))
  = Some [(7, (x00, x00, x00, x00, x00)); (8, (x01, x02, x00, x02, x00))].
Proof. vm_compute. reflexivity. Qed.

Lemma Disconnect_does_not_stop_the_sends_witness :
  exists d1 t1 d2 m,
    drive (proto := scout_protocol) (limits := scout_limits) (ports := every_port_opens)
      EvDisconnect serial_Driver = Some (d1, t1)
    /\ t1 = (if is_open serial_port then [SerialClose] else [])
    /\ serial_if_ (object d1) = Some (set_port_open false serial_port)
    /\ serial_connected_ (object d1) = true
    /\ cmd_thread_ d1 = Some sample_thread
    /\ drive (proto := scout_protocol) (limits := scout_limits) (ports := every_port_opens)
         (EvCall LoopStep) d1 = Some (d2, [SerialSendMotion m])
    /\ MotionControl.count m = cmd_count (counters sample_thread)
    /\ carries (current_motion_cmd_ (object serial_Driver)) m.
Proof.
  apply (Disconnect_does_not_stop_the_sends
           (proto := scout_protocol) (limits := scout_limits) (ports := every_port_opens)
           serial_Driver sample_thread serial_port); reflexivity.
Defined.

Lemma destruction_waits_for_a_started_thread_witness :
  exists d' t c b t',
    drive_all (proto := scout_protocol) (limits := scout_limits) (ports := every_port_opens)
      sample_events can_Driver = Some (d', t)
    /\ Destructor d' = Some (c, b, t')
    /\ (c = WaitsForCmdThread <->
        cmd_thread_started_ (object can_Driver) = true
        \/ existsb is_motion_call sample_events = true)
    /\ t' = (if serial_connected_ (object d') then [SerialClose] else [])
    /\ serial_connected_ b = serial_connected_ (object d').
Proof.
  apply (destruction_waits_for_a_started_thread
           (proto := scout_protocol) (limits := scout_limits) (ports := every_port_opens)
           sample_events can_Driver).
  - reflexivity.
  - cbn. eauto.
  - events_defined.
Defined.

(** After the sample run, whose [Disconnect] has closed the serial port,
    the destructor closes it once more and waits for the thread; on a
    driver that was never given a motion command it returns. *)
Example sample_events_destruction :
  option_map (fun r => option_map (fun x => (fst (fst x), snd x)) (Destructor (fst r)))
    (drive_all (proto := scout_protocol) (limits := scout_limits) (ports := every_port_opens)
       sample_events can_Driver)
  = Some (Some (WaitsForCmdThread, [SerialClose]))
  /\ option_map (fun x => (fst (fst x), snd x)) (Destructor can_Driver) = Some (Returns, []).
Proof. split; vm_compute; reflexivity. Qed.

Lemma failed_serial_Connect_still_sends_witness :
  exists d' t m,
    drive_all (proto := scout_protocol) (limits := scout_limits) (ports := no_port_opens)
      [EvConnect "ttyUSB0" 115200; EvCall (CallSetMotionCommand 1 0 x00); EvCall LoopStep]
      fresh_Driver
    = Some (d', t)
    /\ CerrSerialConnectFailed ∈ t
    /\ serial_connected_ (object d') = false
    /\ last t = Some (SerialSendMotion m)
    /\ MotionControl.id m = None
    /\ MotionControl.control_mode m = None
    /\ MotionControl.checksum m = None
    /\ MotionControl.count m = 0.
Proof.
  apply (failed_serial_Connect_still_sends
           (proto := scout_protocol) (limits := scout_limits) (ports := no_port_opens)
           "ttyUSB0" 115200 1 0 x00 fresh_Driver); try reflexivity.
  - discriminate.
  - split; eexists; vm_compute; reflexivity.
Defined.

(** ** The range of the reduced values *)

Lemma all_bytes_complete (b : byte) : In b all_bytes.
Proof.
  apply list_elem_of_In. unfold all_bytes. apply list_elem_of_omap.
  exists (Byte.to_N b). split; [| apply Byte.of_to_N].
  apply list_elem_of_In, in_map_iff. exists (N.to_nat (Byte.to_N b)).
  split; [apply N2Nat.id |]. apply in_seq.
  pose proof (Byte.to_N_bounded b). lia.
Qed.

Lemma forall_Bytes16_spec (P : Bytes16 -> bool) :
  forall_Bytes16 P = true -> forall f, P f = true.
Proof.
  unfold forall_Bytes16. intros H [h l].
  rewrite forallb_forall in H. specialize (H h (all_bytes_complete h)).
  rewrite forallb_forall in H. exact (H l (all_bytes_complete l)).
Qed.

(** The signed field over 1000.0 and the unsigned field over 10.0, on
    every one of the 65536 values of the field. *)
Lemma signed_thousandth_in_range (f : Bytes16) :
  in_range (-32.768) 32.767 (double_of_Z (static_cast_int16 (assemble16 f)) / 1000) = true.
Proof. revert f. apply forall_Bytes16_spec. vm_compute. reflexivity. Qed.

Lemma unsigned_tenth_in_range (f : Bytes16) :
  in_range 0 6553.5 (double_of_Z (assemble16 f) / 10) = true.
Proof. revert f. apply forall_Bytes16_spec. vm_compute. reflexivity. Qed.

Section ReducedRange.
Context `{proto : ScoutProtocol}.

(** X22. Whatever bytes a status message holds, the doubles the reducer
    stores are finite and inside the range of the wire format: each
    velocity of a motion message lies between -32.768 and 32.767, the
    battery voltage of a system message and the current of a motor
    message between 0 and 6553.5, the fault code between 0 and 65535 and
    the rpm between -32768 and 32767. No message makes the reducer store a
    NaN or an infinity. *)
Theorem reduced_values_are_in_range (msg : ScoutStatusMessage) (state : ScoutState) :
  (updated_msg_type msg = ScoutMotionStatusMsg ->
   in_range (-32.768) 32.767 (linear_velocity (UpdateScoutState msg state)) = true
   /\ in_range (-32.768) 32.767 (angular_velocity (UpdateScoutState msg state)) = true)
  /\ (updated_msg_type msg = ScoutSystemStatusMsg ->
      in_range 0 6553.5 (battery_voltage (UpdateScoutState msg state)) = true
      /\ 0 <= fault_code (UpdateScoutState msg state) <= 65535)
  /\ (forall (i : nat) (m : MotorState),
        motor_slot (updated_msg_type msg) = Some i ->
        motor_states (UpdateScoutState msg state) !! i = Some m ->
        in_range 0 6553.5 (current m) = true /\ -32768 <= rpm m <= 32767).
Proof.
  split; [| split].
  - intros Hk. unfold UpdateScoutState. rewrite Hk. cbn [linear_velocity angular_velocity].
    split; apply signed_thousandth_in_range.
  - intros Hk. unfold UpdateScoutState. rewrite Hk. cbn [battery_voltage fault_code].
    split; [apply unsigned_tenth_in_range |].
    rewrite assemble16_uint16.
    pose proof (unsigned16_range (SystemStatus.fault_code (system_status_msg msg))). lia.
  - intros i m Hk Hm.
    assert (Hs : UpdateScoutState msg state
                 = set_motor i (motor_of_status (motor_driver_status_msg msg)) state).
    { unfold UpdateScoutState.
      destruct (updated_msg_type msg); cbn in Hk; try discriminate Hk;
        injection Hk as <-; reflexivity. }
    rewrite Hs in Hm. unfold set_motor in Hm. cbn [motor_states] in Hm.
    assert (Hi : (i < length (motor_states state))%nat).
    { apply lookup_lt_Some in Hm. rewrite length_insert in Hm. exact Hm. }
    rewrite list_lookup_insert_eq in Hm by exact Hi. injection Hm as <-.
    unfold motor_of_status. cbn [current rpm].
    split; [apply unsigned_tenth_in_range |].
    rewrite assemble16_signed. apply signed16_range.
Qed.

End ReducedRange.

(** The ends of the ranges are reached: the largest and the smallest
    velocity, and the largest voltage. *)
Example reduced_range_ends :
  (double_of_Z (static_cast_int16 (assemble16 {| high_byte := x7f; low_byte := xff |})) / 1000
   = 32.767)%float
  /\ (double_of_Z (static_cast_int16 (assemble16 {| high_byte := x80; low_byte := x00 |})) / 1000
      = -32.768)%float
  /\ (double_of_Z (assemble16 {| high_byte := xff; low_byte := xff |}) / 10 = 6553.5)%float.
Proof. repeat split; reflexivity. Qed.

(** ** The identifier and the checksum of the frames sent *)

Section Sealed.
Context `{proto : ScoutProtocol} `{limits : ScoutLimits} `{ports : SerialPorts}.



End Sealed.


Example serial_frames :
  option_map (fun r => omap (fun a => match a with
                                      | SerialSendMotion m =>
                                          Some (MotionControl.id m,
                                                MotionControl.control_mode m,
                                                MotionControl.checksum m)
                                      | SerialSendLight l =>
                                          Some (LightControl.id l, None, LightControl.checksum l)
                                      | _ => None
                                      end) (snd r))
    (drive_all (proto := scout_protocol) (limits := scout_limits) (ports := every_port_opens)
       (EvCall (CallSetLightCommand (sample_light_cmd x01)) :: three_actions) serial_Driver)
  = Some [(Some 1, Some x02, None); (Some 2, None, None)].
Proof. vm_compute. reflexivity. Qed.

(** The sample run begins on the CAN bus with the serial flag clear and
    ends with it set; all its frames go to the CAN interface. *)
Example sample_events_sealed :
  option_map (fun r => (serial_connected_ (object (fst r)),
                        length (filter (fun a => is_can_action a = true) (snd r)),
                        existsb is_serial_send (snd r)))
    (drive_all (proto := scout_protocol) (limits := scout_limits) (ports := every_port_opens)
       sample_events can_Driver)
  = Some (true, 3%nat, false).
Proof. vm_compute. reflexivity. Qed.

(** The first motion frame of the sample run: 66 and 50 percent, count
    0, and the byte-sum checksum of the sample protocol over identifier
    0x130, length 8 and the seven bytes before it. *)
Example sample_events_first_frame :
  option_map (fun r => option_map (fun m => (MotionControl.id m, MotionControl.checksum m))
                         (head (motion_frames (snd r))))
    (drive_all (proto := scout_protocol) (limits := scout_limits) (ports := every_port_opens)
       sample_events can_Driver)
  = Some (Some (Some 304, Some xae)).
Proof. vm_compute. reflexivity. Qed.

(** ** The motion setter at the ends of the range *)

(** A finite double divided by itself is exactly 1, with the sign of the
    quotient. *)
Lemma SFdiv_self (s1 s2 : bool) (m : positive) (e : Z) :
  SFdiv prec emax (S754_finite s1 m e) (S754_finite s2 m e)
  = S754_finite (xorb s1 s2) 4503599627370496 (-52).
Proof.
  unfold SFdiv, SFdiv_core_binary.
  rewrite !Z.sub_diag.
  change (Z.min (fexp prec emax 0) 0) with (-53).
  change (0 - -53) with 53.
  cbv iota beta zeta.
  replace (Z.div_eucl (Z.shiftl (Z.pos m) 53) (Z.pos m)) with (2 ^ 53, 0).
  - replace (new_location (Z.pos m) 0) with loc_Exact
      by (unfold new_location; destruct (Z.even (Z.pos m)); reflexivity).
    destruct s1, s2; vm_compute; reflexivity.
  - rewrite Z.shiftl_mul_pow2 by lia.
    pose proof (Z_div_mod (Z.pos m * 2 ^ 53) (Z.pos m) ltac:(lia)) as H.
    destruct (Z.div_eucl (Z.pos m * 2 ^ 53) (Z.pos m)) as [q r].
    destruct H as [H1 H2].
    assert (q = 2 ^ 53) by nia. subst q. f_equal. lia.
Qed.

Lemma SFcompare_le_trans (x y z : spec_float) :
  SFleb x y = true -> SFleb y z = true -> SFltb z x = false.
Proof.
  unfold SFleb, SFltb.
  destruct x as [[] | [] | | [] mx ex], y as [[] | [] | | [] my ey], z as [[] | [] | | [] mz ez];
    cbn; try reflexivity; try discriminate;
    change (Pos.compare_cont Eq ?a ?b) with (Pos.compare a b);
    destruct (Z.compare_spec ex ey), (Z.compare_spec ey ez), (Z.compare_spec ez ex);
    try lia; try reflexivity; try discriminate; subst;
    repeat match goal with
           | |- context [Pos.compare ?a ?b] => destruct (Pos.compare_spec a b)
           end; cbn; try reflexivity; try discriminate; try lia.
Qed.
(** A double that a positive finite one is at most, and not less than,
    is that double. *)
Lemma SFleb_not_ltb_eq (m : positive) (e : Z) (y : spec_float) :
  SFleb (S754_finite false m e) y = true -> SFltb (S754_finite false m e) y = false ->
  y = S754_finite false m e.
Proof.
  unfold SFleb, SFltb.
  destruct y as [[] | [] | | [] my ey]; cbn; try discriminate.
  change (Pos.compare_cont Eq m my) with (Pos.compare m my).
  destruct (Z.compare_spec e ey); try discriminate.
  destruct (Pos.compare_spec m my); try discriminate. subst. reflexivity.
Qed.

Lemma positive_finite (x : float) :
  (0 <? x)%float = true -> (x <? infinity)%float = true ->
  exists m e, Prim2SF x = S754_finite false m e.
Proof.
  rewrite !ltb_spec. change (Prim2SF 0) with (S754_zero false).
  change (Prim2SF infinity) with (S754_infinity false). unfold SFltb.
  destruct (Prim2SF x) as [s | s | | s m e]; cbn; try discriminate.
  - destruct s; discriminate.
  - destruct s; [discriminate | eauto].
Qed.

(** One velocity at or above its maximum: the clamp gives the maximum,
    and the maximum scales to exactly 100. *)
Lemma percent_at_maximum (lo hi v : float) :
  (0 <? hi)%float = true -> (hi <? infinity)%float = true -> (lo <=? hi)%float = true ->
  (hi <=? v)%float = true ->
  clamp lo hi v = hi /\ static_cast_uint8 (hi / hi * 100)%float = Some 100.
Proof.
  intros H0 Hf Hlo Hv. destruct (positive_finite hi H0 Hf) as (m & e & Hhi). split.
  - unfold clamp.
    assert (Hn : (v <? lo)%float = false).
    { rewrite ltb_spec. rewrite leb_spec in Hlo, Hv.
      exact (SFcompare_le_trans _ _ _ Hlo Hv). }
    rewrite Hn. destruct (hi <? v)%float eqn:Hlt; [reflexivity |].
    apply Prim2SF_inj. rewrite leb_spec in Hv. rewrite ltb_spec in Hlt.
    rewrite Hhi in *. exact (SFleb_not_ltb_eq m e _ Hv Hlt).
  - unfold static_cast_uint8. rewrite mul_spec, div_spec, Hhi.
    unfold SF64div. rewrite SFdiv_self. reflexivity.
Qed.

(** One velocity below a minimum that is the opposite of the maximum: the
    clamp gives the minimum, which scales to exactly -100 and has no
    conversion to [uint8_t]. *)
Lemma percent_below_symmetric_minimum (hi v : float) :
  (0 <? hi)%float = true -> (hi <? infinity)%float = true ->
  (v <? - hi)%float = true ->
  clamp (- hi) hi v = (- hi)%float
  /\ truncate_double (- hi / hi * 100)%float = Some (-100)
  /\ static_cast_uint8 (- hi / hi * 100)%float = None.
Proof.
  intros H0 Hf Hv. destruct (positive_finite hi H0 Hf) as (m & e & Hhi).
  assert (Hd : Prim2SF (- hi / hi * 100)%float
               = S754_finite true 7036874417766400 (-46)).
  { rewrite mul_spec, div_spec, opp_spec, Hhi. cbn [SFopp negb].
    unfold SF64div. rewrite SFdiv_self. reflexivity. }
  split; [| split].
  - unfold clamp. rewrite Hv.
    replace (hi <? - hi)%float with false; [reflexivity |].
    symmetry. rewrite ltb_spec, opp_spec, Hhi. cbn. reflexivity.
  - unfold truncate_double. rewrite Hd. reflexivity.
  - unfold static_cast_uint8. rewrite Hd. reflexivity.
Qed.

Section Saturation.
Context `{limits : ScoutLimits}.

(** X24. Full speed is stored as exactly 100. With each maximum positive
    and finite and each minimum at most its maximum, [SetMotionCommand]
    on velocities that are not negative stores 100 for each velocity that
    is at or above its maximum, an infinity included: there the clamp
    gives the maximum and [max / max * 100] is exactly 100. *)
Theorem velocity_at_or_above_maximum_is_stored_as_100
    (linear_vel angular_vel : float) (flag : FaultClearFlag) (b : ScoutBase) :
  limits_in_order ->
  (0 <=? linear_vel)%float = true -> (0 <=? angular_vel)%float = true ->
  exists b' t,
    SetMotionCommand linear_vel angular_vel flag b = Some (tt, b', t)
    /\ ((max_linear_velocity <=? linear_vel)%float = true ->
        ScoutMotionCmd.linear_velocity (current_motion_cmd_ b') = 100)
    /\ ((max_angular_velocity <=? angular_vel)%float = true ->
        ScoutMotionCmd.angular_velocity (current_motion_cmd_ b') = 100).
Proof.
  intros (Hl0 & Hlf & Hlo & Ha0 & Haf & Hao) Hx Hy.
  destruct (percent_of_nonneg _ _ _ Hl0 Hlf Hlo Hx) as (_ & _ & l & Hl & _ & Hlr).
  destruct (percent_of_nonneg _ _ _ Ha0 Haf Hao Hy) as (_ & _ & a & Ha & _ & Har).
  eexists _, _. split.
  { rewrite SetMotionCommand_unfold. unfold percent. rewrite Hl, Ha. reflexivity. }
  cbn. rewrite (static_cast_int8_small l Hlr), (static_cast_int8_small a Har). split.
  - intros Hm. destruct (percent_at_maximum _ _ _ Hl0 Hlf Hlo Hm) as [Hc H100].
    rewrite Hc, H100 in Hl. congruence.
  - intros Hm. destruct (percent_at_maximum _ _ _ Ha0 Haf Hao Hm) as [Hc H100].
    rewrite Hc, H100 in Ha. congruence.
Qed.

(** X25. Full speed in reverse is undefined. Where a minimum is the
    opposite of its maximum, a velocity below that minimum is clamped to
    it and scales to exactly -100, which [static_cast<uint8_t>] cannot
    convert: [SetMotionCommand] is undefined, whatever the other velocity
    is. *)
Theorem velocity_below_symmetric_minimum_is_undefined
    (linear_vel angular_vel : float) (flag : FaultClearFlag) (b : ScoutBase) :
  limits_in_order ->
  min_linear_velocity = (- max_linear_velocity)%float
  /\ (linear_vel <? min_linear_velocity)%float = true
  \/ min_angular_velocity = (- max_angular_velocity)%float
     /\ (angular_vel <? min_angular_velocity)%float = true ->
  SetMotionCommand linear_vel angular_vel flag b = None.
Proof.
  intros (Hl0 & Hlf & _ & Ha0 & Haf & _) H.
  rewrite SetMotionCommand_unfold. unfold percent.
  destruct H as [[Hm Hv] | [Hm Hv]]; rewrite Hm in *.
  - destruct (percent_below_symmetric_minimum _ _ Hl0 Hlf Hv) as (-> & _ & ->). reflexivity.
  - destruct (percent_below_symmetric_minimum _ _ Ha0 Haf Hv) as (-> & _ & ->).
    destruct (static_cast_uint8 _); reflexivity.
Qed.

End Saturation.

Lemma velocity_at_or_above_maximum_is_stored_as_100_witness :
  exists b' t,
    SetMotionCommand (limits := scout_limits) infinity 0.5 x00 fresh_ScoutBase
    = Some (tt, b', t)
    /\ ((1.5 <=? infinity)%float = true ->
        ScoutMotionCmd.linear_velocity (current_motion_cmd_ b') = 100)
    /\ ((0.5 <=? 0.5)%float = true ->
        ScoutMotionCmd.angular_velocity (current_motion_cmd_ b') = 100).
Proof.
  apply (velocity_at_or_above_maximum_is_stored_as_100 (limits := scout_limits)
           infinity 0.5 x00 fresh_ScoutBase).
  - repeat split; reflexivity.
  - reflexivity.
  - reflexivity.
Defined.

Lemma velocity_below_symmetric_minimum_is_undefined_witness :
  SetMotionCommand (limits := scout_limits) (-2) 0 x00 fresh_ScoutBase = None.
Proof.
  apply (velocity_below_symmetric_minimum_is_undefined (limits := scout_limits)
           (-2) 0 x00 fresh_ScoutBase).
  - repeat split; reflexivity.
  - left. split; reflexivity.
Defined.
